(** * ColoringBook_CoverBuilder: cover_builder.py and interior_builder.py

    A shallow embedding of the two build scripts and the properties of
    their dimension arithmetic, argument parsing, image selection and
    page assembly.

    Conventions of the embedding.
    - A Python [float] is an exact rational ([Q]); a decimal literal such
      as [0.002252] is the rational its digits denote.  The two can
      differ in the last pixel where a product lands on a half exactly;
      module [Cover.B64] evaluates the dimension arithmetic in IEEE-754
      binary64 ([SpecFloat]) at concrete inputs to compare.
    - A Python [int] is a [Z].
    - A Python [str] is the list of its code points ([str]), all of
      them below 256.
    - A raised exception is the [Raise] case of [result].
    - The process-wide generator of [random] is an explicit state
      threaded through the calls that draw from it. *)

From Stdlib Require Import ZArith QArith Qround Lia Lqa List Bool.
From Stdlib Require Import String Ascii SpecFloat.
From Stdlib Require Import Permutation Sorted.
Import ListNotations.

Local Open Scope Z_scope.

(** ** Exceptions and fallible results *)

Inductive exn : Type :=
| ValueError
| KeyError
| FileNotFoundError
| AttributeError
| IndexError
| ZeroDivisionError
| OSError.

Inductive result (A : Type) : Type :=
| Ok (a : A)
| Raise (e : exn).
Arguments Ok {A} a.
Arguments Raise {A} e.

Definition bind {A B : Type} (m : result A) (k : A -> result B) : result B :=
  match m with
  | Ok a => k a
  | Raise e => Raise e
  end.

Notation "x <- m ;; k" := (bind m (fun x => k))
  (at level 61, m at next level, right associativity).

(** ** Python's [round] and [int] on a rational *)

Module Py.

(** [round(x)] with one argument: nearest integer, ties to the even one. *)
Definition round (x : Q) : Z :=
  let a := 2 * Qnum x + Z.pos (Qden x) in
  let b := 2 * Z.pos (Qden x) in
  let fl := a / b in
  if (a mod b =? 0) && Z.odd fl then fl - 1 else fl.

(** [int(x)] on a float: truncation toward zero. *)
Definition int (x : Q) : Z := Z.quot (Qnum x) (Z.pos (Qden x)).

(** [min(a, b)] on floats. *)
Definition qmin (a b : Q) : Q := if Qle_bool a b then a else b.

End Py.


(** ** Strings and the fragment of [re] the scripts use *)

(** A [str] is the list of its code points. *)
Definition str : Type := list ascii.

Definition s_ (x : string) : str := list_ascii_of_string x.

Definition code (c : ascii) : N := N_of_ascii c.

Definition is_digit (c : ascii) : bool :=
  ((48 <=? code c) && (code c <=? 57))%N.

(** [\s] and [str.isspace] below code point 256: tab to carriage return,
    the four separators 0x1c-0x1f, space, NEL and no-break space. *)
Definition is_space (c : ascii) : bool :=
  let n := code c in
  (((9 <=? n) && (n <=? 13)) || ((28 <=? n) && (n <=? 32))
   || (n =? 133) || (n =? 160))%N.

Definition is_hex (c : ascii) : bool :=
  let n := code c in
  (((48 <=? n) && (n <=? 57)) || ((65 <=? n) && (n <=? 70))
   || ((97 <=? n) && (n <=? 102)))%N.

Definition is_char (a : ascii) (c : ascii) : bool := Ascii.eqb a c.

Definition newline : ascii := ascii_of_N 10.

(** [str.lower] below code point 256: A-Z and the Latin-1 capitals
    0xc0-0xde (0xd7, the multiplication sign, excepted) move up by 32. *)
Definition lower_char (c : ascii) : ascii :=
  let n := code c in
  if (((65 <=? n) && (n <=? 90))
      || ((192 <=? n) && (n <=? 222) && negb (n =? 215)))%N
  then ascii_of_N (n + 32) else c.

Definition lower (s : str) : str := map lower_char s.

Fixpoint startswith (p s : str) : bool :=
  match p, s with
  | [], _ => true
  | a :: p', b :: s' => Ascii.eqb a b && startswith p' s'
  | _ :: _, [] => false
  end.

Definition endswith (p s : str) : bool := startswith (rev p) (rev s).

Definition str_eqb (a b : str) : bool :=
  (List.length a =? List.length b)%nat && startswith a b.

(** [s.partition(sep)]: split at the first occurrence of [sep]; the
    third component is what follows it, and is empty when [sep] does not
    occur. *)
Fixpoint partition_after (sep s : str) : str :=
  if startswith sep s then skipn (List.length sep) s
  else match s with
       | [] => []
       | _ :: s' => partition_after sep s'
       end.

Module Re.

(** Regular expressions over code points, as [re] reads the patterns of
    the two scripts: greedy repetition, ordered alternation, capturing
    groups, [^] and [$]. *)
Inductive re : Type :=
| Eps
| Cls (p : ascii -> bool)
| Cat (r1 r2 : re)
| Alt (r1 r2 : re)
| Star (r : re)
| Grp (r : re)
| Bol
| Eol.

Definition Plus (r : re) : re := Cat r (Star r).
Definition Opt (r : re) : re := Alt r Eps.
Definition Chr (a : ascii) : re := Cls (is_char a).

Fixpoint Lit (s : str) : re :=
  match s with
  | [] => Eps
  | a :: s' => Cat (Chr a) (Lit s')
  end.

Fixpoint Rep (n : nat) (r : re) : re :=
  match n with
  | O => Eps
  | S n' => Cat r (Rep n' r)
  end.

(** [$] matches at the end of the string and just before a newline that
    is the last character. *)
Definition at_eol (s : str) : bool :=
  match s with
  | [] => true
  | [c] => Ascii.eqb c newline
  | _ => false
  end.

Section Matcher.

Context {R : Type}.

(** The continuation receives the number of characters consumed so
    far, the rest of the subject and the groups closed so far (latest
    first). *)
Definition cont : Type := nat -> str -> list str -> option R.

(** The greedy loop of a repetition: one more iteration of the body
    (which must consume something) before trying to stop. *)
Fixpoint star_loop (body : nat -> str -> list str -> cont -> option R)
  (k : cont) (fuel : nat) (n : nat) (s : str) (caps : list str)
  : option R :=
  match fuel with
  | O => k n s caps
  | S fuel' =>
      match body n s caps
              (fun n' s' caps' =>
                 if (List.length s' <? List.length s)%nat
                 then star_loop body k fuel' n' s' caps' else None)
      with
      | Some x => Some x
      | None => k n s caps
      end
  end.

(** Backtracking matcher: the first success in the order [re] tries
    the alternatives (a repetition tries one more iteration before it
    tries to stop; an alternation tries its left branch first). *)
Fixpoint m (r : re) (n : nat) (s : str) (caps : list str) (k : cont)
  : option R :=
  match r with
  | Eps => k n s caps
  | Cls p =>
      match s with
      | c :: s' => if p c then k (S n) s' caps else None
      | [] => None
      end
  | Cat r1 r2 => m r1 n s caps (fun n' s' caps' => m r2 n' s' caps' k)
  | Alt r1 r2 =>
      match m r1 n s caps k with
      | Some x => Some x
      | None => m r2 n s caps k
      end
  | Star r1 => star_loop (m r1) k (List.length s) n s caps
  | Grp r1 =>
      m r1 n s caps
        (fun n' s' caps' => k n' s' (firstn (n' - n) s :: caps'))
  | Bol => if Nat.eqb n 0 then k n s caps else None
  | Eol => if at_eol s then k n s caps else None
  end.

End Matcher.

(** [re.match(r, s)]: match at the start; the groups in pattern order. *)
Definition match_ (r : re) (s : str) : option (list str) :=
  m r 0%nat s [] (fun _ _ caps => Some (rev caps)).

(** [re.search(r, s)]: the leftmost position where the pattern matches. *)
Fixpoint search_from (r : re) (n : nat) (s : str) : option (list str) :=
  match m r n s [] (fun _ _ caps => Some (rev caps)) with
  | Some g => Some g
  | None =>
      match s with
      | [] => None
      | _ :: s' => search_from r (S n) s'
      end
  end.

Definition search (r : re) (s : str) : option (list str) :=
  search_from r 0%nat s.

End Re.

(** The matches of a pattern, as a relation: [Re.matches r n s c n' s' c']
    when [r] can take the subject from [n] characters consumed, rest [s]
    and groups [c] to [n'], [s'] and [c']. *)
Inductive matches : Re.re -> nat -> str -> list str ->
                    nat -> str -> list str -> Prop :=
| M_Eps n s c : matches Re.Eps n s c n s c
| M_Cls p ch n s c :
    p ch = true -> matches (Re.Cls p) n (ch :: s) c (S n) s c
| M_Cat r1 r2 n s c n1 s1 c1 n2 s2 c2 :
    matches r1 n s c n1 s1 c1 ->
    matches r2 n1 s1 c1 n2 s2 c2 ->
    matches (Re.Cat r1 r2) n s c n2 s2 c2
| M_AltL r1 r2 n s c n1 s1 c1 :
    matches r1 n s c n1 s1 c1 -> matches (Re.Alt r1 r2) n s c n1 s1 c1
| M_AltR r1 r2 n s c n1 s1 c1 :
    matches r2 n s c n1 s1 c1 -> matches (Re.Alt r1 r2) n s c n1 s1 c1
| M_Star0 r n s c : matches (Re.Star r) n s c n s c
| M_StarS r n s c n1 s1 c1 n2 s2 c2 :
    matches r n s c n1 s1 c1 ->
    (List.length s1 < List.length s)%nat ->
    matches (Re.Star r) n1 s1 c1 n2 s2 c2 ->
    matches (Re.Star r) n s c n2 s2 c2
| M_Grp r n s c n1 s1 c1 :
    matches r n s c n1 s1 c1 ->
    matches (Re.Grp r) n s c n1 s1 (firstn (n1 - n) s :: c1)
| M_Bol s c : matches Re.Bol 0%nat s c 0%nat s c
| M_Eol n s c : Re.at_eol s = true -> matches Re.Eol n s c n s c.

(** ** [int] and [float] on strings *)

Definition digit_val (c : ascii) : Z := Z.of_N (code c) - 48.

(** The value of a run of decimal digits, most significant first. *)
Definition digits_val (s : str) : Z :=
  fold_left (fun acc c => 10 * acc + digit_val c) s 0.

Definition dot : ascii := "."%char.

(** [s] is empty or starts with a character outside [p]. *)
Definition starts_not (p : ascii -> bool) (s : str) : Prop :=
  match s with
  | [] => True
  | c :: _ => p c = false
  end.

(** The longest prefix whose characters satisfy [p], and the rest. *)
Fixpoint span (p : ascii -> bool) (s : str) : str * str :=
  match s with
  | [] => ([], [])
  | c :: s' =>
      if p c then let (a, b) := span p s' in (c :: a, b) else ([], s)
  end.

Definition nonempty (s : str) : bool :=
  match s with [] => false | _ :: _ => true end.

(** A plain decimal numeral: [digits] or [digits.digits]. *)
Definition is_numeral (s : str) : bool :=
  let (i, r) := span is_digit s in
  nonempty i
  && match r with
     | [] => true
     | c :: f => is_char "." c && nonempty f && forallb is_digit f
     end.

(** The rational a plain decimal numeral denotes, in lowest terms. *)
Definition numeral_val (s : str) : Q :=
  let (i, r) := span is_digit s in
  let f := tl r in
  Qred (Qmake (digits_val i * 10 ^ Z.of_nat (List.length f) + digits_val f)
              (Z.to_pos (10 ^ Z.of_nat (List.length f)))).

(** [float(s)] for [s] a plain decimal numeral, the only strings the
    scripts pass to it (the groups of the trim pattern); anything else is
    a [ValueError] here. *)
Definition float_ (s : str) : result Q :=
  if is_numeral s then Ok (numeral_val s) else Raise ValueError.

(** ** [parse_trim], both scripts *)

Definition number_re : Re.re :=
  Re.Grp (Re.Cat (Re.Plus (Re.Cls is_digit))
                 (Re.Opt (Re.Cat (Re.Chr ".") (Re.Plus (Re.Cls is_digit))))).

Definition ws_re : Re.re := Re.Star (Re.Cls is_space).

Fixpoint cat_all (rs : list Re.re) : Re.re :=
  match rs with
  | [] => Re.Eps
  | [r] => r
  | r :: rs' => Re.Cat r (cat_all rs')
  end.



(** The characters of a plain decimal numeral. *)
Definition numeral_char (c : ascii) : bool := is_digit c || is_char dot c.

(** The form [<number>x<number>] of the specification: two plain decimal
    numerals around one lower-case [x], and nothing else. *)
Definition trim_form (n1 n2 : str) : str := n1 ++ "x"%char :: n2.

Definition is_trim_form (s : str) : Prop :=
  exists n1 n2, is_numeral n1 = true /\ is_numeral n2 = true
                /\ s = trim_form n1 n2.

(** ** [int] on an arbitrary string *)

(** The white space [int] skips around a number: the space characters
    of the C locale and, above code point 127, NEL and the no-break
    space, which [int] turns into spaces before it parses.  The
    separators 0x1c-0x1f, white space for [str.isspace] and [\s], are
    not skipped. *)
Definition is_int_space (c : ascii) : bool :=
  let n := code c in
  (((9 <=? n) && (n <=? 13)) || (n =? 32) || (n =? 133) || (n =? 160))%N.

Fixpoint int_strip_left (s : str) : str :=
  match s with
  | c :: s' => if is_int_space c then int_strip_left s' else s
  | [] => []
  end.

Definition int_strip (s : str) : str :=
  rev (int_strip_left (rev (int_strip_left s))).

Definition underscore : ascii := "_"%char.

(** Digits, with single underscores allowed between two digits. *)
Fixpoint grouped_digits (prev_digit : bool) (s : str) : bool :=
  match s with
  | [] => prev_digit
  | c :: s' =>
      if is_digit c then grouped_digits true s'
      else if is_char underscore c then prev_digit && grouped_digits false s'
      else false
  end.

(** [int(s)], base 10: optional white space around an optional sign and
    digits.  [max_digits] is the interpreter's limit on the number of
    digits ([sys.int_max_str_digits]; 0 switches it off). *)
Definition py_int (max_digits : nat) (s : str) : result Z :=
  let t := int_strip s in
  let (sign, body) :=
    match t with
    | c :: r => if is_char "+" c then (1, r)
                else if is_char "-" c then (-1, r) else (1, t)
    | [] => (1, t)
    end in
  let ds := filter is_digit body in
  if grouped_digits false body
     && ((max_digits =? 0)%nat || (List.length ds <=? max_digits)%nat)
  then Ok (sign * digits_val ds) else Raise ValueError.

(** ** The generator behind [random] *)

(** The generator of the [random] module is not part of the two
    scripts; it is taken as an interface.  [randbelow s n] is
    [Random._randbelow(n)]: a number below [n] and the next state.
    [random s] is [random.random()]: a number in the interval [0, 1). *)
Class RandomGen : Type := {
  gen : Type;
  seed : Z -> gen;
  randbelow : gen -> nat -> nat * gen;
  random : gen -> Q * gen;
  randbelow_lt : forall s n, (0 < n)%nat -> (fst (randbelow s n) < n)%nat;
  random_range : forall s, (0 <= fst (random s))%Q /\ (fst (random s) < 1)%Q
}.

Section Random.

Context {G : RandomGen}.

(** [x[i] = v] on a list; the callers stay within range. *)
Fixpoint set_nth {A : Type} (x : list A) (i : nat) (v : A) : list A :=
  match x, i with
  | [], _ => []
  | _ :: t, O => v :: t
  | a :: t, S i' => a :: set_nth t i' v
  end.

(** [x[i], x[j] = x[j], x[i]] *)
Definition swap {A : Type} (x : list A) (i j : nat) : list A :=
  match nth_error x i, nth_error x j with
  | Some xi, Some xj => set_nth (set_nth x i xj) j xi
  | _, _ => x
  end.

(** The loop of [random.shuffle]:
    [for i in reversed(range(1, len(x))): j = randbelow(i + 1); swap]. *)
Fixpoint shuffle_from {A : Type} (i : nat) (x : list A) (s : gen)
  : list A * gen :=
  match i with
  | O => (x, s)
  | S i' =>
      let (j, s') := randbelow s (S i) in
      shuffle_from i' (swap x i j) s'
  end.

Definition shuffle {A : Type} (x : list A) (s : gen) : list A * gen :=
  shuffle_from (List.length x - 1) x s.

(** [random.randint(a, b)]: [a + randbelow(b - a + 1)], a [ValueError]
    on an empty range. *)
Definition randint (a b : Z) (s : gen) : result Z * gen :=
  let width := b + 1 - a in
  if 0 <? width then
    let (k, s') := randbelow s (Z.to_nat width) in
    (Ok (a + Z.of_nat k), s')
  else (Raise ValueError, s).

(** [random.uniform(a, b)]: [a + (b - a) * random()]. *)
Definition uniform (a b : Q) (s : gen) : Q * gen :=
  let (u, s') := random s in
  ((a + (b - a) * u)%Q, s').

End Random.

(** A small concrete generator (a linear congruential one), used to run
    the definitions on examples. *)
Module Lcg.

Definition next (s : Z) : Z := (1103515245 * s + 12345) mod 2147483648.

Definition below (s : Z) (n : nat) : nat * Z :=
  (Z.to_nat (next s mod Z.of_nat n), next s).

Definition unit_interval (s : Z) : Q * Z :=
  (Qmake (next s mod 1000) 1000, next s).

Definition below_lt (s : Z) (n : nat) :
  (0 < n)%nat -> (fst (below s n) < n)%nat.
Proof.
  intros H. unfold below. cbn [fst].
  pose proof (Z.mod_pos_bound (next s) (Z.of_nat n) ltac:(lia)). lia.
Qed.

Definition unit_interval_range (s : Z) :
  (0 <= fst (unit_interval s))%Q /\ (fst (unit_interval s) < 1)%Q.
Proof.
  unfold unit_interval, Qle, Qlt. cbn [fst Qnum Qden].
  pose proof (Z.mod_pos_bound (next s) 1000 ltac:(lia)). lia.
Qed.

#[export] Instance generator : RandomGen := {
  gen := Z;
  seed := fun z => z;
  randbelow := below;
  random := unit_interval;
  randbelow_lt := below_lt;
  random_range := unit_interval_range
}.

End Lcg.

(** ** Directory listings, [glob] and [sorted] *)

(** [fnmatch] of a name against ["fbnp_*.png"]: the prefix, anything,
    the suffix. *)
Definition glob_fbnp (name : str) : bool :=
  startswith (s_ "fbnp_") name && endswith (s_ ".png") name
  && (9 <=? List.length name)%nat.

(** [images_dir.glob("fbnp_*.png")] over the entries of the directory, in
    the order the directory yields them. *)
Definition glob (listing : list str) : list str := filter glob_fbnp listing.

(** Order of [str] (and of paths inside one directory): lexicographic by
    code point. *)
Fixpoint str_leb (a b : str) : bool :=
  match a, b with
  | [], _ => true
  | _ :: _, [] => false
  | c :: a', d :: b' =>
      if (code c <? code d)%N then true
      else if (code d <? code c)%N then false
      else str_leb a' b'
  end.

(** [sorted] / [list.sort]: a stable sort. *)
Fixpoint insert_by {A : Type} (le : A -> A -> bool) (a : A) (l : list A)
  : list A :=
  match l with
  | [] => [a]
  | b :: t => if le a b then a :: l else b :: insert_by le a t
  end.

Definition sort_by {A : Type} (le : A -> A -> bool) (l : list A) : list A :=
  fold_right (insert_by le) [] l.

Definition key_leb {A : Type} (key : A -> Z) (a b : A) : bool :=
  key a <=? key b.

Definition digits_re : Re.re := Re.Grp (Re.Plus (Re.Cls is_digit)).

(** A name of the form [fbnp_<N>.png]. *)
Definition page_name (ds : str) : str := s_ "fbnp_" ++ ds ++ s_ ".png".

Definition is_page_name (name : str) : Prop :=
  exists ds, forallb is_digit ds = true /\ ds <> [] /\ name = page_name ds.

(** ** Images of the imaging library *)

(** Pixels are RGBA; an ["L"] image keeps its value in all three colour
    bands. *)
Definition color : Type := (Z * Z * Z * Z)%type.

Inductive mode : Type := L | RGB | RGBA.

Definition box : Type := (Z * Z * Z * Z)%type.

(** An image is the history of the library calls that made it.  The
    calls whose pixels the scripts do not depend on stay uninterpreted. *)
Inductive image : Type :=
| New (md : mode) (size : Z * Z) (fill : color)
| Opened (file : str) (size : Z * Z)
| Convert (md : mode) (im : image)
| Autocontrast (im : image)
| Band (j : nat) (im : image)
| PutChannel (j : nat) (band : image) (im : image)
| Resize (size : Z * Z) (im : image)
| Rotate (angle : Q) (size : Z * Z) (im : image)
| Blur (radius : Z) (im : image)
| PasteColor (c : color) (mask : image) (im : image)
| Paste (src : image) (im : image)
| PasteMasked (src : image) (mask : image) (im : image)
| Line (y : Z) (v : Z) (im : image)
| Rect (b : box) (c : color) (im : image)
| AlphaComposite (src : image) (dest : Z * Z) (im : image)
| Text (xy : Z * Z) (text : str) (font : str * Z) (fill : color) (im : image).

Fixpoint size_of (im : image) : Z * Z :=
  match im with
  | New _ size _ => size
  | Opened _ size => size
  | Resize size _ => size
  | Rotate _ size _ => size
  | Convert _ i | Autocontrast i | Band _ i | PutChannel _ _ i | Blur _ i
  | PasteColor _ _ i | Paste _ i | PasteMasked _ _ i | Line _ _ i | Rect _ _ i
  | AlphaComposite _ _ i | Text _ _ _ _ i => size_of i
  end.

Definition width (im : image) : Z := fst (size_of im).
Definition height (im : image) : Z := snd (size_of im).

Definition rgba_white : color := (255, 255, 255, 255).

Definition in_box (b : box) (x y : Z) : bool :=
  let '(x0, y0, x1, y1) := b in
  (x0 <=? x) && (x <=? x1) && (y0 <=? y) && (y <=? y1).

(** The pixel at [(x, y)] of an image made of fills, rectangles and
    conversions between ["RGB"] and ["RGBA"]; [None] for the other
    calls and outside the image. *)
Fixpoint pixel (im : image) (x y : Z) : option color :=
  match im with
  | New _ (w, h) c =>
      if (0 <=? x) && (x <? w) && (0 <=? y) && (y <? h) then Some c else None
  | Rect b c i =>
      match pixel i x y with
      | Some old => Some (if in_box b x y then c else old)
      | None => None
      end
  | Convert RGBA i => pixel i x y
  | Convert RGB i =>
      match pixel i x y with
      | Some (r, g, b, _) => Some (r, g, b, 255)
      | None => None
      end
  | _ => None
  end.

(** ** Colour strings *)

Definition hex_val (c : ascii) : Z :=
  let n := Z.of_N (code c) in
  if is_digit c then n - 48
  else if (97 <=? n) && (n <=? 102) then n - 87
  else n - 55.

Definition hex_pair (a b : ascii) : Z := 16 * hex_val a + hex_val b.

Definition is_lower_hex (c : ascii) : bool :=
  let n := code c in
  (((48 <=? n) && (n <=? 57)) || ((97 <=? n) && (n <=? 102)))%N.

(** [ImageColor.getrgb] of the imaging library on the strings the cover
    script passes to it, all of which start with [#]: the patterns
    [#[a-f0-9]{6}$] and [#[a-f0-9]{8}$] on the lower-cased string, and a
    [ValueError] ("unknown color specifier") otherwise. *)
Definition getrgb (s : str) : result color :=
  let s := lower s in
  let hexes n := cat_all [Re.Chr "#"; Re.Rep n (Re.Cls is_lower_hex); Re.Eol] in
  match Re.match_ (hexes 6%nat) s, Re.match_ (hexes 8%nat) s, s with
  | Some _, _, _ :: r1 :: r2 :: g1 :: g2 :: b1 :: b2 :: _ =>
      Ok (hex_pair r1 r2, hex_pair g1 g2, hex_pair b1 b2, 255)
  | None, Some _, _ :: r1 :: r2 :: g1 :: g2 :: b1 :: b2 :: a1 :: a2 :: _ =>
      Ok (hex_pair r1 r2, hex_pair g1 g2, hex_pair b1 b2, hex_pair a1 a2)
  | _, _, _ => Raise ValueError
  end.

(** * cover_builder.py *)

Module Cover.

(** ** Constants *)

Definition DPI : Z := 300.
Definition BLEED_IN : Q := 125 # 1000.
Definition SAFE_MARGIN_IN : Q := 25 # 100.
Definition BARCODE_W_IN : Q := 2 # 1.
Definition BARCODE_H_IN : Q := 12 # 10.
Definition BARCODE_BOTTOM_OFFSET_IN : Q := 25 # 100.

(** The keys of [PAPER_THICKNESS]; [--paper] is an argparse [choices]
    argument over exactly these keys. *)
Inductive paper : Type :=
| white
| cream
| color_premium
| color_standard.

Definition PAPER_THICKNESS (p : paper) : Q :=
  match p with
  | white => 2252 # 1000000
  | cream => 25 # 10000
  | color_premium => 2347 # 1000000
  | color_standard => 2252 # 1000000
  end.

Record Size : Type := mkSize { w : Z; h : Z }.

(** ** [inches_to_px] and [compute_dimensions] *)

Definition inches_to_px (inches : Q) : Z :=
  Py.round (inches * inject_Z DPI)%Q.

Definition compute_dimensions (trim_w_in trim_h_in : Q) (pages : Z) (p : paper)
  : Size * Size * Z :=
  let bleed_px := inches_to_px BLEED_IN in
  let trim_w_px := inches_to_px trim_w_in in
  let trim_h_px := inches_to_px trim_h_in in
  let spine_in := (PAPER_THICKNESS p * inject_Z pages)%Q in
  let spine_px := inches_to_px spine_in in
  let total_w_px :=
    inches_to_px (BLEED_IN * (2 # 1) + trim_w_in * (2 # 1) + spine_in)%Q in
  let total_h_px := inches_to_px (BLEED_IN * (2 # 1) + trim_h_in)%Q in
  (mkSize total_w_px total_h_px, mkSize trim_w_px trim_h_px, spine_px).

Definition total_of (d : Size * Size * Z) : Size := fst (fst d).
Definition trim_px_of (d : Size * Size * Z) : Size := snd (fst d).
Definition spine_px_of (d : Size * Size * Z) : Z := snd d.

(** The same computation with the rounding of the interpreter's floats
    written out.  [fl] takes a real number to the float nearest to it;
    every float operation of lines 224-232 rounds its exact result once,
    [round] is exact, and the thickness of the paper is the float nearest
    to its decimal.  With [fl] the identity this is
    [compute_dimensions]. *)
Definition inches_to_px_fl (fl : Q -> Q) (inches : Q) : Z :=
  Py.round (fl (inches * inject_Z DPI))%Q.

Definition compute_dimensions_fl (fl : Q -> Q) (trim_w_in trim_h_in : Q)
  (pages : Z) (p : paper) : Size * Size * Z :=
  let bleed_px := inches_to_px_fl fl BLEED_IN in
  let trim_w_px := inches_to_px_fl fl trim_w_in in
  let trim_h_px := inches_to_px_fl fl trim_h_in in
  let spine_in := fl (fl (PAPER_THICKNESS p) * inject_Z pages)%Q in
  let spine_px := inches_to_px_fl fl spine_in in
  let total_w_px :=
    inches_to_px_fl fl
      (fl (fl (fl (BLEED_IN * (2 # 1)) + fl (trim_w_in * (2 # 1))) + spine_in))%Q in
  let total_h_px :=
    inches_to_px_fl fl (fl (fl (BLEED_IN * (2 # 1)) + trim_h_in))%Q in
  (mkSize total_w_px total_h_px, mkSize trim_w_px trim_h_px, spine_px).


(** ** [parse_trim] *)


(** [r"^\s*(\d+(?:\.\d+)?)\s*x\s*(\d+(?:\.\d+)?)\s*$"] *)
Definition trim_re : Re.re :=
  cat_all [Re.Bol; ws_re; number_re; ws_re; Re.Chr "x"; ws_re; number_re;
           ws_re; Re.Eol].

Definition parse_trim (trim_str : str) : result (Q * Q) :=
  match Re.match_ trim_re (lower trim_str) with
  | Some [g1; g2] =>
      a <- float_ g1 ;; b <- float_ g2 ;; Ok (a, b)
  | _ => Raise ValueError
  end.


(** ** [load_interior_images] *)

(** [r"fbnp_(\d+)\.png$"] *)
Definition name_re : Re.re :=
  cat_all [Re.Lit (s_ "fbnp_"); digits_re; Re.Lit (s_ ".png"); Re.Eol].

(** The index [int(m.group(1))] of a name, when the pattern is found. *)
Definition name_index (name : str) : option Z :=
  match Re.search name_re name with
  | Some (g :: _) => Some (digits_val g)
  | _ => None
  end.

Definition has_index (p : str) : bool :=
  match name_index p with Some _ => true | None => false end.

(** The loop that builds [candidates]: names the pattern is not found in
    are skipped. *)
Fixpoint candidates_of (paths : list str) : list (Z * str) :=
  match paths with
  | [] => []
  | p :: rest =>
      match name_index p with
      | Some i => (i, p) :: candidates_of rest
      | None => candidates_of rest
      end
  end.

(** The interior files of the directory, by index. *)
Definition interior_files (listing : list str) : list str :=
  map snd (sort_by (key_leb fst) (candidates_of (sort_by str_leb (glob listing)))).

Section LoadImages.

Context {G : RandomGen}.

Definition load_interior_images (listing : list str) (max_images : Z)
  (s : gen) : result (list str) * gen :=
  let files := interior_files listing in
  match files with
  | [] => (Raise FileNotFoundError, s)
  | _ :: _ =>
      let n := Z.of_nat (List.length files) in
      let k := Z.max 2 (Z.min max_images n) in
      let head := firstn (Z.to_nat (Z.min 6 n)) files in
      let (head', s') := shuffle head s in
      (Ok (firstn (Z.to_nat k) head'), s')
  end.

End LoadImages.

(** Ten interior pages, [fbnp_1.png] to [fbnp_10.png], and the cover of
    an earlier run. *)
Definition ten_pages : list str :=
  map (fun n => page_name (s_ n))
      ["1"; "2"; "3"; "4"; "5"; "6"; "7"; "8"; "9"; "10"]%string
  ++ [s_ "fbnp_cover.png"].

(** ** What the cover build reads from its environment *)

(** The file system and the imaging library as the cover build sees
    them.  [has_putchannel] says whether image objects have the
    [putchannel] method the build calls; [int_max_str_digits] is the
    interpreter's limit on the digits [int] converts. *)
Record World : Type := {
  listing : list str;
  path_exists : str -> bool;
  open_image : str -> result (Z * Z);
  textbbox : str * Z -> str -> box;
  multiline_textbbox : str * Z -> str -> box;
  textlength : str * Z -> str -> Q;
  rotated_size : Q -> Z * Z -> Z * Z;
  has_putchannel : bool;
  int_max_str_digits : nat;
  which_magick : bool;
  magick_succeeds : bool
}.

(** ** The state of a build *)

Section Build.

Context {G : RandomGen}.

(** The process-wide generator and the image objects alive; a
    variable of the script that holds an image is an index into
    [heap]. *)
Record state : Type := mkState { rng : gen; heap : list image }.

Definition M (A : Type) : Type := state -> result A * state.

Definition ret {A : Type} (a : A) : M A := fun st => (Ok a, st).

Definition throw {A : Type} (e : exn) : M A := fun st => (Raise e, st).

Definition mbind {A B : Type} (m : M A) (k : A -> M B) : M B :=
  fun st =>
    match m st with
    | (Ok a, st') => k a st'
    | (Raise e, st') => (Raise e, st')
    end.

Definition lift {A : Type} (r : result A) : M A := fun st => (r, st).

Definition alloc (im : image) : M nat :=
  fun st => (Ok (List.length (heap st)),
             mkState (rng st) (heap st ++ [im])).

Definition load (id : nat) : M image :=
  fun st => (Ok (nth id (heap st) (New RGBA (0, 0) rgba_white)), st).

(** A call that changes the image object [id] in place. *)
Definition mutate (id : nat) (f : image -> image) : M unit :=
  fun st =>
    (Ok tt,
     mkState (rng st)
       (set_nth (heap st) id (f (nth id (heap st) (New RGBA (0, 0) rgba_white))))).

Definition draw_random {A : Type} (f : gen -> A * gen) : M A :=
  fun st => let (a, g') := f (rng st) in (Ok a, mkState g' (heap st)).

Definition draw_random_r {A : Type} (f : gen -> result A * gen) : M A :=
  fun st => let (a, g') := f (rng st) in (a, mkState g' (heap st)).

Definition reseed (z : Z) : M unit :=
  fun st => (Ok tt, mkState (seed z) (heap st)).

End Build.

Notation "x <-- m ;;; k" := (mbind m (fun x => k))
  (at level 61, m at next level, right associativity).
Notation "m ;;; k" := (mbind m (fun _ => k))
  (at level 61, right associativity).

(** ** The background *)

Definition PASTEL_PALETTES : list (str * str) :=
  [(s_ "#FDF2F8", s_ "#DBEAFE");
   (s_ "#FDE68A", s_ "#A7F3D0");
   (s_ "#E9D5FF", s_ "#BFDBFE");
   (s_ "#FFE4E6", s_ "#FEF9C3");
   (s_ "#E0F2FE", s_ "#DCFCE7")].

(** [r"^#?[0-9a-fA-F]{6}$"] *)
Definition hex_re : Re.re :=
  cat_all [Re.Bol; Re.Opt (Re.Chr "#"); Re.Rep 6 (Re.Cls is_hex); Re.Eol].

(** The palette index of a gradient specification:
    [max(0, min(len(PASTEL_PALETTES) - 1, int(variant)))], and 0 when
    [int] raises. *)
Definition palette_index (max_digits : nat) (bg : str) : Z :=
  let variant := partition_after (s_ ":pastel:") bg in
  match py_int max_digits variant with
  | Ok v => Z.max 0 (Z.min (Z.of_nat (List.length PASTEL_PALETTES) - 1) v)
  | Raise _ => 0
  end.

Section Background.

Context {G : RandomGen}.

(** [Image.new(mode, size, color)] *)
Definition image_new (md : mode) (size : Z * Z) (c : color) : M nat :=
  if (fst size <? 0) || (snd size <? 0) then throw ValueError
  else alloc (New md size c).

(** The rows of the mask:
    [v = int(255 * (y / max(1, bg.height - 1)))]. *)
Definition mask_value (h y : Z) : Z :=
  Py.int (255 * (inject_Z y / inject_Z (Z.max 1 (h - 1))))%Q.

Fixpoint mask_rows (mask : nat) (w h : Z) (ys : list nat) : M unit :=
  match ys with
  | [] => ret tt
  | y :: rest =>
      mutate mask (Line (Z.of_nat y) (mask_value h (Z.of_nat y))) ;;;
      mask_rows mask w h rest
  end.

Definition draw_gradient (bg : nat) (top_hex bottom_hex : str) : M unit :=
  b <-- load bg ;;;
  ct <-- lift (getrgb top_hex) ;;;
  top <-- image_new RGB (size_of b) ct ;;;
  cb <-- lift (getrgb bottom_hex) ;;;
  bottom <-- image_new RGB (size_of b) cb ;;;
  mask <-- image_new L (size_of b) (0, 0, 0, 255) ;;;
  mask_rows mask (width b) (height b) (seq 0 (Z.to_nat (height b))) ;;;
  t <-- load top ;;;
  mutate bg (Paste t) ;;;
  bt <-- load bottom ;;;
  mk <-- load mask ;;;
  mutate bg (PasteMasked bt mk).

(** [im.convert(mode)]: a converted copy. *)
Definition convert (id : nat) (md : mode) : M nat :=
  im <-- load id ;;; alloc (Convert md im).

(** Lines 259-276: the canvas and its background.  The result is the
    object the variable [base] is bound to afterwards. *)
Definition background (max_digits : nat) (total : Size) (bg : str) : M nat :=
  base <-- image_new RGBA (w total, h total) rgba_white ;;;
  if startswith (s_ "gradient:pastel") bg then
    let idx := palette_index max_digits bg in
    let pal := nth (Z.to_nat idx) PASTEL_PALETTES ([], []) in
    tmp <-- convert base RGB ;;;
    draw_gradient tmp (fst pal) (snd pal) ;;;
    convert base RGBA
  else
    match Re.match_ hex_re bg with
    | Some _ =>
        let color := if startswith (s_ "#") bg then bg else s_ "#" ++ bg in
        c <-- lift (getrgb (color ++ s_ "ff")) ;;;
        mutate base (Rect (0, 0, w total, h total) c) ;;;
        ret base
    | None =>
        c <-- lift (getrgb (s_ "#E0F2FEff")) ;;;
        mutate base (Rect (0, 0, w total, h total) c) ;;;
        ret base
    end.

End Background.

(** ** Tilted sheets *)

(** [_fit_within] *)
Definition _fit_within (src_size target_size : Z * Z) : result (Z * Z) :=
  let (sw, sh) := src_size in
  let (tw, th) := target_size in
  if (sw =? 0) || (sh =? 0) then Raise ZeroDivisionError
  else
    let scale := Py.qmin (inject_Z tw / inject_Z sw) (inject_Z th / inject_Z sh) in
    Ok (Z.max 1 (Py.int (inject_Z sw * scale)),
        Z.max 1 (Py.int (inject_Z sh * scale))).

Definition transparent : color := (0, 0, 0, 0).

Section Sheets.

Context {G : RandomGen}.
Variable W : World.

(** [place_tilted_sheet(base, sheet, box, angle_deg)] with the default
    [border_px = 12] and [shadow_px = 12].  [base] is the canvas
    object; everything else lives in the call. *)
Definition place_tilted_sheet (base : nat) (sheet : image) (b : box)
  (angle_deg : Q) : M unit :=
  let border_px := 12 in
  let shadow_px := 12 in
  let '(b0, b1, b2, b3) := b in
  let w := b2 - b0 in
  let h := b3 - b1 in
  if (w <? 0) || (h <? 0) then throw ValueError else
  let paper := New RGBA (w, h) rgba_white in
  let inner := Convert RGBA (Convert L sheet) in
  let pad := Z.max 8 (Z.min w h / 20) in
  let inner_w := w - 2 * (border_px + pad) in
  let inner_h := h - 2 * (border_px + pad) in
  if (inner_w <=? 0) || (inner_h <=? 0) then ret tt else
  fit <-- lift (_fit_within (size_of inner) (inner_w, inner_h)) ;;;
  let inner := Resize fit inner in
  let cx := (w - width inner) / 2 in
  let cy := (h - height inner) / 2 in
  let paper := AlphaComposite inner (cx, cy) paper in
  let rotated := Rotate angle_deg (rotated_size W angle_deg (w, h)) paper in
  let shadow := New RGBA (size_of rotated) transparent in
  let sh := New RGBA (size_of rotated) transparent in
  let mask := Band 3 rotated in
  let sh := PasteColor (0, 0, 0, 180) mask sh in
  let sh := Blur shadow_px sh in
  let shadow := AlphaComposite sh (shadow_px, shadow_px) shadow in
  let px := b0 - (width rotated - w) / 2 in
  let py := b1 - (height rotated - h) / 2 in
  mutate base (AlphaComposite shadow (px, py)) ;;;
  mutate base (AlphaComposite rotated (px, py)).

(** The cells of [random_boxes], row by row. *)
Fixpoint random_cells (panel_x0 bleed_px cell_w cell_h : Z)
  (cells : list (Z * Z)) : M (list box) :=
  match cells with
  | [] => ret []
  | (r, c) :: rest =>
      jx <-- draw_random_r (randint ((- cell_w) / 10) (cell_w / 10)) ;;;
      let x0 := panel_x0 + c * cell_w + jx in
      jy <-- draw_random_r (randint ((- cell_h) / 10) (cell_h / 10)) ;;;
      let y0 := bleed_px + r * cell_h + jy in
      let w := Py.int (inject_Z cell_w * (8 # 10)) in
      let h := Py.int (inject_Z cell_h * (8 # 10)) in
      boxes <-- random_cells panel_x0 bleed_px cell_w cell_h rest ;;;
      ret ((x0, y0, x0 + w, y0 + h) :: boxes)
  end.

(** [random_boxes(panel_x0, panel_x1)] with the default [rows = 2] and
    [cols = 3]. *)
Definition random_boxes (total : Size) (bleed_px : Z) (panel_x0 panel_x1 : Z)
  : M (list box) :=
  let rows := 2 in
  let cols := 3 in
  let panel_w := panel_x1 - panel_x0 in
  let panel_h := h total in
  let cell_w := panel_w / cols in
  let cell_h := panel_h / rows in
  boxes <-- random_cells panel_x0 bleed_px cell_w cell_h
              [(0, 0); (0, 1); (0, 2); (1, 0); (1, 1); (1, 2)] ;;;
  draw_random (shuffle boxes).

(** [lst.pop()] *)
Definition pop {A : Type} (l : list A) : result (A * list A) :=
  match rev l with
  | [] => Raise IndexError
  | a :: r => Ok (a, rev r)
  end.

(** Lines 321-324: the art handed to [place_tilted_sheet].  The loop
    [for j in range(3): art.putchannel(j, art.split()[3])] needs the
    method [putchannel]; where the library has none, the first call is
    an [AttributeError]. *)
Definition line_art (img : image) : result image :=
  let art := Convert RGBA (Autocontrast img) in
  if has_putchannel W then
    let art := PutChannel 0 (Band 3 art) art in
    let art := PutChannel 1 (Band 3 art) art in
    let art := PutChannel 2 (Band 3 art) art in
    Ok art
  else Raise AttributeError.

(** Lines 313-326: the loop over the interior images. *)
Fixpoint place_sheets (base : nat) (i : nat) (imgs : list image)
  (front_boxes back_boxes : list box) (all_boxes : list (box * Q))
  : M (list (box * Q)) :=
  match imgs with
  | [] => ret all_boxes
  | img :: rest =>
      angle <-- draw_random (uniform (- (15 # 1)) (15 # 1)) ;;;
      let use_front :=
        Nat.even i || match back_boxes with [] => true | _ => false end in
      popped <-- lift (pop (if use_front then front_boxes else back_boxes)) ;;;
      let (b, remaining) := popped in
      let front_boxes := if use_front then remaining else front_boxes in
      let back_boxes := if use_front then back_boxes else remaining in
      art <-- lift (line_art img) ;;;
      place_tilted_sheet base art b angle ;;;
      place_sheets base (S i) rest front_boxes back_boxes
        (all_boxes ++ [(b, angle)])
  end.

(** Line 289: [[Image.open(p).convert("L") for p in interior_files]]. *)
Fixpoint open_all (files : list str) : result (list image) :=
  match files with
  | [] => Ok []
  | p :: rest =>
      sz <- open_image W p ;;
      ims <- open_all rest ;;
      Ok (Convert L (Opened p sz) :: ims)
  end.

End Sheets.

(** ** Title, spine text, description, barcode *)

Definition DEFAULT_TITLE_FONTS : list str :=
  [s_ "fonts/Baloo2-SemiBold.ttf";
   s_ "fonts/Fredoka-SemiBold.ttf";
   s_ "fonts/ComicNeue-Bold.ttf";
   s_ "/usr/share/fonts/truetype/dejavu/DejaVuSans-Bold.ttf"].

Definition DEFAULT_TEXT_FONTS : list str :=
  [s_ "fonts/Inter-Regular.ttf";
   s_ "fonts/Quicksand-Regular.ttf";
   s_ "/usr/share/fonts/truetype/dejavu/DejaVuSans.ttf"].

Fixpoint pick_first_existing_font (W : World) (candidates : list str)
  : option str :=
  match candidates with
  | [] => None
  | p :: rest =>
      if path_exists W p then Some p else pick_first_existing_font W rest
  end.

(** [text.split()]: the words between runs of white space. *)
Fixpoint split_ws (cur : str) (s : str) : list str :=
  match s with
  | [] => match cur with [] => [] | _ => [rev cur] end
  | c :: s' =>
      if is_space c
      then match cur with
           | [] => split_ws [] s'
           | _ => rev cur :: split_ws [] s'
           end
      else split_ws (c :: cur) s'
  end.

(** [sep.join(parts)] *)
Fixpoint join (sep : str) (parts : list str) : str :=
  match parts with
  | [] => []
  | [p] => p
  | p :: rest => p ++ sep ++ join sep rest
  end.

Definition space : str := [" "%char].

Section Texts.

Context {G : RandomGen}.
Variable W : World.

Fixpoint wrap_loop (font : str * Z) (max_width : Z) (words : list str)
  (lines : list str) (line : list str) : list str :=
  match words with
  | [] => match line with [] => lines | _ => lines ++ [join space line] end
  | wd :: rest =>
      let test := join space (line ++ [wd]) in
      let '(b0, _, b2, _) := textbbox W font test in
      if b2 - b0 <=? max_width
      then wrap_loop font max_width rest lines (line ++ [wd])
      else
        let lines := match line with
                     | [] => lines
                     | _ => lines ++ [join space line]
                     end in
        wrap_loop font max_width rest lines [wd]
  end.

Definition wrap_text (text : str) (font : str * Z) (max_width : Z) : str :=
  join [newline] (wrap_loop font max_width (split_ws [] text) [] []).

(** [add_text_with_shadow] as the title calls it: no [offset]. *)
Definition add_text_with_shadow (img : nat) (xy : Z * Z) (text : str)
  (font : str * Z) (fill shadow : Z * Z * Z) (shadow_offset : Z * Z)
  (shadow_blur : Z) : M unit :=
  im <-- load img ;;;
  let txt := New RGBA (size_of im) transparent in
  let sx := fst xy + fst shadow_offset in
  let sy := snd xy + snd shadow_offset in
  let '(s0, s1, s2) := shadow in
  let txt := Text (sx, sy) text font (s0, s1, s2, 255) txt in
  let txt := if 0 <? shadow_blur then Blur shadow_blur txt else txt in
  mutate img (AlphaComposite txt (0, 0)) ;;;
  let '(f0, f1, f2) := fill in
  mutate img (Text (fst xy + 0, snd xy + 0) text font (f0, f1, f2, 255)).

(** The loop [while title_size > 24: ...; title_size -= 4]. *)
Fixpoint fit_title (fuel : nat) (path : str) (title : str) (max_w : Z)
  (title_size : Z) : Z :=
  match fuel with
  | O => title_size
  | S fuel' =>
      if 24 <? title_size then
        let '(b0, _, b2, _) := textbbox W (path, title_size) title in
        if b2 - b0 <=? max_w then title_size
        else fit_title fuel' path title max_w (title_size - 4)
      else title_size
  end.

(** Lines 334-357. *)
Definition draw_title (base : nat) (path : str) (book_title : str)
  (bleed_px right_x0 right_x1 : Z) : M unit :=
  let max_title_w := Py.int (inject_Z (right_x1 - right_x0) * (8 # 10)) in
  let title_size := fit_title 33 path book_title max_title_w 150 in
  let f_title := (path, title_size) in
  let '(_, _, t2, _) := textbbox W f_title book_title in
  let title_x := right_x0 + (right_x1 - right_x0 - t2) / 2 in
  let title_y := bleed_px + inches_to_px (35 # 100) in
  add_text_with_shadow base (title_x, title_y) book_title f_title
    (25, 25, 25) (255, 255, 255) (3, 3) 4.

(** A value of [spine_title] the test [if spine_title and ...] lets
    through: neither [None] nor the empty string. *)
Definition truthy (s : option str) : bool :=
  match s with
  | Some (_ :: _) => true
  | _ => false
  end.

(** Lines 359-375. *)
Definition draw_spine (base : nat) (path : str) (spine_title : option str)
  (pages : Z) (total : Size) (spine_px spine_x0 : Z) : M unit :=
  if truthy spine_title && (79 <=? pages) && (0 <? spine_px) then
    let text := match spine_title with Some t => t | None => [] end in
    let spine_font_size :=
      Z.max 24 (Z.min 80 (spine_px - inches_to_px (125 # 1000))) in
    let f_spine := (path, spine_font_size) in
    let txt_img := New RGBA (spine_px, h total) transparent in
    let text_w := textlength W f_spine text in
    let tx := (spine_px - Py.int text_w) / 2 in
    let ty := (h total - spine_font_size) / 2 in
    let txt_img := Text (tx, ty) text f_spine (30, 30, 30, 255) txt_img in
    let txt_img :=
      Rotate (90 # 1) (rotated_size W (90 # 1) (size_of txt_img)) txt_img in
    let sx := spine_x0 + (spine_px - width txt_img) / 2 in
    let sy := (h total - height txt_img) / 2 in
    mutate base (AlphaComposite txt_img (sx, sy))
  else ret tt.

(** Lines 377-398. *)
Definition draw_description (base : nat) (title_font_path : str)
  (description : str) (bleed_px left_x0 left_x1 : Z) : M unit :=
  let text_font_path :=
    match pick_first_existing_font W DEFAULT_TEXT_FONTS with
    | Some p => p
    | None => title_font_path
    end in
  let f_body := (text_font_path, 40) in
  let desc_max_w := Py.int (inject_Z (left_x1 - left_x0) * (8 # 10)) in
  let desc_x :=
    left_x0 + Py.int (inject_Z (left_x1 - left_x0 - desc_max_w) * (1 # 2)) in
  let desc_y := bleed_px + inches_to_px (75 # 100) in
  let wrapped := wrap_text description f_body desc_max_w in
  let padding := inches_to_px (2 # 10) in
  let '(t0, t1, t2, t3) := multiline_textbbox W f_body wrapped in
  let tw := t2 - t0 in
  let th := t3 - t1 in
  if (tw + 2 * padding <? 0) || (th + 2 * padding <? 0)
  then throw ValueError else
  let card := New RGBA (tw + 2 * padding, th + 2 * padding)
                  (255, 255, 255, 210) in
  mutate base (AlphaComposite card (desc_x - padding, desc_y - padding)) ;;;
  mutate base (Text (desc_x, desc_y) wrapped f_body (30, 30, 30, 255)).

(** Lines 400-410. *)
Definition reserve_barcode (base : nat) (total : Size)
  (bleed_px left_x0 left_x1 : Z) : M unit :=
  let barcode_w := inches_to_px BARCODE_W_IN in
  let barcode_h := inches_to_px BARCODE_H_IN in
  let barcode_x := left_x1 - barcode_w - inches_to_px (25 # 100) in
  let barcode_y :=
    h total - bleed_px - barcode_h - inches_to_px BARCODE_BOTTOM_OFFSET_IN in
  let barcode_x := Z.max (left_x0 + inches_to_px (25 # 100)) barcode_x in
  let barcode_y :=
    Z.min (h total - bleed_px - barcode_h - inches_to_px (1 # 10)) barcode_y in
  mutate base
    (Rect (barcode_x, barcode_y, barcode_x + barcode_w, barcode_y + barcode_h)
          rgba_white).

End Texts.

(** ** [build_cover] and [main] *)

(** Who writes the PDF: the [magick] command, or the imaging library. *)
Inductive writer : Type := Magick | Pillow.

(** What a build leaves behind: the flattened image saved as
    [fbnp_cover.png], the writer of [fbnp_cover.pdf], and, for reference,
    the interior files selected and the boxes and angles of the sheets. *)
Record cover : Type := {
  png : image;
  pdf : writer;
  interior : list str;
  all_boxes : list (box * Q)
}.

Section BuildCover.

Context {G : RandomGen}.
Variable W : World.

Definition build_cover (book_title description : str) (pages : Z)
  (pp : paper) (trim : Q * Q) (max_images : Z) (spine_title : option str)
  (bg : str) (seed_arg : option Z) : M cover :=
  match seed_arg with Some z => reseed z | None => ret tt end ;;;
  let '(total, trim_px, spine_px) :=
    compute_dimensions (fst trim) (snd trim) pages pp in
  base <-- background (int_max_str_digits W) total bg ;;;
  let bleed_px := inches_to_px BLEED_IN in
  let left_x0 := 0 + bleed_px in
  let left_x1 := left_x0 + w trim_px in
  let spine_x0 := left_x1 in
  let spine_x1 := spine_x0 + spine_px in
  let right_x0 := spine_x1 in
  let right_x1 := right_x0 + w trim_px in
  interior_files <--
    draw_random_r (load_interior_images (listing W) max_images) ;;;
  interior_imgs <-- lift (open_all W interior_files) ;;;
  front_boxes <-- random_boxes total bleed_px right_x0 right_x1 ;;;
  back_boxes <-- random_boxes total bleed_px left_x0 left_x1 ;;;
  placed <-- place_sheets W base 0 interior_imgs front_boxes back_boxes [] ;;;
  match pick_first_existing_font W DEFAULT_TITLE_FONTS with
  | None => throw FileNotFoundError
  | Some title_font_path =>
      draw_title W base title_font_path book_title bleed_px right_x0 right_x1 ;;;
      draw_spine W base title_font_path spine_title pages total spine_px
        spine_x0 ;;;
      draw_description W base title_font_path description bleed_px
        left_x0 left_x1 ;;;
      reserve_barcode base total bleed_px left_x0 left_x1 ;;;
      flat <-- convert base RGB ;;;
      out <-- load flat ;;;
      let wr :=
        if which_magick W && magick_succeeds W then Magick else Pillow in
      ret {| png := out; pdf := wr; interior := interior_files;
             all_boxes := placed |}
  end.

(** The two halves of [build_cover].  [layout] is lines 249-309: the
    seed, the canvas with its background, the interior files selected
    and opened, and the boxes of the front and of the back panel; its
    result is the canvas, the files, their images and the two lists of
    boxes.  [finish] is lines 311-430: the sheets, the texts, the barcode
    area and the files written. *)
Definition layout (pages : Z) (pp : paper) (trim : Q * Q) (max_images : Z)
  (bg : str) (seed_arg : option Z)
  : M (nat * list str * list image * list box * list box) :=
  match seed_arg with Some z => reseed z | None => ret tt end ;;;
  let '(total, trim_px, spine_px) :=
    compute_dimensions (fst trim) (snd trim) pages pp in
  base <-- background (int_max_str_digits W) total bg ;;;
  let bleed_px := inches_to_px BLEED_IN in
  let left_x0 := 0 + bleed_px in
  let left_x1 := left_x0 + w trim_px in
  let spine_x0 := left_x1 in
  let spine_x1 := spine_x0 + spine_px in
  let right_x0 := spine_x1 in
  let right_x1 := right_x0 + w trim_px in
  interior_files <--
    draw_random_r (load_interior_images (listing W) max_images) ;;;
  interior_imgs <-- lift (open_all W interior_files) ;;;
  front_boxes <-- random_boxes total bleed_px right_x0 right_x1 ;;;
  back_boxes <-- random_boxes total bleed_px left_x0 left_x1 ;;;
  ret (base, interior_files, interior_imgs, front_boxes, back_boxes).

Definition finish (book_title description : str) (pages : Z) (pp : paper)
  (trim : Q * Q) (spine_title : option str)
  (l : nat * list str * list image * list box * list box) : M cover :=
  let '(base, interior_files, interior_imgs, front_boxes, back_boxes) := l in
  let '(total, trim_px, spine_px) :=
    compute_dimensions (fst trim) (snd trim) pages pp in
  let bleed_px := inches_to_px BLEED_IN in
  let left_x0 := 0 + bleed_px in
  let left_x1 := left_x0 + w trim_px in
  let spine_x0 := left_x1 in
  let spine_x1 := spine_x0 + spine_px in
  let right_x0 := spine_x1 in
  let right_x1 := right_x0 + w trim_px in
  placed <-- place_sheets W base 0 interior_imgs front_boxes back_boxes [] ;;;
  match pick_first_existing_font W DEFAULT_TITLE_FONTS with
  | None => throw FileNotFoundError
  | Some title_font_path =>
      draw_title W base title_font_path book_title bleed_px right_x0 right_x1 ;;;
      draw_spine W base title_font_path spine_title pages total spine_px
        spine_x0 ;;;
      draw_description W base title_font_path description bleed_px
        left_x0 left_x1 ;;;
      reserve_barcode base total bleed_px left_x0 left_x1 ;;;
      flat <-- convert base RGB ;;;
      out <-- load flat ;;;
      let wr :=
        if which_magick W && magick_succeeds W then Magick else Pillow in
      ret {| png := out; pdf := wr; interior := interior_files;
             all_boxes := placed |}
  end.

(** [main]: the arguments after [argparse], [--max-images] clamped to
    2..5, the trim parsed, the cover built. *)
Definition main (book_title description : str) (pages : Z) (pp : paper)
  (trim_arg : str) (max_images : Z) (spine_title : option str) (bg : str)
  (seed_arg : option Z) : M cover :=
  let max_images := if max_images <? 2 then 2 else max_images in
  let max_images := if 5 <? max_images then 5 else max_images in
  trim <-- lift (parse_trim trim_arg) ;;;
  build_cover book_title description pages pp trim max_images spine_title
    bg seed_arg.

(** A process that has created no image yet. *)
Definition initial (g : gen) : state := mkState g [].

End BuildCover.

(** ** A sample environment *)

(** A title directory with ten interior pages, the system fonts, square
    1024-pixel images and a fixed-pitch text measure.  [putchannel] says
    whether the library is given the method the build calls. *)
Definition sample_world (putchannel : bool) : World := {|
  listing := ten_pages;
  path_exists := fun p =>
    str_eqb p (s_ "/usr/share/fonts/truetype/dejavu/DejaVuSans-Bold.ttf")
    || str_eqb p (s_ "/usr/share/fonts/truetype/dejavu/DejaVuSans.ttf");
  open_image := fun _ => Ok (1024, 1024);
  textbbox := fun font text =>
    (0, 0, snd font * Z.of_nat (List.length text) / 2, snd font);
  multiline_textbbox := fun font text =>
    (0, 0, snd font * 20, snd font * 4);
  textlength := fun font text =>
    inject_Z (snd font * Z.of_nat (List.length text) / 2);
  rotated_size := fun _ size => (fst size + snd size, fst size + snd size);
  has_putchannel := putchannel;
  int_max_str_digits := 4300;
  which_magick := false;
  magick_succeeds := false
|}.

(** A build of the default 8.5x11 cover on white paper with at most
    four sheets, in the sample environment, from a process whose
    generator is in state [g] and that has created no image yet. *)
Definition sample_run (putchannel : bool) (pages : Z)
  (spine_title : option str) (bg : str) (seed_arg : option Z) (g : Z)
  : result cover * state (G := Lcg.generator) :=
  build_cover (G := Lcg.generator) (sample_world putchannel)
    (s_ "Cute Dinosaurs") (s_ "Stomp into a world of friendly dinos!")
    pages white (85 # 10, 11 # 1) 4 spine_title bg seed_arg
    (initial (G := Lcg.generator) g).

(** ** The dimension arithmetic in IEEE-754 binary64 *)

(** The same computations on the floats of the interpreter
    ([SpecFloat], precision 53, round to nearest even), to evaluate
    concrete inputs without the idealisation of floats as rationals. *)
Module B64.

Definition prec : Z := 53.
Definition emax : Z := 1024.

(** [float(z)] *)
Definition of_Z (z : Z) : spec_float :=
  match z with
  | Z0 => S754_zero false
  | Zpos p => binary_normalize prec emax (Zpos p) 0 false
  | Zneg p => binary_normalize prec emax (Zneg p) 0 true
  end.

(** The float a decimal literal [n / d] (with [d] a power of ten) reads
    as: the correctly rounded quotient. *)
Definition literal (n d : Z) : spec_float :=
  SFdiv prec emax (of_Z n) (of_Z d).

Definition fmul : spec_float -> spec_float -> spec_float := SFmul prec emax.
Definition fadd : spec_float -> spec_float -> spec_float := SFadd prec emax.

(** The exact value of a finite float. *)
Definition to_Q (f : spec_float) : Q :=
  match f with
  | S754_finite s m e =>
      let n := if s then Z.neg m else Z.pos m in
      if 0 <=? e then inject_Z (n * 2 ^ e) else Qmake n (Z.to_pos (2 ^ (- e)))
  | _ => 0%Q
  end.

Definition BLEED_IN : spec_float := literal 125 1000.

Definition PAPER_THICKNESS (p : paper) : spec_float :=
  match p with
  | white => literal 2252 1000000
  | cream => literal 25 10000
  | color_premium => literal 2347 1000000
  | color_standard => literal 2252 1000000
  end.

Definition inches_to_px (inches : spec_float) : Z :=
  Py.round (to_Q (fmul inches (of_Z DPI))).

Definition compute_dimensions (trim_w_in trim_h_in : spec_float) (pages : Z)
  (p : paper) : Size * Size * Z :=
  let bleed_px := inches_to_px BLEED_IN in
  let trim_w_px := inches_to_px trim_w_in in
  let trim_h_px := inches_to_px trim_h_in in
  let spine_in := fmul (PAPER_THICKNESS p) (of_Z pages) in
  let spine_px := inches_to_px spine_in in
  let total_w_px :=
    inches_to_px (fadd (fadd (fmul BLEED_IN (of_Z 2)) (fmul trim_w_in (of_Z 2)))
                       spine_in) in
  let total_h_px := inches_to_px (fadd (fmul BLEED_IN (of_Z 2)) trim_h_in) in
  (mkSize total_w_px total_h_px, mkSize trim_w_px trim_h_px, spine_px).

(** The page counts 0, 1, ..., n - 1. *)
Definition page_counts (n : nat) : list Z := map Z.of_nat (seq 0 n).

Definition papers : list paper :=
  [white; cream; color_premium; color_standard].

Definition same_dimensions (a b : Size * Size * Z) : bool :=
  match a, b with
  | (t1, r1, s1), (t2, r2, s2) =>
      (w t1 =? w t2) && (h t1 =? h t2) && (w r1 =? w r2) && (h r1 =? h r2)
      && (s1 =? s2)
  end.

Definition spine_px (p : paper) (pages : Z) : Z :=
  inches_to_px (fmul (PAPER_THICKNESS p) (of_Z pages)).

(** Non-negative at 0 and never decreasing from one page count of the
    list to the next. *)
Fixpoint nondecreasing (prev : Z) (l : list Z) : bool :=
  match l with
  | [] => true
  | x :: t => (prev <=? x) && nondecreasing x t
  end.

Definition sum_of_parts (d : Size * Size * Z) : Z :=
  2 * inches_to_px BLEED_IN + 2 * w (snd (fst d)) + snd d.

End B64.

End Cover.

(** * interior_builder.py *)

Module Interior.

(** ** [parse_trim] *)


(** [r"^(\d+(?:\.\d+)?)x(\d+(?:\.\d+)?)$"] *)
Definition trim_re : Re.re :=
  cat_all [Re.Bol; number_re; Re.Chr "x"; number_re; Re.Eol].

Definition parse_trim (trim_str : str) : result (Q * Q) :=
  match Re.match_ trim_re trim_str with
  | Some [g1; g2] =>
      a <- float_ g1 ;; b <- float_ g2 ;; Ok (a, b)
  | _ => Raise ValueError
  end.


(** ** What the script reads from its environment *)

(** The file system and the imaging library as the interior build sees
    them: which paths exist, the entries of the title directory, the size
    of the image a file opens to (or the error opening it raises), and
    the bounding box the library computes for a text at a font size. *)
Record World : Type := {
  path_exists : str -> bool;
  listing : list str;
  open_image : str -> result (Z * Z);
  textbbox : Z -> str -> Z * Z * Z * Z
}.

Definition DPI_DEFAULT : Z := 300.

Definition DEFAULT_FONTS : list str :=
  [s_ "fonts/ComicNeue-Bold.ttf";
   s_ "/usr/share/fonts/truetype/dejavu/DejaVuSans-Bold.ttf"].

Fixpoint pick_first_existing_font (W : World) (candidates : list str)
  : result str :=
  match candidates with
  | [] => Raise FileNotFoundError
  | f :: rest =>
      if path_exists W f then Ok f else pick_first_existing_font W rest
  end.

Definition inches_to_px (inches : Q) (dpi : Z) : Z :=
  Py.round (inches * inject_Z dpi)%Q.

(** ** Pages *)

(** A page of the document: the blank page ([new_blank_page]) and what is
    drawn on it. *)
Inductive page : Type :=
| BelongsTo (size : Z * Z) (text_at : Z * Z) (line_y : Z)
| Copyright (size : Z * Z) (text_at : Z * Z)
| Coloring (size : Z * Z) (file : str) (scaled : Z * Z) (at_ : Z * Z).

(** [Image.new("RGB", size, white)]: the size of the page; a negative
    width or height is a [ValueError]. *)
Definition new_blank_page (trim_w_in trim_h_in : Q) (dpi : Z)
  : result (Z * Z) :=
  let w := inches_to_px trim_w_in dpi in
  let h := inches_to_px trim_h_in dpi in
  if (w <? 0) || (h <? 0) then Raise ValueError else Ok (w, h).

Definition belongs_text : str := s_ "This Book Belongs To:".

(** The two lines of the copyright page. *)
Definition copyright_text : str :=
  [ascii_of_N 169] ++ s_ " 2025 Fantasy Broadcast Network" ++ [newline]
  ++ s_ "All Rights Reserved".

Definition add_front_matter (W : World) (pages : list page)
  (trim_w_in trim_h_in : Q) (dpi : Z) : result (list page) :=
  font_path <- pick_first_existing_font W DEFAULT_FONTS ;;
  p1 <- new_blank_page trim_w_in trim_h_in dpi ;;
  let '(b0, b1, b2, b3) := textbbox W 100 belongs_text in
  let x := (fst p1 - (b2 - b0)) / 2 in
  let y := (snd p1 - (b3 - b1)) / 3 in
  let line_y := y + (b3 - b1) + 100 in
  let pages := pages ++ [BelongsTo p1 (x, y) line_y] in
  p2 <- new_blank_page trim_w_in trim_h_in dpi ;;
  let '(c0, c1, c2, c3) := textbbox W 60 copyright_text in
  let x2 := (fst p2 - (c2 - c0)) / 2 in
  let y2 := (snd p2 - (c3 - c1)) / 2 in
  Ok (pages ++ [Copyright p2 (x2, y2)]).

(** ** [add_coloring_pages] *)

(** [r"fbnp_(\d+)\.png"] *)
Definition name_re : Re.re :=
  cat_all [Re.Lit (s_ "fbnp_"); digits_re; Re.Lit (s_ ".png")].

(** The sort key [int(re.search(...).group(1))]; [None.group] is an
    [AttributeError]. *)
Definition sort_key (name : str) : result Z :=
  match Re.search name_re name with
  | Some (g :: _) => Ok (digits_val g)
  | _ => Raise AttributeError
  end.

(** [sorted] computes the key of every element before it compares. *)
Fixpoint keyed (names : list str) : result (list (Z * str)) :=
  match names with
  | [] => Ok []
  | p :: rest =>
      k <- sort_key p ;;
      ks <- keyed rest ;;
      Ok ((k, p) :: ks)
  end.

Definition sorted_files (W : World) : result (list str) :=
  ks <- keyed (glob (listing W)) ;;
  Ok (map snd (sort_by (key_leb fst) ks)).

(** The body of the loop over the files: one page, or the error the
    library raises (opening the file; resizing to an empty size; a page
    of negative size). *)
Definition coloring_page (W : World) (trim_w_in trim_h_in : Q) (dpi : Z)
  (max_w max_h : Z) (f : str) : result page :=
  sz <- open_image W f ;;
  let (iw, ih) := sz in
  if (iw =? 0) || (ih =? 0) then Raise ZeroDivisionError else
  let scale := Py.qmin (inject_Z max_w / inject_Z iw)
                       (inject_Z max_h / inject_Z ih) in
  let new_w := Py.int (inject_Z iw * scale) in
  let new_h := Py.int (inject_Z ih * scale) in
  if (new_w <=? 0) || (new_h <=? 0) then Raise ValueError
  else
    pg <- new_blank_page trim_w_in trim_h_in dpi ;;
    let px := (fst pg - new_w) / 2 in
    let py := (snd pg - new_h) / 2 in
    Ok (Coloring pg f (new_w, new_h) (px, py)).

Fixpoint coloring_loop (W : World) (trim_w_in trim_h_in : Q) (dpi : Z)
  (max_w max_h : Z) (files : list str) (pages : list page)
  : result (list page) :=
  match files with
  | [] => Ok pages
  | f :: rest =>
      pg <- coloring_page W trim_w_in trim_h_in dpi max_w max_h f ;;
      coloring_loop W trim_w_in trim_h_in dpi max_w max_h rest (pages ++ [pg])
  end.

Definition add_coloring_pages (W : World) (pages : list page)
  (trim_w_in trim_h_in : Q) (dpi : Z) (margin_in : Q) : result (list page) :=
  let margin_px := inches_to_px margin_in dpi in
  let page_w := inches_to_px trim_w_in dpi in
  let page_h := inches_to_px trim_h_in dpi in
  let max_w := page_w - 2 * margin_px in
  let max_h := page_h - 2 * margin_px in
  files <- sorted_files W ;;
  match files with
  | [] => Raise FileNotFoundError
  | _ :: _ =>
      coloring_loop W trim_w_in trim_h_in dpi max_w max_h files pages
  end.

(** ** [build_interior] and [main] *)

(** The document [first.save(..., save_all=True, append_images=rest)]
    writes: the pages in list order. *)
Definition build_interior (W : World) (trim : Q * Q) (dpi : Z)
  (margin_in : Q) (no_bleed : bool) : result (list page) :=
  let pages := [] in
  pages <- add_front_matter W pages (fst trim) (snd trim) dpi ;;
  pages <- add_coloring_pages W pages (fst trim) (snd trim) dpi margin_in ;;
  match pages with
  | first :: rest => Ok (first :: rest)
  | [] => Raise IndexError
  end.

Definition main (W : World) (trim_arg : str) (dpi : Z) (margin_in : Q)
  (no_bleed : bool) : result (list page) :=
  trim <- parse_trim trim_arg ;;
  build_interior W trim dpi margin_in no_bleed.

(** ** Reading a document *)

Definition is_belongs_to (p : page) : bool :=
  match p with BelongsTo _ _ _ => true | _ => false end.

Definition is_copyright (p : page) : bool :=
  match p with Copyright _ _ => true | _ => false end.

(** The file a coloring page shows. *)
Definition coloring_of (f : str) (p : page) : Prop :=
  match p with Coloring _ g _ _ => g = f | _ => False end.

(** A title directory with three interior pages (out of order), a font
    in the system location, and 1024x1024 images. *)
Definition sample_world : World := {|
  path_exists := fun p =>
    str_eqb p (s_ "/usr/share/fonts/truetype/dejavu/DejaVuSans-Bold.ttf");
  listing := [s_ "fbnp_10.png"; s_ "notes.txt"; s_ "fbnp_2.png"; s_ "fbnp_1.png"];
  open_image := fun _ => Ok (1024, 1024);
  textbbox := fun size text => (0, 0, size * Z.of_nat (List.length text) / 2, size)
|}.

End Interior.

(** * Notions used to state the properties *)

Definition blank : image := New RGBA (0, 0) rgba_white.

(** [st'] extends [st]: same generator, no object lost, and the object
    [keep] untouched. *)
Definition extends {G : RandomGen} (keep : nat) (st st' : Cover.state) : Prop :=
  Cover.rng st' = Cover.rng st
  /\ (List.length (Cover.heap st) <= List.length (Cover.heap st'))%nat
  /\ nth keep (Cover.heap st') blank = nth keep (Cover.heap st) blank.

(** A 6-hex-digit colour, with or without the leading [#]. *)
Definition is_hex_color (bg : str) : Prop :=
  exists hs, List.length hs = 6%nat /\ forallb is_hex hs = true
             /\ (bg = hs \/ bg = "#"%char :: hs).

Definition default_fill : color := (224, 242, 254, 255).

(** Spine text on an image: a text layer, rotated, composited onto it at
    some point of its history (lines 363-375 are the only place that
    composites a rotated text). *)
Fixpoint spine_text_on (im : image) : bool :=
  match im with
  | AlphaComposite (Rotate _ _ (Text _ _ _ _ _)) _ _ => true
  | New _ _ _ | Opened _ _ => false
  | Convert _ i | Autocontrast i | Band _ i | PutChannel _ _ i | Resize _ i
  | Rotate _ _ i | Blur _ i | PasteColor _ _ i | Paste _ i
  | PasteMasked _ _ i | Line _ _ i | Rect _ _ i | AlphaComposite _ _ i
  | Text _ _ _ _ i => spine_text_on i
  end.

Definition no_spine_text (im : image) : Prop := spine_text_on im = false.

(** The test of line 360. *)
Definition spine_condition (spine_title : option str) (pages spine_px : Z)
  : bool :=
  Cover.truthy spine_title && (79 <=? pages) && (0 <? spine_px).

Definition any {A : Type} : A -> Prop := fun _ => True.

(** A computation keeps the objects free of spine text, and its result
    satisfies [Q]. *)
Definition keeps_clean {G : RandomGen} {A : Type} (Q : A -> Prop)
  (m : Cover.M A) : Prop :=
  forall st,
    Forall no_spine_text (Cover.heap st) ->
    Forall no_spine_text (Cover.heap (snd (m st)))
    /\ forall a, fst (m st) = Ok a -> Q a.

(** An angle between -15 and 15 degrees. *)
Definition tilt_ok (angle : Q) : Prop :=
  (- (15 # 1) <= angle)%Q /\ (angle <= 15 # 1)%Q.

(** Two runs side by side.  The runs start with the image objects [h1]
    and [h2] already alive; [same_run] relates two states in which the
    generator is in the same state and the objects created since are the
    same, [same_id] relates the indices of one such object in the two
    heaps, and [alike R m m'] says that [m] and [m'] take related states
    to related states, raise the same exception or return results
    related by [R]. *)
Definition same_run {G : RandomGen} (h1 h2 : list image)
  (st st' : Cover.state) : Prop :=
  Cover.rng st = Cover.rng st'
  /\ exists made, Cover.heap st = h1 ++ made /\ Cover.heap st' = h2 ++ made.

Definition same_id (h1 h2 : list image) (i i' : nat) : Prop :=
  exists k, i = (List.length h1 + k)%nat /\ i' = (List.length h2 + k)%nat.

Definition same_result {A : Type} (R : A -> A -> Prop) (r r' : result A)
  : Prop :=
  match r, r' with
  | Ok a, Ok a' => R a a'
  | Raise e, Raise e' => e = e'
  | _, _ => False
  end.

Definition alike {G : RandomGen} {A : Type} (h1 h2 : list image)
  (R : A -> A -> Prop) (m m' : Cover.M A) : Prop :=
  forall st st',
    same_run h1 h2 st st' ->
    same_run h1 h2 (snd (m st)) (snd (m' st'))
    /\ same_result R (fst (m st)) (fst (m' st')).

(** A box of [random_boxes] for the grid cell in row [fst rc] and column
    [snd rc]: the cell's corner moved by at most a tenth of the cell each
    way, and eight tenths of the cell in size. *)
Definition jittered (panel_x0 bleed_px cell_w cell_h : Z) (rc : Z * Z)
  (b : box) : Prop :=
  let '(x0, y0, x1, y1) := b in
  (- cell_w) / 10 <= x0 - (panel_x0 + snd rc * cell_w) <= cell_w / 10
  /\ (- cell_h) / 10 <= y0 - (bleed_px + fst rc * cell_h) <= cell_h / 10
  /\ x1 - x0 = Py.int (inject_Z cell_w * (8 # 10))
  /\ y1 - y0 = Py.int (inject_Z cell_h * (8 # 10)).

Definition grid_cells : list (Z * Z) :=
  [(0, 0); (0, 1); (0, 2); (1, 0); (1, 1); (1, 2)].

(** A coloring page whose image lies inside the margins of a page of the
    given size, centred up to the odd pixel. *)
Definition inside_margins (page_w page_h margin_px : Z) (p : Interior.page)
  : Prop :=
  match p with
  | Interior.Coloring (pw, ph) _ (nw, nh) (px, py) =>
      pw = page_w /\ ph = page_h
      /\ 1 <= nw /\ 1 <= nh
      /\ margin_px <= px /\ px + nw <= page_w - margin_px
      /\ margin_px <= py /\ py + nh <= page_h - margin_px
      /\ 0 <= page_w - nw - 2 * px <= 1
      /\ 0 <= page_h - nh - 2 * py <= 1
  | _ => True
  end.

(** Images have no negative side. *)
Definition sizes_nonneg (W : Interior.World) : Prop :=
  forall f sz, Interior.open_image W f = Ok sz -> 0 <= fst sz /\ 0 <= snd sz.

(** The object [id] is alive and shows spine text. *)
Definition spine_marked {G : RandomGen} (id : nat) (st : Cover.state) : Prop :=
  (id < List.length (Cover.heap st))%nat
  /\ spine_text_on (nth id (Cover.heap st) blank) = true.

(** The width of a bounding box. *)
Definition bbox_width (b : box) : Z := let '(b0, _, b2, _) := b in b2 - b0.

(** A word: non-empty and free of white space. *)
Definition is_word (w : str) : Prop :=
  w <> [] /\ forallb (fun c => negb (is_space c)) w = true.

(** A line of wrapped text: it holds a word, and it fits the width
    unless it is a single word. *)
Definition line_ok (W : Cover.World) (font : str * Z) (max_width : Z)
  (l : str) : Prop :=
  Cover.split_ws [] l <> []
  /\ (bbox_width (Cover.textbbox W font l) <= max_width
      \/ Cover.split_ws [] l = [l]).

(** What the loop of [wrap_text] keeps true of the line being filled:
    it is empty, a single word, or fits. *)
Definition line_state (W : Cover.World) (font : str * Z) (max_width : Z)
  (line : list str) : Prop :=
  line = []
  \/ (exists w, line = [w])
  \/ bbox_width (Cover.textbbox W font (Cover.join Cover.space line))
     <= max_width.

(** The title fits the width at a font size, by the library's measure. *)
Definition title_fits (W : Cover.World) (path title : str) (max_w size : Z)
  : Prop :=
  bbox_width (Cover.textbbox W (path, size) title) <= max_w.

(** Two names in ascending order of the number written in them: where
    both are of the form [fbnp_<N>.png], the number of the first is at
    most the number of the second. *)
Definition page_order (a b : str) : Prop :=
  forall da db,
    forallb is_digit da = true -> da <> [] ->
    forallb is_digit db = true -> db <> [] ->
    a = page_name da -> b = page_name db ->
    digits_val da <= digits_val db.

(** The pseudo-random choices of a layout: the files selected and the
    boxes of the two panels with their jitter, in the order drawn. *)
Definition choices_of
  (l : nat * list str * list image * list box * list box)
  : list str * list box * list box :=
  let '(_, files, _, front, back) := l in (files, front, back).

(** The rounding of binary64 as far as the dimensions need it: on a
    non-negative real within the range of the format the float differs
    from it by at most one part in [2^53], or by [2^-1075] near zero; it
    is not negative; and 37.5, the bleed in pixels, is a float. *)
Definition fl_eps : Q := Eval cbv in 1 # (2 ^ 53).
Definition fl_eta : Q := Eval cbv in 1 # (2 ^ 1075).
Definition fl_max : Q := Eval cbv in inject_Z (2 ^ 1023).

Definition rounds_like_binary64 (fl : Q -> Q) : Prop :=
  (forall x, 0 <= x <= fl_max ->
     0 <= fl x
     /\ x - (fl_eps * x + fl_eta) <= fl x <= x + (fl_eps * x + fl_eta))%Q
  /\ (fl (Cover.BLEED_IN * inject_Z Cover.DPI) == 75 # 2)%Q.

(** Two layouts side by side: the same files, images and boxes, on
    canvases that are the same object of the two runs. *)
Definition same_layout (h1 h2 : list image)
  (l l' : nat * list str * list image * list box * list box) : Prop :=
  let '(b, files, imgs, front, back) := l in
  let '(b', files', imgs', front', back') := l' in
  same_id h1 h2 b b' /\ files = files' /\ imgs = imgs'
  /\ front = front' /\ back = back'.

Example spine_30_white :
  Cover.spine_px_of (Cover.compute_dimensions (85 # 10) (11 # 1) 30 Cover.white) = 20.
Proof. vm_compute. reflexivity. Qed.

Example total_30_white :
 Cover.w (Cover.total_of (Cover.compute_dimensions (85 # 10) (11 # 1) 30 Cover.white)) = 5195.
Proof. vm_compute. reflexivity. Qed.

Example bleed_px_38 : Cover.inches_to_px Cover.BLEED_IN = 38.
Proof. vm_compute. reflexivity. Qed.

(** ** The matcher finds exactly the matches of the pattern *)

Section MatcherSpec.

Context {R : Type}.

Lemma star_loop_sound (r : Re.re) (k : @Re.cont R)
  (IH : forall n s c (k' : @Re.cont R) x,
      Re.m r n s c k' = Some x ->
      exists n' s' c', matches r n s c n' s' c' /\ k' n' s' c' = Some x) :
  forall fuel n s c x,
    Re.star_loop (Re.m r) k fuel n s c = Some x ->
    exists n' s' c', matches (Re.Star r) n s c n' s' c' /\ k n' s' c' = Some x.
Proof.
  induction fuel as [|fuel IHf]; intros n s c x H.
  - exists n, s, c. split; [constructor | exact H].
  - simpl in H.
    match type of H with
    | match ?e with _ => _ end = _ => destruct e as [y|] eqn:E
    end.
    + inversion H; subst y; clear H.
      apply IH in E. destruct E as (n1 & s1 & c1 & Hm & Hk).
      destruct (List.length s1 <? List.length s)%nat eqn:L; [|discriminate].
      apply Nat.ltb_lt in L.
      apply IHf in Hk. destruct Hk as (n2 & s2 & c2 & Hs & Hk).
      exists n2, s2, c2. split; [|exact Hk].
      eapply M_StarS; eauto.
    + exists n, s, c. split; [constructor | exact H].
Qed.

Lemma m_sound (r : Re.re) :
  forall n s c (k : @Re.cont R) x,
    Re.m r n s c k = Some x ->
    exists n' s' c', matches r n s c n' s' c' /\ k n' s' c' = Some x.
Proof.
  induction r as [|p|r1 IH1 r2 IH2|r1 IH1 r2 IH2|r IH|r IH| |];
    intros n s c k x H; simpl in H.
  - exists n, s, c. split; [constructor | exact H].
  - destruct s as [|ch s]; [discriminate|].
    destruct (p ch) eqn:P; [|discriminate].
    exists (S n), s, c. split; [constructor; exact P | exact H].
  - apply IH1 in H. destruct H as (n1 & s1 & c1 & M1 & H).
    apply IH2 in H. destruct H as (n2 & s2 & c2 & M2 & H).
    exists n2, s2, c2. split; [econstructor; eauto | exact H].
  - destruct (Re.m r1 n s c k) as [y|] eqn:E.
    + inversion H; subst y. apply IH1 in E.
      destruct E as (n1 & s1 & c1 & M1 & Hk).
      exists n1, s1, c1. split; [apply M_AltL; exact M1 | exact Hk].
    + apply IH2 in H. destruct H as (n1 & s1 & c1 & M1 & Hk).
      exists n1, s1, c1. split; [apply M_AltR; exact M1 | exact Hk].
  - eapply star_loop_sound; eauto.
  - apply IH in H. destruct H as (n1 & s1 & c1 & M1 & Hk).
    exists n1, s1, (firstn (n1 - n) s :: c1).
    split; [constructor; exact M1 | exact Hk].
  - destruct (Nat.eqb n 0) eqn:E; [|discriminate].
    apply Nat.eqb_eq in E. subst n.
    exists 0%nat, s, c. split; [constructor | exact H].
  - destruct (Re.at_eol s) eqn:E; [|discriminate].
    exists n, s, c. split; [constructor; exact E | exact H].
Qed.

Lemma m_complete_gen r n s c n' s' c' :
  matches r n s c n' s' c' ->
  forall (k : @Re.cont R) x,
    k n' s' c' = Some x ->
    (exists y, Re.m r n s c k = Some y)
    /\ (forall r0 fuel, r = Re.Star r0 -> (List.length s <= fuel)%nat ->
        exists y, Re.star_loop (Re.m r0) k fuel n s c = Some y).
Proof.
  induction 1 as
    [n s c|p ch n s c P|r1 r2 n s c n1 s1 c1 n2 s2 c2 _ IH1 _ IH2
    |r1 r2 n s c n1 s1 c1 _ IH|r1 r2 n s c n1 s1 c1 _ IH
    |r n s c|r n s c n1 s1 c1 n2 s2 c2 _ IH1 L _ IH2
    |r n s c n1 s1 c1 _ IH|s c|n s c E];
    intros k x Hk.
  - split; [exists x; exact Hk | discriminate].
  - split; [|discriminate]. exists x. simpl. rewrite P. exact Hk.
  - split; [|discriminate].
    simpl. destruct (IH2 k x Hk) as [[y Hy] _].
    destruct (IH1 (fun n' s' caps' => Re.m r2 n' s' caps' k) y Hy) as [H _].
    exact H.
  - split; [|discriminate].
    simpl. destruct (IH k x Hk) as [[y Hy] _]. rewrite Hy. eauto.
  - split; [|discriminate].
    simpl. destruct (Re.m r1 n s c k) as [z|]; [eauto|].
    destruct (IH k x Hk) as [H _]. exact H.
  - assert (G : forall fuel,
               exists y, Re.star_loop (Re.m r) k fuel n s c = Some y).
    { intros [|f]; simpl; [eauto|].
      match goal with |- exists y, match ?e with _ => _ end = _ =>
        destruct e as [z|] end; eauto. }
    split; [apply G|].
    intros r0 fuel Hr _. inversion Hr; subst r0. apply G.
  - assert (G : forall fuel, (List.length s <= fuel)%nat ->
               exists y, Re.star_loop (Re.m r) k fuel n s c = Some y).
    { intros fuel Hf.
      destruct (IH2 k x Hk) as [_ H2].
      destruct fuel as [|f]; [lia|].
      destruct (H2 r f eq_refl ltac:(lia)) as [y Hy].
      simpl.
      destruct (IH1 (fun n' s' caps' =>
                       if (List.length s' <? List.length s)%nat
                       then Re.star_loop (Re.m r) k f n' s' caps' else None) y)
        as [[z Hz] _].
      { replace (List.length s1 <? List.length s)%nat with true
          by (symmetry; apply Nat.ltb_lt; lia). exact Hy. }
      rewrite Hz. eauto. }
    split; [apply G; lia|].
    intros r0 fuel Hr Hf. inversion Hr; subst r0. apply G; exact Hf.
  - split; [|discriminate].
    simpl. destruct (IH (fun n' s' caps' => k n' s' (firstn (n' - n) s :: caps')) x Hk)
      as [H _]. exact H.
  - split; [exists x; exact Hk | discriminate].
  - split; [|discriminate]. exists x. simpl. rewrite E. exact Hk.
Qed.

Lemma m_complete r n s c n' s' c' (k : @Re.cont R) x :
  matches r n s c n' s' c' ->
  k n' s' c' = Some x ->
  exists y, Re.m r n s c k = Some y.
Proof.
  intros M Hk. destruct (m_complete_gen _ _ _ _ _ _ _ M k x Hk) as [H _].
  exact H.
Qed.

End MatcherSpec.

(** ** Runs of characters of one class *)

Lemma span_spec p s :
  s = fst (span p s) ++ snd (span p s)
  /\ forallb p (fst (span p s)) = true
  /\ starts_not p (snd (span p s)).
Proof.
  induction s as [|c s IH]; simpl; [auto|].
  destruct (p c) eqn:P.
  - destruct (span p s) as [a b]. simpl in *.
    destruct IH as (E & F & N). rewrite P, F. repeat split; auto.
    f_equal. exact E.
  - simpl. rewrite P. auto.
Qed.

Lemma span_app p a r :
  forallb p a = true -> starts_not p r -> span p (a ++ r) = (a, r).
Proof.
  induction a as [|c a IH]; simpl; intros F N.
  - destruct r as [|d r]; simpl in *; [reflexivity|]. rewrite N. reflexivity.
  - apply andb_true_iff in F. destruct F as [Pc F]. rewrite Pc.
    rewrite (IH F N). reflexivity.
Qed.

(** A run of [p]-characters followed by something that does not start
    with one splits in one way only. *)
Lemma run_unique p a a' r r' :
  forallb p a = true -> forallb p a' = true ->
  starts_not p r -> starts_not p r' ->
  a ++ r = a' ++ r' -> a = a' /\ r = r'.
Proof.
  intros Fa Fa' N N' E.
  pose proof (span_app p a r Fa N) as S1.
  pose proof (span_app p a' r' Fa' N') as S2.
  rewrite E in S1. rewrite S1 in S2. inversion S2. auto.
Qed.

Lemma matches_cls_inv p n s c n' s' c' :
  matches (Re.Cls p) n s c n' s' c' ->
  exists ch, s = ch :: s' /\ p ch = true /\ n' = S n /\ c' = c.
Proof. intros H. inversion H; subst. eauto. Qed.

Lemma matches_star_cls_inv p n s c n' s' c' :
  matches (Re.Star (Re.Cls p)) n s c n' s' c' ->
  exists pre, s = pre ++ s' /\ forallb p pre = true
              /\ n' = (n + List.length pre)%nat /\ c' = c.
Proof.
  remember (Re.Star (Re.Cls p)) as r eqn:Er.
  induction 1; try discriminate.
  - exists []. simpl. rewrite Nat.add_0_r. auto.
  - inversion Er; subst r. clear IHmatches1.
    apply matches_cls_inv in H. destruct H as (ch & -> & P & -> & ->).
    destruct (IHmatches2 eq_refl) as (pre & -> & F & -> & ->).
    exists (ch :: pre). simpl. rewrite P, F.
    split; [reflexivity|]. split; [reflexivity|]. split; [lia | reflexivity].
Qed.

Lemma matches_star_cls_intro p pre n s' c :
  forallb p pre = true ->
  matches (Re.Star (Re.Cls p)) n (pre ++ s') c (n + List.length pre)%nat s' c.
Proof.
  revert n. induction pre as [|ch pre IH]; simpl; intros n F.
  - rewrite Nat.add_0_r. constructor.
  - apply andb_true_iff in F. destruct F as [P F].
    eapply M_StarS.
    + constructor. exact P.
    + simpl. lia.
    + replace (n + S (List.length pre))%nat with (S n + List.length pre)%nat by lia.
      apply IH. exact F.
Qed.

Lemma matches_plus_cls_inv p n s c n' s' c' :
  matches (Re.Plus (Re.Cls p)) n s c n' s' c' ->
  exists pre, s = pre ++ s' /\ forallb p pre = true /\ pre <> []
              /\ n' = (n + List.length pre)%nat /\ c' = c.
Proof.
  intros H. inversion H; subst.
  match goal with H1 : matches (Re.Cls p) _ _ _ _ _ _ |- _ =>
    apply matches_cls_inv in H1; destruct H1 as (ch & -> & P & -> & ->) end.
  match goal with H1 : matches (Re.Star _) _ _ _ _ _ _ |- _ =>
    apply matches_star_cls_inv in H1; destruct H1 as (pre & -> & F & -> & ->) end.
  exists (ch :: pre). simpl. rewrite P, F.
  split; [reflexivity|]. split; [reflexivity|]. split; [discriminate|].
  split; [lia | reflexivity].
Qed.

Lemma matches_plus_cls_intro p pre n s' c :
  forallb p pre = true -> pre <> [] ->
  matches (Re.Plus (Re.Cls p)) n (pre ++ s') c (n + List.length pre)%nat s' c.
Proof.
  intros F NE. destruct pre as [|ch pre]; [congruence|].
  simpl in F. apply andb_true_iff in F. destruct F as [P F].
  unfold Re.Plus. eapply M_Cat.
  - simpl. constructor. exact P.
  - replace (n + List.length (ch :: pre))%nat with (S n + List.length pre)%nat
      by (simpl; lia).
    apply matches_star_cls_intro. exact F.
Qed.

(** ** Plain decimal numerals and the numeral group of the trim pattern *)

Lemma firstn_consumed (g s : str) n :
  firstn (n + List.length g - n) (g ++ s) = g.
Proof.
  replace (n + List.length g - n)%nat with (List.length g) by lia.
  rewrite firstn_app, Nat.sub_diag, firstn_all. simpl. apply app_nil_r.
Qed.

Lemma is_char_eq a c : is_char a c = true -> c = a.
Proof. unfold is_char. intros H. apply Ascii.eqb_eq in H. auto. Qed.

Lemma dot_not_digit : is_digit dot = false.
Proof. reflexivity. Qed.

Lemma is_numeral_int ds :
  forallb is_digit ds = true -> ds <> [] -> is_numeral ds = true.
Proof.
  intros F NE. unfold is_numeral.
  rewrite <- (app_nil_r ds) at 1. rewrite (span_app is_digit ds [] F I).
  destruct ds; [congruence | reflexivity].
Qed.

Lemma is_numeral_frac ds fs :
  forallb is_digit ds = true -> ds <> [] ->
  forallb is_digit fs = true -> fs <> [] ->
  is_numeral (ds ++ dot :: fs) = true.
Proof.
  intros F NE F' NE'. unfold is_numeral.
  rewrite (span_app is_digit ds (dot :: fs) F dot_not_digit).
  destruct ds; [congruence|]. destruct fs; [congruence|].
  simpl in *. rewrite F'. reflexivity.
Qed.

Lemma is_numeral_inv g :
  is_numeral g = true ->
  exists ds, forallb is_digit ds = true /\ ds <> [] /\
    (g = ds \/ exists fs, forallb is_digit fs = true /\ fs <> []
                          /\ g = ds ++ dot :: fs).
Proof.
  unfold is_numeral. intros H.
  destruct (span_spec is_digit g) as (E & F & N).
  destruct (span is_digit g) as [i r]. cbn [fst snd] in *.
  apply andb_true_iff in H. destruct H as [NEi H].
  exists i. split; [exact F|]. split; [destruct i; [discriminate|congruence]|].
  destruct r as [|ch f].
  - left. rewrite E. apply app_nil_r.
  - right. apply andb_true_iff in H. destruct H as [H Ff].
    apply andb_true_iff in H. destruct H as [D NEf].
    apply is_char_eq in D. subst ch.
    exists f. split; [exact Ff|]. split; [destruct f; [discriminate|congruence]|].
    exact E.
Qed.

Lemma matches_number_inv n s c n' s' c' :
  matches number_re n s c n' s' c' ->
  exists g, s = g ++ s' /\ is_numeral g = true
            /\ n' = (n + List.length g)%nat /\ c' = g :: c.
Proof.
  intros H. unfold number_re in H. inversion H; subst; clear H.
  match goal with H : matches (Re.Cat _ _) _ _ _ _ _ _ |- _ =>
    inversion H; subst; clear H end.
  match goal with H : matches (Re.Plus _) _ _ _ _ _ _ |- _ =>
    apply matches_plus_cls_inv in H;
    destruct H as (ds & -> & F & NE & -> & ->) end.
  match goal with H : matches (Re.Opt _) _ _ _ _ _ _ |- _ =>
    inversion H; subst; clear H end.
  - match goal with H : matches (Re.Cat _ _) _ _ _ _ _ _ |- _ =>
      inversion H; subst; clear H end.
    match goal with H : matches (Re.Chr _) _ _ _ _ _ _ |- _ =>
      apply matches_cls_inv in H;
      destruct H as (ch & E & D & -> & ->) end.
    match goal with H : matches (Re.Plus _) _ _ _ _ _ _ |- _ =>
      apply matches_plus_cls_inv in H;
      destruct H as (fs & -> & F' & NE' & -> & ->) end.
    apply is_char_eq in D. subst ch.
    exists (ds ++ dot :: fs).
    assert (L : List.length (ds ++ dot :: fs)
                = (List.length ds + S (List.length fs))%nat)
      by (rewrite length_app; reflexivity).
    split; [rewrite E, <- app_assoc; reflexivity|].
    split; [apply is_numeral_frac; assumption|].
    split; [lia|].
    f_equal. rewrite E.
    replace (S (n + List.length ds) + List.length fs)%nat
      with (n + List.length (ds ++ dot :: fs))%nat by lia.
    change (ds ++ "."%char :: fs ++ s') with (ds ++ (dot :: fs) ++ s').
    rewrite app_assoc. apply firstn_consumed.
  - match goal with H : matches Re.Eps _ _ _ _ _ _ |- _ =>
      inversion H; subst; clear H end.
    exists ds. split; [reflexivity|].
    split; [apply is_numeral_int; assumption|].
    split; [reflexivity|].
    f_equal. apply firstn_consumed.
Qed.

Lemma matches_number_intro g n s' c :
  is_numeral g = true ->
  matches number_re n (g ++ s') c (n + List.length g)%nat s' (g :: c).
Proof.
  intros H. apply is_numeral_inv in H.
  destruct H as (ds & F & NE & [->|(fs & F' & NE' & ->)]).
  - assert (E : firstn (n + List.length ds - n) (ds ++ s') = ds)
      by apply firstn_consumed.
    rewrite <- E at 3. unfold number_re. constructor.
    eapply M_Cat; [apply matches_plus_cls_intro; assumption|].
    apply M_AltR. constructor.
  - assert (L : List.length (ds ++ dot :: fs)
                = (List.length ds + S (List.length fs))%nat)
      by (rewrite length_app; reflexivity).
    assert (E : firstn (n + List.length (ds ++ dot :: fs) - n)
                  ((ds ++ dot :: fs) ++ s') = ds ++ dot :: fs)
      by apply firstn_consumed.
    rewrite <- E at 3. unfold number_re. constructor.
    rewrite <- app_assoc.
    eapply M_Cat; [apply matches_plus_cls_intro; assumption|].
    apply M_AltL. simpl.
    eapply M_Cat; [constructor; reflexivity|].
    replace (n + List.length (ds ++ dot :: fs))%nat
      with (S (n + List.length ds) + List.length fs)%nat by lia.
    apply matches_plus_cls_intro; assumption.
Qed.

(** ** Character classes are disjoint where the patterns need it *)

Ltac by_cases_on_char c :=
  destruct c as [[] [] [] [] [] [] [] []]; try reflexivity; try discriminate.

Lemma digit_numeral_char c : is_digit c = true -> numeral_char c = true.
Proof. unfold numeral_char. intros ->. reflexivity. Qed.

Lemma digit_not_space c : is_digit c = true -> is_space c = false.
Proof. by_cases_on_char c. Qed.

Lemma space_not_numeral c : is_space c = true -> numeral_char c = false.
Proof. by_cases_on_char c. Qed.

Lemma x_not_numeral : numeral_char "x" = false.
Proof. reflexivity. Qed.

Lemma x_not_space : is_space "x" = false.
Proof. reflexivity. Qed.

Lemma newline_not_numeral : numeral_char newline = false.
Proof. reflexivity. Qed.

Lemma forallb_impl (p q : ascii -> bool) (s : str) :
  (forall c, p c = true -> q c = true) ->
  forallb p s = true -> forallb q s = true.
Proof.
  intros I. induction s as [|c s IH]; simpl; [auto|].
  intros H. apply andb_true_iff in H. destruct H as [P H].
  rewrite (I c P), (IH H). reflexivity.
Qed.

Lemma numeral_chars g :
  is_numeral g = true -> forallb numeral_char g = true.
Proof.
  intros H. apply is_numeral_inv in H.
  destruct H as (ds & F & NE & [->|(fs & F' & NE' & ->)]).
  - eapply forallb_impl; [apply digit_numeral_char | exact F].
  - rewrite forallb_app. simpl.
    rewrite (forallb_impl _ _ _ digit_numeral_char F).
    rewrite (forallb_impl _ _ _ digit_numeral_char F'). reflexivity.
Qed.

Lemma numeral_starts_digit g r :
  is_numeral g = true -> exists d t, g ++ r = d :: t /\ is_digit d = true.
Proof.
  intros H. apply is_numeral_inv in H.
  destruct H as (ds & F & NE & G).
  destruct ds as [|d ds]; [congruence|].
  simpl in F. apply andb_true_iff in F. destruct F as [D _].
  destruct G as [->|(fs & _ & _ & ->)]; simpl; eauto.
Qed.

Lemma numeral_not_space_start g r :
  is_numeral g = true -> starts_not is_space (g ++ r).
Proof.
  intros H. destruct (numeral_starts_digit g r H) as (d & t & -> & D).
  simpl. apply digit_not_space. exact D.
Qed.

Lemma at_eol_inv t : Re.at_eol t = true -> t = [] \/ t = [newline].
Proof.
  destruct t as [|c [|d t]]; simpl; intros H; try discriminate; auto.
  right. apply Ascii.eqb_eq in H. subst c. reflexivity.
Qed.

Lemma at_eol_not_numeral t : Re.at_eol t = true -> starts_not numeral_char t.
Proof.
  intros H. apply at_eol_inv in H. destruct H as [->| ->]; simpl; auto.
Qed.

(** ** interior_builder.py: what [parse_trim] accepts *)

Lemma interior_trim_matches_inv n s c n' s' c' :
  matches Interior.trim_re n s c n' s' c' ->
  exists n1 n2, is_numeral n1 = true /\ is_numeral n2 = true
    /\ s = n1 ++ "x"%char :: n2 ++ s' /\ Re.at_eol s' = true
    /\ c' = n2 :: n1 :: c.
Proof.
  unfold Interior.trim_re, cat_all. intros H.
  repeat match goal with
         | H : matches (Re.Cat _ _) _ _ _ _ _ _ |- _ =>
             inversion H; subst; clear H
         end.
  repeat match goal with
         | H : matches number_re _ _ _ _ _ _ |- _ =>
             apply matches_number_inv in H;
             destruct H as (? & ? & ? & ? & ?)
         | H : matches (Re.Chr _) _ _ _ _ _ _ |- _ =>
             apply matches_cls_inv in H;
             destruct H as (? & ? & ? & ? & ?)
         | H : matches Re.Bol _ _ _ _ _ _ |- _ => inversion H; subst; clear H
         | H : matches Re.Eol _ _ _ _ _ _ |- _ => inversion H; subst; clear H
         | H : is_char _ _ = true |- _ => apply is_char_eq in H
         end.
  subst. eauto 10.
Qed.

Lemma interior_trim_matches_intro n1 n2 t :
  is_numeral n1 = true -> is_numeral n2 = true -> Re.at_eol t = true ->
  exists n', matches Interior.trim_re 0 (n1 ++ "x"%char :: n2 ++ t) []
               n' t [n2; n1].
Proof.
  intros H1 H2 E. eexists. unfold Interior.trim_re, cat_all.
  eapply M_Cat; [constructor|].
  eapply M_Cat; [apply matches_number_intro; exact H1|].
  eapply M_Cat; [constructor; reflexivity|].
  eapply M_Cat; [apply matches_number_intro; exact H2|].
  constructor. exact E.
Qed.

(** Two readings of a string as numeral, [x], numeral, end agree. *)
Lemma trim_split_unique n1 n2 t n1' n2' t' :
  is_numeral n1 = true -> is_numeral n2 = true -> Re.at_eol t = true ->
  is_numeral n1' = true -> is_numeral n2' = true -> Re.at_eol t' = true ->
  n1 ++ "x"%char :: n2 ++ t = n1' ++ "x"%char :: n2' ++ t' ->
  n1 = n1' /\ n2 = n2' /\ t = t'.
Proof.
  intros H1 H2 E H1' H2' E' Eq.
  destruct (run_unique numeral_char n1 n1'
              ("x"%char :: n2 ++ t) ("x"%char :: n2' ++ t')
              (numeral_chars _ H1) (numeral_chars _ H1')
              x_not_numeral x_not_numeral Eq) as [-> Eq2].
  inversion Eq2 as [Eq3].
  destruct (run_unique numeral_char n2 n2' _ _
              (numeral_chars _ H2) (numeral_chars _ H2')
              (at_eol_not_numeral _ E) (at_eol_not_numeral _ E') Eq3)
    as [-> ->].
  auto.
Qed.

Lemma interior_match_sound s gs :
  Re.match_ Interior.trim_re s = Some gs ->
  exists n1 n2 t, is_numeral n1 = true /\ is_numeral n2 = true
    /\ Re.at_eol t = true /\ s = n1 ++ "x"%char :: n2 ++ t /\ gs = [n1; n2].
Proof.
  unfold Re.match_. intros H. apply m_sound in H.
  destruct H as (n' & s' & c' & M & K).
  apply interior_trim_matches_inv in M.
  destruct M as (n1 & n2 & H1 & H2 & -> & E & ->).
  inversion K. exists n1, n2, s'. auto 10.
Qed.

Lemma interior_match_complete n1 n2 t :
  is_numeral n1 = true -> is_numeral n2 = true -> Re.at_eol t = true ->
  Re.match_ Interior.trim_re (n1 ++ "x"%char :: n2 ++ t) = Some [n1; n2].
Proof.
  intros H1 H2 E.
  destruct (interior_trim_matches_intro n1 n2 t H1 H2 E) as [n' M].
  destruct (m_complete _ _ _ _ _ _ _
              (fun _ _ caps => Some (rev caps)) _ M eq_refl) as [y Hy].
  fold (Re.match_ Interior.trim_re (n1 ++ "x"%char :: n2 ++ t)) in Hy.
  rewrite Hy. f_equal.
  apply interior_match_sound in Hy.
  destruct Hy as (m1 & m2 & t' & G1 & G2 & E' & Eq & ->).
  destruct (trim_split_unique _ _ _ _ _ _ H1 H2 E G1 G2 E' Eq) as (-> & -> & _).
  reflexivity.
Qed.

Lemma float_numeral g : is_numeral g = true -> float_ g = Ok (numeral_val g).
Proof. unfold float_. intros ->. reflexivity. Qed.

Lemma interior_parse_trim_accepts n1 n2 t :
  is_numeral n1 = true -> is_numeral n2 = true -> Re.at_eol t = true ->
  Interior.parse_trim (n1 ++ "x"%char :: n2 ++ t)
  = Ok (numeral_val n1, numeral_val n2).
Proof.
  intros H1 H2 E. unfold Interior.parse_trim.
  rewrite (interior_match_complete n1 n2 t H1 H2 E).
  rewrite (float_numeral _ H1), (float_numeral _ H2). reflexivity.
Qed.

Lemma interior_parse_trim_inv s :
  (exists n1 n2 t, is_numeral n1 = true /\ is_numeral n2 = true
     /\ Re.at_eol t = true /\ s = n1 ++ "x"%char :: n2 ++ t
     /\ Interior.parse_trim s = Ok (numeral_val n1, numeral_val n2))
  \/ Interior.parse_trim s = Raise ValueError.
Proof.
  unfold Interior.parse_trim.
  destruct (Re.match_ Interior.trim_re s) as [gs|] eqn:E; [|auto].
  left. apply interior_match_sound in E.
  destruct E as (n1 & n2 & t & H1 & H2 & E & -> & ->).
  exists n1, n2, t.
  rewrite (float_numeral _ H1), (float_numeral _ H2). auto 10.
Qed.

(** ** cover_builder.py: what [parse_trim] accepts *)

(** The strings the cover pattern accepts: the two numerals and the [x],
    each optionally surrounded by white space. *)
Lemma cover_trim_matches_inv n s c n' s' c' :
  matches Cover.trim_re n s c n' s' c' ->
  exists w0 n1 w1 w2 n2 w3,
    s = w0 ++ n1 ++ w1 ++ "x"%char :: w2 ++ n2 ++ w3 ++ s'
    /\ c' = n2 :: n1 :: c
    /\ forallb is_space w0 = true /\ forallb is_space w1 = true
    /\ forallb is_space w2 = true /\ forallb is_space w3 = true
    /\ is_numeral n1 = true /\ is_numeral n2 = true
    /\ Re.at_eol s' = true.
Proof.
  unfold Cover.trim_re, cat_all, ws_re. intros H.
  repeat match goal with
         | H : matches (Re.Cat _ _) _ _ _ _ _ _ |- _ =>
             inversion H; subst; clear H
         end.
  repeat match goal with
         | H : matches number_re _ _ _ _ _ _ |- _ =>
             apply matches_number_inv in H;
             destruct H as (? & ? & ? & ? & ?)
         | H : matches (Re.Star (Re.Cls _)) _ _ _ _ _ _ |- _ =>
             apply matches_star_cls_inv in H;
             destruct H as (? & ? & ? & ? & ?)
         | H : matches (Re.Chr _) _ _ _ _ _ _ |- _ =>
             apply matches_cls_inv in H;
             destruct H as (? & ? & ? & ? & ?)
         | H : matches Re.Bol _ _ _ _ _ _ |- _ => inversion H; subst; clear H
         | H : matches Re.Eol _ _ _ _ _ _ |- _ => inversion H; subst; clear H
         | H : is_char _ _ = true |- _ => apply is_char_eq in H
         end.
  subst. do 6 eexists.
  split; [reflexivity|]. split; [reflexivity|].
  repeat match goal with
         | |- _ /\ _ => split
         end; assumption.
Qed.

Lemma cover_trim_matches_intro w0 n1 w1 w2 n2 w3 t :
  forallb is_space w0 = true -> forallb is_space w1 = true ->
  forallb is_space w2 = true -> forallb is_space w3 = true ->
  is_numeral n1 = true -> is_numeral n2 = true -> Re.at_eol t = true ->
  exists n',
    matches Cover.trim_re 0
      (w0 ++ n1 ++ w1 ++ "x"%char :: w2 ++ n2 ++ w3 ++ t) [] n' t [n2; n1].
Proof.
  intros W0 W1 W2 W3 H1 H2 E. eexists. unfold Cover.trim_re, cat_all, ws_re.
  eapply M_Cat; [constructor|].
  eapply M_Cat; [apply matches_star_cls_intro; exact W0|].
  eapply M_Cat; [apply matches_number_intro; exact H1|].
  eapply M_Cat; [apply matches_star_cls_intro; exact W1|].
  eapply M_Cat; [constructor; reflexivity|].
  eapply M_Cat; [apply matches_star_cls_intro; exact W2|].
  eapply M_Cat; [apply matches_number_intro; exact H2|].
  eapply M_Cat; [apply matches_star_cls_intro; exact W3|].
  constructor. exact E.
Qed.

Lemma starts_not_ws_x w r :
  forallb is_space w = true -> starts_not numeral_char (w ++ "x"%char :: r).
Proof.
  destruct w as [|c w]; simpl; [reflexivity|].
  intros H. apply andb_true_iff in H. destruct H as [H _].
  apply space_not_numeral. exact H.
Qed.

Lemma starts_not_ws_eol w t :
  forallb is_space w = true -> Re.at_eol t = true ->
  starts_not numeral_char (w ++ t).
Proof.
  destruct w as [|c w]; simpl.
  - intros _. apply at_eol_not_numeral.
  - intros H _. apply andb_true_iff in H. destruct H as [H _].
    apply space_not_numeral. exact H.
Qed.

(** The numerals of a padded trim string are determined by the string. *)
Lemma cover_split_unique w0 n1 w1 w2 n2 w3 t w0' n1' w1' w2' n2' w3' t' :
  forallb is_space w0 = true -> forallb is_space w1 = true ->
  forallb is_space w2 = true -> forallb is_space w3 = true ->
  is_numeral n1 = true -> is_numeral n2 = true -> Re.at_eol t = true ->
  forallb is_space w0' = true -> forallb is_space w1' = true ->
  forallb is_space w2' = true -> forallb is_space w3' = true ->
  is_numeral n1' = true -> is_numeral n2' = true -> Re.at_eol t' = true ->
  w0 ++ n1 ++ w1 ++ "x"%char :: w2 ++ n2 ++ w3 ++ t
  = w0' ++ n1' ++ w1' ++ "x"%char :: w2' ++ n2' ++ w3' ++ t' ->
  n1 = n1' /\ n2 = n2'.
Proof.
  intros W0 W1 W2 W3 H1 H2 E W0' W1' W2' W3' H1' H2' E' Eq.
  destruct (run_unique is_space w0 w0' _ _ W0 W0'
              (numeral_not_space_start _ _ H1)
              (numeral_not_space_start _ _ H1') Eq) as [_ Eq1].
  destruct (run_unique numeral_char n1 n1' _ _
              (numeral_chars _ H1) (numeral_chars _ H1')
              (starts_not_ws_x _ _ W1) (starts_not_ws_x _ _ W1') Eq1)
    as [-> Eq2].
  destruct (run_unique is_space w1 w1' ("x"%char :: _) ("x"%char :: _) W1 W1'
              x_not_space x_not_space Eq2) as [_ Eq3].
  inversion Eq3 as [Eq4].
  destruct (run_unique is_space w2 w2' _ _ W2 W2'
              (numeral_not_space_start _ _ H2)
              (numeral_not_space_start _ _ H2') Eq4) as [_ Eq5].
  destruct (run_unique numeral_char n2 n2' _ _
              (numeral_chars _ H2) (numeral_chars _ H2')
              (starts_not_ws_eol _ _ W3 E) (starts_not_ws_eol _ _ W3' E') Eq5)
    as [-> _].
  auto.
Qed.

Lemma cover_match_sound s gs :
  Re.match_ Cover.trim_re s = Some gs ->
  exists w0 n1 w1 w2 n2 w3 t,
    forallb is_space w0 = true /\ forallb is_space w1 = true
    /\ forallb is_space w2 = true /\ forallb is_space w3 = true
    /\ is_numeral n1 = true /\ is_numeral n2 = true /\ Re.at_eol t = true
    /\ s = w0 ++ n1 ++ w1 ++ "x"%char :: w2 ++ n2 ++ w3 ++ t
    /\ gs = [n1; n2].
Proof.
  unfold Re.match_. intros H. apply m_sound in H.
  destruct H as (n' & s' & c' & M & K).
  apply cover_trim_matches_inv in M.
  destruct M as (w0 & n1 & w1 & w2 & n2 & w3 & -> & -> & W0 & W1 & W2 & W3
                 & H1 & H2 & E).
  inversion K. exists w0, n1, w1, w2, n2, w3, s'. auto 12.
Qed.

Lemma cover_match_complete w0 n1 w1 w2 n2 w3 t :
  forallb is_space w0 = true -> forallb is_space w1 = true ->
  forallb is_space w2 = true -> forallb is_space w3 = true ->
  is_numeral n1 = true -> is_numeral n2 = true -> Re.at_eol t = true ->
  Re.match_ Cover.trim_re (w0 ++ n1 ++ w1 ++ "x"%char :: w2 ++ n2 ++ w3 ++ t)
  = Some [n1; n2].
Proof.
  intros W0 W1 W2 W3 H1 H2 E.
  destruct (cover_trim_matches_intro _ _ _ _ _ _ _ W0 W1 W2 W3 H1 H2 E)
    as [n' M].
  destruct (m_complete _ _ _ _ _ _ _
              (fun _ _ caps => Some (rev caps)) _ M eq_refl) as [y Hy].
  match type of Hy with ?l = _ =>
    change l with
      (Re.match_ Cover.trim_re
         (w0 ++ n1 ++ w1 ++ "x"%char :: w2 ++ n2 ++ w3 ++ t)) in Hy end.
  rewrite Hy. f_equal.
  apply cover_match_sound in Hy.
  destruct Hy as (v0 & m1 & v1 & v2 & m2 & v3 & t' & V0 & V1 & V2 & V3
                  & G1 & G2 & E' & Eq & ->).
  destruct (cover_split_unique _ _ _ _ _ _ _ _ _ _ _ _ _ _
              W0 W1 W2 W3 H1 H2 E V0 V1 V2 V3 G1 G2 E' Eq) as (-> & ->).
  reflexivity.
Qed.

Lemma lower_numeral_char c : numeral_char c = true -> lower_char c = c.
Proof. by_cases_on_char c. Qed.

Lemma lower_numeral g : is_numeral g = true -> lower g = g.
Proof.
  intros H. apply numeral_chars in H. unfold lower.
  induction g as [|c g IH]; simpl in *; [reflexivity|].
  apply andb_true_iff in H. destruct H as [C H].
  rewrite (lower_numeral_char c C), (IH H). reflexivity.
Qed.

Lemma lower_trim_form n1 n2 :
  is_numeral n1 = true -> is_numeral n2 = true ->
  lower (trim_form n1 n2) = trim_form n1 n2.
Proof.
  intros H1 H2. unfold trim_form, lower. rewrite map_app. simpl.
  fold (lower n1). fold (lower n2).
  rewrite (lower_numeral _ H1), (lower_numeral _ H2). reflexivity.
Qed.

Lemma cover_parse_trim_accepts s w0 n1 w1 w2 n2 w3 :
  forallb is_space w0 = true -> forallb is_space w1 = true ->
  forallb is_space w2 = true -> forallb is_space w3 = true ->
  is_numeral n1 = true -> is_numeral n2 = true ->
  lower s = w0 ++ n1 ++ w1 ++ "x"%char :: w2 ++ n2 ++ w3 ->
  Cover.parse_trim s = Ok (numeral_val n1, numeral_val n2).
Proof.
  intros W0 W1 W2 W3 H1 H2 E. unfold Cover.parse_trim. rewrite E.
  pose proof (cover_match_complete w0 n1 w1 w2 n2 w3 [] W0 W1 W2 W3 H1 H2
                eq_refl) as M.
  rewrite app_nil_r in M. rewrite M.
  rewrite (float_numeral _ H1), (float_numeral _ H2). reflexivity.
Qed.

Lemma cover_parse_trim_inv s :
  (exists w0 n1 w1 w2 n2 w3,
      forallb is_space w0 = true /\ forallb is_space w1 = true
      /\ forallb is_space w2 = true /\ forallb is_space w3 = true
      /\ is_numeral n1 = true /\ is_numeral n2 = true
      /\ lower s = w0 ++ n1 ++ w1 ++ "x"%char :: w2 ++ n2 ++ w3
      /\ Cover.parse_trim s = Ok (numeral_val n1, numeral_val n2))
  \/ Cover.parse_trim s = Raise ValueError.
Proof.
  unfold Cover.parse_trim.
  destruct (Re.match_ Cover.trim_re (lower s)) as [gs|] eqn:E; [|auto].
  left. apply cover_match_sound in E.
  destruct E as (w0 & n1 & w1 & w2 & n2 & w3 & t & W0 & W1 & W2 & W3
                 & H1 & H2 & E & -> & ->).
  exists w0, n1, w1, w2, n2, (w3 ++ t).
  rewrite (float_numeral _ H1), (float_numeral _ H2).
  assert (W : forallb is_space (w3 ++ t) = true).
  { rewrite forallb_app, W3. apply at_eol_inv in E.
    destruct E as [->| ->]; reflexivity. }
  repeat rewrite <- app_assoc. auto 12.
Qed.

Lemma cover_parse_trim_form n1 n2 :
  is_numeral n1 = true -> is_numeral n2 = true ->
  Cover.parse_trim (trim_form n1 n2) = Ok (numeral_val n1, numeral_val n2).
Proof.
  intros H1 H2.
  apply (cover_parse_trim_accepts _ [] n1 [] [] n2 []); auto.
  rewrite (lower_trim_form _ _ H1 H2). unfold trim_form. simpl.
  rewrite app_nil_r. reflexivity.
Qed.

Lemma interior_parse_trim_form n1 n2 :
  is_numeral n1 = true -> is_numeral n2 = true ->
  Interior.parse_trim (trim_form n1 n2) = Ok (numeral_val n1, numeral_val n2).
Proof.
  intros H1 H2.
  pose proof (interior_parse_trim_accepts n1 n2 [] H1 H2 eq_refl) as A.
  rewrite app_nil_r in A. exact A.
Qed.

Lemma interior_parse_trim_rejects s :
  ~ is_trim_form s -> (forall r, s <> r ++ [newline]) ->
  Interior.parse_trim s = Raise ValueError.
Proof.
  intros NF NN.
  destruct (interior_parse_trim_inv s)
    as [(n1 & n2 & t & H1 & H2 & E & -> & _)|R]; [|exact R].
  exfalso. apply at_eol_inv in E. destruct E as [->| ->].
  - apply NF. exists n1, n2. rewrite app_nil_r. auto.
  - apply (NN (n1 ++ "x"%char :: n2)). rewrite <- app_assoc. reflexivity.
Qed.

Lemma padded_not_trim_form c r :
  is_digit c = false -> ~ is_trim_form (c :: r).
Proof.
  intros D (n1 & n2 & H1 & _ & E). unfold trim_form in E.
  destruct (numeral_starts_digit n1 ("x"%char :: n2) H1) as (d & t & E' & Dd).
  rewrite E' in E. inversion E; subst. congruence.
Qed.

(** ** Rounding to the nearest integer *)

Lemma round_le_floor x :
  Py.round x <= (2 * Qnum x + Z.pos (Qden x)) / (2 * Z.pos (Qden x)).
Proof.
  unfold Py.round.
  destruct (_ && _); lia.
Qed.

Lemma round_mono x y : (x <= y)%Q -> Py.round x <= Py.round y.
Proof.
  destruct x as [n d], y as [n' d']. unfold Qle. cbn [Qnum Qden]. intros L.
  pose proof (round_le_floor (n # d)) as Rx. cbn [Qnum Qden] in Rx.
  unfold Py.round in *. cbn [Qnum Qden] in *.
  set (a := 2 * n + Z.pos d) in *. set (b := 2 * Z.pos d) in *.
  set (a' := 2 * n' + Z.pos d'). set (b' := 2 * Z.pos d').
  assert (Bpos : 0 < b) by (unfold b; lia).
  assert (Bpos' : 0 < b') by (unfold b'; lia).
  assert (Lab : a * b' <= a' * b) by (unfold a, a', b, b'; nia).
  pose proof (Z.mul_div_le a b Bpos) as Fx.
  assert (Ffl : a / b <= a' / b').
  { apply Z.div_le_lower_bound; [exact Bpos'|]. nia. }
  destruct ((a' mod b' =? 0) && Z.odd (a' / b')) eqn:Ty.
  - apply andb_true_iff in Ty. destruct Ty as [T O].
    apply Z.eqb_eq in T.
    assert (Ea' : a' = b' * (a' / b')).
    { pose proof (Z.div_mod a' b' ltac:(lia)). lia. }
    destruct (Z.eq_dec (a / b) (a' / b')) as [Eq|Ne].
    + assert (Ea : a = b * (a / b)) by nia.
      assert (Tx : a mod b = 0).
      { pose proof (Z.div_mod a b ltac:(lia)). lia. }
      rewrite Tx, Eq, O. simpl. lia.
    + destruct ((a mod b =? 0) && Z.odd (a / b)); lia.
  - destruct ((a mod b =? 0) && Z.odd (a / b)); lia.
Qed.

Lemma round_proper x y : (x == y)%Q -> Py.round x = Py.round y.
Proof.
  intros E. apply Z.le_antisymm; apply round_mono; rewrite E; apply Qle_refl.
Qed.

Lemma round_inject z : Py.round (inject_Z z) = z.
Proof.
  unfold Py.round, inject_Z. cbn [Qnum Qden].
  replace (2 * z + 1) with (1 + z * 2) by lia.
  change (2 * 1) with 2.
  rewrite Z.div_add, Z.mod_add by lia.
  change (1 mod 2) with 1. change (1 / 2) with 0. simpl. reflexivity.
Qed.

(** The rounded value is within one half of the argument. *)
Lemma round_bounds x :
  (x - (1 # 2) <= inject_Z (Py.round x) <= x + (1 # 2))%Q.
Proof.
  destruct x as [n d]. unfold Py.round, Qle, Qminus, Qplus, Qopp, inject_Z.
  cbn [Qnum Qden].
  set (a := 2 * n + Z.pos d). set (b := 2 * Z.pos d).
  assert (Bpos : 0 < b) by (unfold b; lia).
  pose proof (Z.div_mod a b ltac:(lia)) as DM.
  pose proof (Z.mod_pos_bound a b Bpos) as MB.
  destruct ((a mod b =? 0) && Z.odd (a / b)) eqn:T.
  - apply andb_true_iff in T. destruct T as [T _]. apply Z.eqb_eq in T.
    unfold a, b in *. nia.
  - unfold a, b in *. nia.
Qed.

(** ** cover_builder.py: [inches_to_px] and [compute_dimensions] *)

Lemma inches_to_px_mono x y :
  (x <= y)%Q -> Cover.inches_to_px x <= Cover.inches_to_px y.
Proof.
  intros L. unfold Cover.inches_to_px. apply round_mono.
  apply Qmult_le_compat_r; [exact L|]. unfold Cover.DPI, Qle. simpl. lia.
Qed.

Lemma thickness_pos p : (0 < Cover.PAPER_THICKNESS p)%Q.
Proof. destruct p; reflexivity. Qed.

Lemma spine_in_mono p a b :
  a <= b ->
  (Cover.PAPER_THICKNESS p * inject_Z a <= Cover.PAPER_THICKNESS p * inject_Z b)%Q.
Proof.
  intros L. rewrite (Qmult_comm _ (inject_Z a)), (Qmult_comm _ (inject_Z b)).
  apply Qmult_le_compat_r.
  - rewrite <- Zle_Qle. exact L.
  - apply Qlt_le_weak. apply thickness_pos.
Qed.

Lemma spine_px_mono tw th tw' th' p a b :
  a <= b ->
  Cover.spine_px_of (Cover.compute_dimensions tw th a p)
  <= Cover.spine_px_of (Cover.compute_dimensions tw' th' b p).
Proof.
  intros L. unfold Cover.spine_px_of, Cover.compute_dimensions. simpl.
  apply inches_to_px_mono. apply spine_in_mono. exact L.
Qed.

Lemma spine_px_zero tw th p :
  Cover.spine_px_of (Cover.compute_dimensions tw th 0 p) = 0.
Proof. destruct p; reflexivity. Qed.

(** C9: for every paper type the spine pixel width is non-negative for
    every page count at least 0, and it does not decrease when the page
    count grows. *)
Theorem spine_px_nonneg_monotone (tw th : Q) (p : Cover.paper) (pages : Z) :
  0 <= pages ->
  0 <= Cover.spine_px_of (Cover.compute_dimensions tw th pages p)
  /\ forall pages', pages <= pages' ->
       Cover.spine_px_of (Cover.compute_dimensions tw th pages p)
       <= Cover.spine_px_of (Cover.compute_dimensions tw th pages' p).
Proof.
  intros H. split.
  - rewrite <- (spine_px_zero tw th p). apply spine_px_mono. exact H.
  - intros pages' L. apply spine_px_mono. exact L.
Qed.

Lemma spine_px_nonneg_monotone_witness :
  0 <= Cover.spine_px_of (Cover.compute_dimensions (85 # 10) (11 # 1) 30 Cover.white)
  /\ forall pages', 30 <= pages' ->
       Cover.spine_px_of (Cover.compute_dimensions (85 # 10) (11 # 1) 30 Cover.white)
       <= Cover.spine_px_of
            (Cover.compute_dimensions (85 # 10) (11 # 1) pages' Cover.white).
Proof.
  apply (spine_px_nonneg_monotone (85 # 10) (11 # 1) Cover.white 30). lia.
Defined.

(** C3, as the specification states it, fails for the default trim size
    and a 30-page book on white paper: the canvas is 5195 pixels wide,
    the separately rounded components add up to 5196. *)
Lemma total_width_sum_counterexample :
  let d := Cover.compute_dimensions (85 # 10) (11 # 1) 30 Cover.white in
  Cover.w (Cover.total_of d) = 5195
  /\ 2 * Cover.inches_to_px Cover.BLEED_IN
     + 2 * Cover.w (Cover.trim_px_of d) + Cover.spine_px_of d = 5196
  /\ Cover.w (Cover.total_of d)
     <> 2 * Cover.inches_to_px Cover.BLEED_IN
        + 2 * Cover.w (Cover.trim_px_of d) + Cover.spine_px_of d.
Proof. vm_compute. repeat split; discriminate. Qed.

(** In exact arithmetic the total canvas pixel width is the rounded
    pixel value of the summed inches, and it differs from the sum of the
    separately rounded components by at most 3 below and 1 above. *)
Lemma total_width_near_sum (tw th : Q) (pages : Z) (p : Cover.paper) :
  let d := Cover.compute_dimensions tw th pages p in
  let s := 2 * Cover.inches_to_px Cover.BLEED_IN
           + 2 * Cover.w (Cover.trim_px_of d) + Cover.spine_px_of d in
  Cover.w (Cover.total_of d)
  = Cover.inches_to_px
      (Cover.BLEED_IN * (2 # 1) + tw * (2 # 1)
       + Cover.PAPER_THICKNESS p * inject_Z pages)%Q
  /\ s - 3 <= Cover.w (Cover.total_of d) <= s + 1.
Proof.
  intros d s. split; [reflexivity|].
  subst s d. unfold Cover.compute_dimensions, Cover.total_of,
    Cover.trim_px_of, Cover.spine_px_of. cbn [fst snd Cover.w].
  change (Cover.inches_to_px Cover.BLEED_IN) with 38.
  unfold Cover.inches_to_px.
  set (sp := (Cover.PAPER_THICKNESS p * inject_Z pages)%Q).
  set (dpi := inject_Z Cover.DPI).
  pose proof (round_bounds (tw * dpi)) as [A1 A2].
  pose proof (round_bounds (sp * dpi)) as [B1 B2].
  pose proof (round_bounds ((Cover.BLEED_IN * (2 # 1) + tw * (2 # 1) + sp) * dpi))
    as [T1 T2].
  set (a := Py.round (tw * dpi)) in *.
  set (b := Py.round (sp * dpi)) in *.
  set (t := Py.round ((Cover.BLEED_IN * (2 # 1) + tw * (2 # 1) + sp) * dpi)) in *.
  assert (E : ((Cover.BLEED_IN * (2 # 1) + tw * (2 # 1) + sp) * dpi
               == 75 + (2 # 1) * (tw * dpi) + sp * dpi)%Q).
  { unfold dpi, Cover.DPI, Cover.BLEED_IN. field. }
  rewrite E in T1, T2.
  split.
  - cut (2 * 38 + 2 * a + b <= t + 3); [lia|].
    rewrite Zle_Qle. rewrite !inject_Z_plus, !inject_Z_mult.
    change (inject_Z 2) with (2 # 1). change (inject_Z 38) with (38 # 1).
    change (inject_Z 3) with (3 # 1). lra.
  - rewrite Zle_Qle. rewrite !inject_Z_plus, !inject_Z_mult.
    change (inject_Z 2) with (2 # 1). change (inject_Z 38) with (38 # 1).
    change (inject_Z 1) with 1%Q. lra.
Qed.

(** ** The same dimensions in binary64 *)

(** In binary64 the spine pixel width is non-negative and does not
    decrease over the page counts 0 to 2000 (the platform prints at most
    828 pages), on every paper. *)
Lemma b64_spine_px_monotone :
  forallb
    (fun p =>
       Cover.B64.nondecreasing 0
         (map (Cover.B64.spine_px p) (Cover.B64.page_counts 2001)))
    Cover.B64.papers = true.
Proof. vm_compute. reflexivity. Qed.

(** On the papers whose thickness never lands a spine on a half pixel,
    binary64 and the rationals give the same dimensions for the default
    trim size and up to 1000 pages. *)
Lemma b64_dimensions_agree :
  forallb
    (fun pages =>
       forallb
         (fun p =>
            Cover.B64.same_dimensions
              (Cover.B64.compute_dimensions (Cover.B64.literal 85 10)
                 (Cover.B64.of_Z 11) pages p)
              (Cover.compute_dimensions (85 # 10) (11 # 1) pages p))
         [Cover.white; Cover.color_premium; Cover.color_standard])
    (Cover.B64.page_counts 1001) = true.
Proof. vm_compute. reflexivity. Qed.

(** On cream paper 14 pages make 10.5 pixels on the rationals, which
    rounds to 10; the float product is a little above and rounds to 11. *)
Example b64_cream_tie :
  Cover.B64.spine_px Cover.cream 14 = 11
  /\ Cover.spine_px_of (Cover.compute_dimensions (85 # 10) (11 # 1) 14 Cover.cream)
     = 10.
Proof. vm_compute. split; reflexivity. Qed.

(** The bounds of the canvas width against the sum of the rounded parts
    hold in binary64 as well, for the default trim size and up to 1000
    pages. *)
Lemma b64_total_width_near_sum :
  forallb
    (fun pages =>
       forallb
         (fun p =>
            let d := Cover.B64.compute_dimensions (Cover.B64.literal 85 10)
                       (Cover.B64.of_Z 11) pages p in
            (Cover.B64.sum_of_parts d - 3 <=? Cover.w (Cover.total_of d))
            && (Cover.w (Cover.total_of d) <=? Cover.B64.sum_of_parts d + 1))
         Cover.B64.papers)
    (Cover.B64.page_counts 1001) = true.
Proof. vm_compute. reflexivity. Qed.

Example b64_total_width :
  let d := Cover.B64.compute_dimensions (Cover.B64.literal 85 10)
             (Cover.B64.of_Z 11) 30 Cover.white in
  Cover.w (Cover.total_of d) = 5195
  /\ 2 * Cover.B64.inches_to_px Cover.B64.BLEED_IN
     + 2 * Cover.w (Cover.trim_px_of d) + Cover.spine_px_of d = 5196.
Proof. vm_compute. split; reflexivity. Qed.

(** ** The dimensions with the rounding of the floats *)

(** Below [10^10] a float is within a hundred-thousandth of the real
    number it stands for. *)
Lemma fl_close fl x :
  rounds_like_binary64 fl -> (0 <= x <= 10000000000)%Q ->
  (0 <= fl x /\ x - (1 # 100000) <= fl x <= x + (1 # 100000))%Q.
Proof.
  intros [Near _] [P U].
  destruct (Near x) as (N & L & H).
  { split; [exact P|]. unfold fl_max. lra. }
  unfold fl_eps, fl_eta in *. split; [exact N|]. split; lra.
Qed.

Lemma thickness_small p : (0 <= Cover.PAPER_THICKNESS p <= 1 # 100)%Q.
Proof. destruct p; split; unfold Qle; simpl; lia. Qed.

Lemma compute_dimensions_exact tw th pages p :
  Cover.compute_dimensions_fl (fun x => x) tw th pages p
  = Cover.compute_dimensions tw th pages p.
Proof. reflexivity. Qed.

Lemma exact_rounds_like_binary64 : rounds_like_binary64 (fun x => x).
Proof.
  split.
  - intros x [P U]. unfold fl_eps, fl_eta. split; [exact P|]. split; lra.
  - reflexivity.
Qed.

(** C3, amended: the total canvas pixel width is the rounded pixel value
    of the summed inches, not the sum of the separately rounded
    components [2*bleed_px + 2*trim_width_px + spine_px]; with the floats
    of the interpreter, for a trim width of at most a million inches and
    at most a million pages, it differs from that sum by at most 3 below
    and 1 above, and the bleed is 38 pixels. *)
Theorem total_width_near_sum_binary64 (fl : Q -> Q) (tw th : Q) (pages : Z)
  (p : Cover.paper) :
  rounds_like_binary64 fl ->
  (0 <= tw <= 1000000)%Q -> 0 <= pages <= 1000000 ->
  let d := Cover.compute_dimensions_fl fl tw th pages p in
  let bleed_px := Cover.inches_to_px_fl fl Cover.BLEED_IN in
  let s := 2 * bleed_px + 2 * Cover.w (Cover.trim_px_of d)
           + Cover.spine_px_of d in
  bleed_px = 38 /\ s - 3 <= Cover.w (Cover.total_of d) <= s + 1.
Proof.
  intros Hfl [Tw0 Tw1] [Pg0 Pg1] d bleed_px s.
  assert (Bl : bleed_px = 38).
  { unfold bleed_px, Cover.inches_to_px_fl.
    rewrite (round_proper _ _ (proj2 Hfl)). reflexivity. }
  split; [exact Bl|].
  subst s. rewrite Bl. subst d.
  unfold Cover.compute_dimensions_fl, Cover.total_of, Cover.trim_px_of,
    Cover.spine_px_of, Cover.inches_to_px_fl. cbn [fst snd Cover.w].
  change (inject_Z Cover.DPI) with (300 # 1).
  pose proof (thickness_small p) as [Th0 Th1].
  destruct (fl_close fl (Cover.PAPER_THICKNESS p) Hfl) as (T0 & T1 & T2);
    [split; lra|].
  set (T := fl (Cover.PAPER_THICKNESS p)) in *.
  assert (Pq : (0 <= inject_Z pages <= 1000000)%Q).
  { split; [change 0%Q with (inject_Z 0) | change 1000000%Q with (inject_Z 1000000)];
      rewrite <- Zle_Qle; lia. }
  assert (Sp0 : (0 <= T * inject_Z pages <= 11000)%Q).
  { split; [apply Qmult_le_0_compat; lra|].
    apply (Qle_trans _ (T * 1000000)).
    - rewrite (Qmult_comm T (inject_Z pages)), (Qmult_comm T 1000000).
      apply Qmult_le_compat_r; lra.
    - lra. }
  destruct (fl_close fl (T * inject_Z pages)%Q Hfl) as (S0 & S1 & S2);
    [split; lra|].
  set (Sp := fl (T * inject_Z pages)%Q) in *.
  destruct (fl_close fl (Sp * (300 # 1))%Q Hfl) as (B0 & B1 & B2);
    [split; lra|].
  set (Bp := fl (Sp * (300 # 1))%Q) in *.
  destruct (fl_close fl (tw * (300 # 1))%Q Hfl) as (A0 & A1 & A2);
    [split; lra|].
  set (Ap := fl (tw * (300 # 1))%Q) in *.
  destruct (fl_close fl (Cover.BLEED_IN * (2 # 1))%Q Hfl)
    as (X10 & X11 & X12); [unfold Cover.BLEED_IN; split; lra|].
  set (x1 := fl (Cover.BLEED_IN * (2 # 1))%Q) in *.
  unfold Cover.BLEED_IN in X11, X12.
  destruct (fl_close fl (tw * (2 # 1))%Q Hfl) as (X20 & X21 & X22);
    [split; lra|].
  set (x2 := fl (tw * (2 # 1))%Q) in *.
  destruct (fl_close fl (x1 + x2)%Q Hfl) as (X30 & X31 & X32);
    [split; lra|].
  set (x3 := fl (x1 + x2)%Q) in *.
  destruct (fl_close fl (x3 + Sp)%Q Hfl) as (X40 & X41 & X42);
    [split; lra|].
  set (x4 := fl (x3 + Sp)%Q) in *.
  destruct (fl_close fl (x4 * (300 # 1))%Q Hfl) as (Y0 & Y1 & Y2);
    [split; lra|].
  set (Yp := fl (x4 * (300 # 1))%Q) in *.
  pose proof (round_bounds Ap) as [Ra1 Ra2].
  pose proof (round_bounds Bp) as [Rb1 Rb2].
  pose proof (round_bounds Yp) as [Ry1 Ry2].
  set (a := Py.round Ap) in *.
  set (b := Py.round Bp) in *.
  set (t := Py.round Yp) in *.
  split.
  - cut (2 * 38 + 2 * a + b < t + 4); [lia|].
    rewrite Zlt_Qlt. rewrite !inject_Z_plus, !inject_Z_mult.
    change (inject_Z 2) with (2 # 1). change (inject_Z 38) with (38 # 1).
    change (inject_Z 4) with (4 # 1). lra.
  - cut (t < 2 * 38 + 2 * a + b + 2); [lia|].
    rewrite Zlt_Qlt. rewrite !inject_Z_plus, !inject_Z_mult.
    change (inject_Z 2) with (2 # 1). change (inject_Z 38) with (38 # 1).
    lra.
Qed.

Lemma total_width_near_sum_binary64_witness :
  let d := Cover.compute_dimensions_fl (fun x => x) (85 # 10) (11 # 1) 30
             Cover.white in
  Cover.w (Cover.total_of d) = 5195
  /\ 2 * 38 + 2 * Cover.w (Cover.trim_px_of d) + Cover.spine_px_of d - 3
     <= Cover.w (Cover.total_of d).
Proof.
  destruct (total_width_near_sum_binary64 (fun x => x) (85 # 10) (11 # 1) 30
              Cover.white exact_rounds_like_binary64)
    as (Bl & Lo & Hi).
  - split; unfold Qle; simpl; lia.
  - lia.
  - cbv zeta. split; [reflexivity|].
    cbv zeta in Lo. rewrite Bl in Lo. exact Lo.
Defined.

(** ** [random.shuffle] rearranges *)

Lemma set_nth_cons_perm {A : Type} (a b : A) (t : list A) j :
  nth_error t j = Some b -> Permutation (a :: t) (b :: set_nth t j a).
Proof.
  revert j. induction t as [|c t IH]; intros [|j] H; simpl in *;
    try discriminate.
  - inversion H; subst. apply perm_swap.
  - eapply perm_trans; [apply perm_swap|].
    eapply perm_trans; [apply perm_skip, (IH j H)|]. apply perm_swap.
Qed.

Lemma swap_perm {A : Type} (x : list A) i j : Permutation x (swap x i j).
Proof.
  unfold swap.
  destruct (nth_error x i) as [xi|] eqn:Ei; [|apply Permutation_refl].
  destruct (nth_error x j) as [xj|] eqn:Ej; [|apply Permutation_refl].
  revert i j Ei Ej.
  induction x as [|a t IH]; intros [|i] [|j] Ei Ej; simpl in *;
    try discriminate.
  - inversion Ei; inversion Ej; subst. apply Permutation_refl.
  - inversion Ei; subst. apply set_nth_cons_perm. exact Ej.
  - inversion Ej; subst. apply set_nth_cons_perm. exact Ei.
  - apply perm_skip. apply IH; assumption.
Qed.

Section ShuffleSpec.

Context {G : RandomGen}.

Lemma shuffle_from_perm {A : Type} i (x : list A) s :
  Permutation x (fst (shuffle_from i x s)).
Proof.
  revert x s. induction i as [|i IH]; intros x s; simpl.
  - apply Permutation_refl.
  - destruct (randbelow s (S (S i))) as [j s'].
    eapply perm_trans; [apply (swap_perm x (S i) j)|]. apply IH.
Qed.

Lemma shuffle_perm {A : Type} (x : list A) s :
  Permutation x (fst (shuffle x s)).
Proof. apply shuffle_from_perm. Qed.

Lemma shuffle_length {A : Type} (x : list A) s :
  List.length (fst (shuffle x s)) = List.length x.
Proof. symmetry. apply Permutation_length, shuffle_perm. Qed.

End ShuffleSpec.

(** ** Literals, and the file-name pattern of the cover script *)

Lemma matches_lit_inv l n s c n' s' c' :
  matches (Re.Lit l) n s c n' s' c' ->
  s = l ++ s' /\ n' = (n + List.length l)%nat /\ c' = c.
Proof.
  revert n s. induction l as [|a l IH]; intros n s H; simpl in H.
  - inversion H; subst. simpl. rewrite Nat.add_0_r. auto.
  - inversion H; subst; clear H.
    match goal with H : matches (Re.Chr _) _ _ _ _ _ _ |- _ =>
      apply matches_cls_inv in H; destruct H as (ch & -> & P & -> & ->) end.
    apply is_char_eq in P. subst ch.
    match goal with H : matches (Re.Lit _) _ _ _ _ _ _ |- _ =>
      apply IH in H; destruct H as (-> & -> & ->) end.
    simpl. split; [reflexivity|]. split; [lia | reflexivity].
Qed.

Lemma is_char_refl a : is_char a a = true.
Proof. unfold is_char. apply Ascii.eqb_refl. Qed.

Lemma matches_lit_intro l n s' c :
  matches (Re.Lit l) n (l ++ s') c (n + List.length l)%nat s' c.
Proof.
  revert n. induction l as [|a l IH]; intros n; simpl.
  - rewrite Nat.add_0_r. constructor.
  - eapply M_Cat; [constructor; apply is_char_refl|].
    replace (n + S (List.length l))%nat with (S n + List.length l)%nat by lia.
    apply IH.
Qed.

Lemma matches_digits_inv n s c n' s' c' :
  matches digits_re n s c n' s' c' ->
  exists ds, s = ds ++ s' /\ forallb is_digit ds = true /\ ds <> []
             /\ n' = (n + List.length ds)%nat /\ c' = ds :: c.
Proof.
  unfold digits_re. intros H. inversion H; subst; clear H.
  match goal with H : matches (Re.Plus _) _ _ _ _ _ _ |- _ =>
    apply matches_plus_cls_inv in H;
    destruct H as (ds & -> & F & NE & -> & ->) end.
  exists ds. rewrite firstn_consumed. auto.
Qed.

Lemma matches_digits_intro ds n s' c :
  forallb is_digit ds = true -> ds <> [] ->
  matches digits_re n (ds ++ s') c (n + List.length ds)%nat s' (ds :: c).
Proof.
  intros F NE. unfold digits_re.
  rewrite <- (firstn_consumed ds s' n) at 3.
  constructor. apply matches_plus_cls_intro; assumption.
Qed.

Lemma matches_cat_inv r1 r2 n s c n' s' c' :
  matches (Re.Cat r1 r2) n s c n' s' c' ->
  exists n1 s1 c1,
    matches r1 n s c n1 s1 c1 /\ matches r2 n1 s1 c1 n' s' c'.
Proof. intros H. inversion H; subst. eauto. Qed.

Lemma cover_name_matches_inv n s c n' s' c' :
  matches Cover.name_re n s c n' s' c' ->
  exists ds, forallb is_digit ds = true /\ ds <> []
    /\ s = s_ "fbnp_" ++ ds ++ s_ ".png" ++ s' /\ Re.at_eol s' = true
    /\ c' = ds :: c.
Proof.
  unfold Cover.name_re, cat_all. intros H.
  repeat match goal with
         | H : matches (Re.Cat _ _) _ _ _ _ _ _ |- _ =>
             apply matches_cat_inv in H; destruct H as (? & ? & ? & ? & ?)
         end.
  repeat match goal with
         | H : matches (Re.Lit _) _ _ _ _ _ _ |- _ =>
             apply matches_lit_inv in H; destruct H as (? & ? & ?)
         | H : matches digits_re _ _ _ _ _ _ |- _ =>
             apply matches_digits_inv in H;
             destruct H as (? & ? & ? & ? & ? & ?)
         | H : matches Re.Eol _ _ _ _ _ _ |- _ => inversion H; subst; clear H
         end.
  subst. eexists. repeat split; eauto.
Qed.

Lemma cover_name_matches_intro ds t n c :
  forallb is_digit ds = true -> ds <> [] -> Re.at_eol t = true ->
  exists n', matches Cover.name_re n (s_ "fbnp_" ++ ds ++ s_ ".png" ++ t) c
               n' t (ds :: c).
Proof.
  intros F NE E. eexists. unfold Cover.name_re, cat_all.
  eapply M_Cat; [apply matches_lit_intro|].
  eapply M_Cat; [apply matches_digits_intro; assumption|].
  eapply M_Cat; [apply matches_lit_intro|].
  constructor. exact E.
Qed.

Lemma search_from_hit r n s y :
  Re.m r n s [] (fun _ _ caps => Some (rev caps)) = Some y ->
  Re.search_from r n s = Some y.
Proof. intros H. destruct s; simpl; rewrite H; reflexivity. Qed.


Lemma page_name_index ds :
  forallb is_digit ds = true -> ds <> [] ->
  Cover.name_index (page_name ds) = Some (digits_val ds).
Proof.
  intros F NE. unfold Cover.name_index, Re.search, page_name.
  destruct (cover_name_matches_intro ds [] 0 [] F NE eq_refl) as [n' M].
  rewrite app_nil_r in M.
  destruct (m_complete _ _ _ _ _ _ _
              (fun _ _ caps => Some (rev caps)) _ M eq_refl) as [y Hy].
  rewrite (search_from_hit _ _ _ _ Hy).
  apply m_sound in Hy. destruct Hy as (n1 & s1 & c1 & M1 & K).
  apply cover_name_matches_inv in M1.
  destruct M1 as (ds' & F' & NE' & E1 & E' & ->).
  inversion K; subst y. simpl.
  assert (Eq : ds ++ s_ ".png" = ds' ++ s_ ".png" ++ s1).
  { simpl in E1. inversion E1 as [E2]. exact E2. }
  destruct (run_unique is_digit ds ds' (s_ ".png") (s_ ".png" ++ s1)
              F F' eq_refl eq_refl Eq) as [-> _].
  reflexivity.
Qed.

(** ** Stable sorting *)

Lemma insert_by_perm {A : Type} (le : A -> A -> bool) a l :
  Permutation (a :: l) (insert_by le a l).
Proof.
  induction l as [|b t IH]; simpl; [apply Permutation_refl|].
  destruct (le a b); [apply Permutation_refl|].
  eapply perm_trans; [apply perm_swap|]. apply perm_skip, IH.
Qed.

Lemma sort_by_perm {A : Type} (le : A -> A -> bool) l :
  Permutation l (sort_by le l).
Proof.
  induction l as [|a t IH]; simpl; [apply Permutation_refl|].
  eapply perm_trans; [apply perm_skip, IH|]. apply insert_by_perm.
Qed.

(** ** cover_builder.py: the interior files of a directory *)

Lemma candidates_paths l :
  map snd (Cover.candidates_of l) = filter Cover.has_index l.
Proof.
  induction l as [|p t IH]; simpl; [reflexivity|]. unfold Cover.has_index.
  destruct (Cover.name_index p); simpl; rewrite IH; reflexivity.
Qed.

Lemma interior_files_perm listing :
  Permutation (Cover.interior_files listing)
    (filter Cover.has_index (sort_by str_leb (glob listing))).
Proof.
  unfold Cover.interior_files. rewrite <- candidates_paths.
  apply Permutation_map. apply Permutation_sym, sort_by_perm.
Qed.


Lemma interior_files_nodup listing :
  NoDup listing -> NoDup (Cover.interior_files listing).
Proof.
  intros H.
  apply (Permutation_NoDup (Permutation_sym (interior_files_perm listing))).
  apply NoDup_filter.
  apply (Permutation_NoDup (sort_by_perm str_leb _)).
  apply NoDup_filter. exact H.
Qed.


(** ** cover_builder.py: [load_interior_images] *)

Lemma in_firstn {A : Type} k (l : list A) x : In x (firstn k l) -> In x l.
Proof.
  revert l. induction k as [|k IH]; intros [|a l]; simpl; try tauto.
  intros [->|H]; [left; reflexivity | right; apply IH, H].
Qed.

Lemma nodup_firstn {A : Type} k (l : list A) : NoDup l -> NoDup (firstn k l).
Proof.
  revert l. induction k as [|k IH]; intros [|a l] H; simpl;
    try constructor.
  - inversion H; subst. intros I. apply in_firstn in I. contradiction.
  - inversion H; subst. apply IH. assumption.
Qed.

Section Selection.

Context {G : RandomGen}.

Lemma load_interior_images_none listing max_images s :
  fst (Cover.load_interior_images listing max_images s)
  = Raise FileNotFoundError
  <-> Cover.interior_files listing = [].
Proof.
  unfold Cover.load_interior_images.
  destruct (Cover.interior_files listing) as [|f fs]; simpl.
  - tauto.
  - destruct (shuffle _ s). simpl. split; discriminate.
Qed.

Lemma load_interior_images_some listing max_images s :
  Cover.interior_files listing <> [] ->
  let files := Cover.interior_files listing in
  let n := Z.of_nat (List.length files) in
  exists sel,
    fst (Cover.load_interior_images listing max_images s) = Ok sel
    /\ Z.of_nat (List.length sel)
       = Z.min (Z.max 2 (Z.min max_images n)) (Z.min 6 n)
    /\ incl sel (firstn 6 files)
    /\ (NoDup listing -> NoDup sel).
Proof.
  intros NE. cbv zeta. unfold Cover.load_interior_images.
  pose proof (interior_files_nodup listing) as NDf.
  remember (Cover.interior_files listing) as files eqn:Ef.
  remember (Z.of_nat (List.length files)) as n eqn:En.
  destruct files as [|f fs] eqn:Efs; [congruence|].
  rewrite <- Efs in *. clear Efs.
  pose proof (shuffle_perm (firstn (Z.to_nat (Z.min 6 n)) files) s) as P.
  destruct (shuffle (firstn (Z.to_nat (Z.min 6 n)) files) s) as [head' s'].
  cbn [fst] in *.
  exists (firstn (Z.to_nat (Z.max 2 (Z.min max_images n))) head').
  split; [reflexivity|].
  assert (Lh : List.length head' = Z.to_nat (Z.min 6 n)).
  { rewrite <- (Permutation_length P), length_firstn. lia. }
  assert (Sub : incl head' (firstn 6 files)).
  { intros x Hx. apply (Permutation_in _ (Permutation_sym P)) in Hx.
    destruct (Z.min_spec 6 n) as [[_ E]|[_ E]]; rewrite E in Hx.
    - exact Hx.
    - subst n. rewrite Nat2Z.id, firstn_all in Hx.
      rewrite firstn_all2; [exact Hx|]. lia. }
  split; [|split].
  - rewrite length_firstn, Lh. lia.
  - intros x Hx. apply Sub. eapply in_firstn; eauto.
  - intros ND. apply nodup_firstn.
    apply (Permutation_NoDup P). apply nodup_firstn. apply NDf, ND.
Qed.

End Selection.


(** The not-found error does not wait for a name of the exact form
    [fbnp_<N>.png]: the pattern is searched for, not matched whole. *)
Example load_interior_images_searches :
  ~ is_page_name (s_ "fbnp_x_fbnp_1.png")
  /\ fst (Cover.load_interior_images (G := Lcg.generator)
            [s_ "fbnp_x_fbnp_1.png"] 4 0)
     = Ok [s_ "fbnp_x_fbnp_1.png"].
Proof.
  split; [|vm_compute; reflexivity].
  intros (ds & F & NE & E). unfold page_name in E. simpl in E.
  inversion E as [E1]. destruct ds as [|d ds]; [congruence|].
  simpl in E1. inversion E1; subst d. discriminate.
Qed.


(** ** Insertion sort yields a sorted list *)

Section SortSorted.

Context {A : Type} (key : A -> Z).

Lemma insert_by_in (a x : A) l :
  In x (insert_by (key_leb key) a l) -> x = a \/ In x l.
Proof.
  intros H.
  apply (Permutation_in _ (Permutation_sym (insert_by_perm _ a l))) in H.
  destruct H as [->|H]; auto.
Qed.

Lemma insert_by_sorted a l :
  StronglySorted (fun x y => key x <= key y) l ->
  StronglySorted (fun x y => key x <= key y) (insert_by (key_leb key) a l).
Proof.
  induction 1 as [|b t St IH Fb]; simpl.
  - constructor; constructor.
  - unfold key_leb at 1. destruct (key a <=? key b) eqn:L.
    + apply Z.leb_le in L. constructor.
      * constructor; assumption.
      * constructor; [exact L|].
        rewrite Forall_forall in Fb |- *. intros x Hx.
        specialize (Fb x Hx). lia.
    + apply Z.leb_gt in L. constructor; [exact IH|].
      rewrite Forall_forall in Fb |- *. intros x Hx.
      apply insert_by_in in Hx. destruct Hx as [->|Hx]; [lia|].
      apply Fb, Hx.
Qed.

Lemma sort_by_sorted l :
  StronglySorted (fun x y => key x <= key y) (sort_by (key_leb key) l).
Proof.
  induction l as [|a t IH]; simpl; [constructor|].
  apply insert_by_sorted, IH.
Qed.

End SortSorted.

Lemma strongly_sorted_map {A B : Type} (f : A -> B) (R : B -> B -> Prop) l :
  StronglySorted (fun x y => R (f x) (f y)) l -> StronglySorted R (map f l).
Proof.
  induction 1 as [|a t St IH Fa]; simpl; constructor; [exact IH|].
  rewrite Forall_forall in Fa |- *. intros y Hy.
  apply in_map_iff in Hy. destruct Hy as (x & <- & Hx). apply Fa, Hx.
Qed.

Lemma strongly_sorted_weaken {A : Type} (R S : A -> A -> Prop) l :
  (forall x y, In x l -> In y l -> R x y -> S x y) ->
  StronglySorted R l -> StronglySorted S l.
Proof.
  intros I H. induction H as [|a t St IH Fa]; constructor.
  - apply IH. intros x y Hx Hy. apply I; right; assumption.
  - rewrite Forall_forall in Fa |- *. intros y Hy.
    apply I; [left; reflexivity | right; exact Hy | apply Fa, Hy].
Qed.

(** ** cover_builder.py: the order of the interior files *)

Lemma candidates_index l :
  Forall (fun ip => Cover.name_index (snd ip) = Some (fst ip))
    (Cover.candidates_of l).
Proof.
  induction l as [|p t IH]; simpl; [constructor|].
  destruct (Cover.name_index p) as [i|] eqn:E; [|exact IH].
  constructor; [exact E | exact IH].
Qed.

Lemma interior_files_sorted listing :
  StronglySorted
    (fun a b => forall ia ib,
         Cover.name_index a = Some ia -> Cover.name_index b = Some ib ->
         ia <= ib)
    (Cover.interior_files listing).
Proof.
  unfold Cover.interior_files.
  set (cs := Cover.candidates_of (sort_by str_leb (glob listing))).
  pose proof (candidates_index (sort_by str_leb (glob listing))) as F.
  fold cs in F.
  apply strongly_sorted_map.
  eapply strongly_sorted_weaken; [|apply (sort_by_sorted fst)].
  intros x y Hx Hy L ia ib Ka Kb.
  apply (Permutation_in _ (Permutation_sym (sort_by_perm _ cs))) in Hx, Hy.
  rewrite Forall_forall in F.
  rewrite (F x Hx) in Ka. rewrite (F y Hy) in Kb.
  inversion Ka; inversion Kb; subst. exact L.
Qed.

(** The interior files come in ascending order of the numbers written
    in their names. *)
Lemma interior_files_page_order listing :
  StronglySorted page_order (Cover.interior_files listing).
Proof.
  eapply strongly_sorted_weaken; [|apply interior_files_sorted].
  intros a b _ _ L da db Fa Na Fb Nb -> ->.
  apply L; apply page_name_index; assumption.
Qed.



(** ** interior_builder.py: the pages of the document *)

Lemma interior_name_matches_inv n s c n' s' c' :
  matches Interior.name_re n s c n' s' c' ->
  exists ds, forallb is_digit ds = true /\ ds <> []
    /\ s = s_ "fbnp_" ++ ds ++ s_ ".png" ++ s' /\ c' = ds :: c.
Proof.
  unfold Interior.name_re, cat_all. intros H.
  repeat match goal with
         | H : matches (Re.Cat _ _) _ _ _ _ _ _ |- _ =>
             apply matches_cat_inv in H; destruct H as (? & ? & ? & ? & ?)
         end.
  repeat match goal with
         | H : matches (Re.Lit _) _ _ _ _ _ _ |- _ =>
             apply matches_lit_inv in H; destruct H as (? & ? & ?)
         | H : matches digits_re _ _ _ _ _ _ |- _ =>
             apply matches_digits_inv in H;
             destruct H as (? & ? & ? & ? & ? & ?)
         end.
  subst. eexists. repeat split; eauto.
Qed.

Lemma interior_name_matches_intro ds t n c :
  forallb is_digit ds = true -> ds <> [] ->
  exists n', matches Interior.name_re n (s_ "fbnp_" ++ ds ++ s_ ".png" ++ t) c
               n' t (ds :: c).
Proof.
  intros F NE. eexists. unfold Interior.name_re, cat_all.
  eapply M_Cat; [apply matches_lit_intro|].
  eapply M_Cat; [apply matches_digits_intro; assumption|].
  apply matches_lit_intro.
Qed.

(** The sort key of a name [fbnp_<N>.png] is the number [N] written in
    it. *)
Lemma sort_key_page_name ds :
  forallb is_digit ds = true -> ds <> [] ->
  Interior.sort_key (page_name ds) = Ok (digits_val ds).
Proof.
  intros F NE. unfold Interior.sort_key, Re.search, page_name.
  destruct (interior_name_matches_intro ds [] 0 [] F NE) as [n' M].
  rewrite app_nil_r in M.
  destruct (m_complete _ _ _ _ _ _ _
              (fun _ _ caps => Some (rev caps)) _ M eq_refl) as [y Hy].
  rewrite (search_from_hit _ _ _ _ Hy).
  apply m_sound in Hy. destruct Hy as (n1 & s1 & c1 & M1 & K).
  apply interior_name_matches_inv in M1.
  destruct M1 as (ds' & F' & NE' & E1 & ->).
  inversion K; subst y. simpl.
  assert (Eq : ds ++ s_ ".png" = ds' ++ s_ ".png" ++ s1).
  { simpl in E1. inversion E1 as [E2]. exact E2. }
  destruct (run_unique is_digit ds ds' (s_ ".png") (s_ ".png" ++ s1)
              F F' eq_refl eq_refl Eq) as [-> _].
  reflexivity.
Qed.

Lemma keyed_ok names ks :
  Interior.keyed names = Ok ks ->
  map snd ks = names
  /\ Forall (fun kp => Interior.sort_key (snd kp) = Ok (fst kp)) ks.
Proof.
  revert ks. induction names as [|p rest IH]; intros ks H; simpl in H.
  - inversion H; subst. split; constructor.
  - destruct (Interior.sort_key p) as [k|e] eqn:K; simpl in H; [|discriminate].
    destruct (Interior.keyed rest) as [ks'|e] eqn:E; simpl in H; [|discriminate].
    inversion H; subst. destruct (IH ks' eq_refl) as [M F].
    split; [simpl; rewrite M; reflexivity|].
    constructor; [exact K | exact F].
Qed.

Lemma keyed_total names :
  (forall p, In p names -> exists k, Interior.sort_key p = Ok k) ->
  exists ks, Interior.keyed names = Ok ks.
Proof.
  induction names as [|p rest IH]; intros H; simpl; [eauto|].
  destruct (H p (or_introl eq_refl)) as [k ->].
  destruct IH as [ks ->]; [intros q Hq; apply H; right; exact Hq|].
  simpl. eauto.
Qed.

Lemma sorted_files_ok W files :
  Interior.sorted_files W = Ok files ->
  Permutation files (glob (Interior.listing W))
  /\ StronglySorted
       (fun a b => forall ka kb,
            Interior.sort_key a = Ok ka -> Interior.sort_key b = Ok kb ->
            ka <= kb) files.
Proof.
  unfold Interior.sorted_files. intros H.
  destruct (Interior.keyed (glob (Interior.listing W))) as [ks|e] eqn:E;
    simpl in H; [|discriminate].
  inversion H; subst files; clear H.
  destruct (keyed_ok _ _ E) as [M F]. split.
  - rewrite <- M. apply Permutation_map, Permutation_sym, sort_by_perm.
  - apply strongly_sorted_map.
    eapply strongly_sorted_weaken; [|apply (sort_by_sorted fst)].
    intros x y Hx Hy L ka kb Ka Kb.
    apply (Permutation_in _ (Permutation_sym (sort_by_perm _ ks))) in Hx, Hy.
    rewrite Forall_forall in F.
    rewrite (F x Hx) in Ka. rewrite (F y Hy) in Kb.
    inversion Ka; inversion Kb; subst. exact L.
Qed.

(** The files come in ascending order of the numbers written in their
    names. *)
Lemma sorted_files_page_order W files :
  Interior.sorted_files W = Ok files -> StronglySorted page_order files.
Proof.
  intros H. destruct (sorted_files_ok W files H) as [_ S].
  eapply strongly_sorted_weaken; [|exact S].
  intros a b _ _ L da db Fa Na Fb Nb -> ->.
  apply L; apply sort_key_page_name; assumption.
Qed.

Lemma new_blank_page_ok tw th dpi pg :
  Interior.new_blank_page tw th dpi = Ok pg ->
  pg = (Interior.inches_to_px tw dpi, Interior.inches_to_px th dpi)
  /\ 0 <= fst pg /\ 0 <= snd pg.
Proof.
  unfold Interior.new_blank_page.
  destruct ((Interior.inches_to_px tw dpi <? 0)
            || (Interior.inches_to_px th dpi <? 0)) eqn:N; [discriminate|].
  intros H. inversion H; subst. apply orb_false_iff in N.
  destruct N as [Nw Nh]. apply Z.ltb_ge in Nw, Nh. auto.
Qed.

Lemma new_blank_page_cases tw th dpi :
  (0 <= Interior.inches_to_px tw dpi /\ 0 <= Interior.inches_to_px th dpi
   /\ Interior.new_blank_page tw th dpi
      = Ok (Interior.inches_to_px tw dpi, Interior.inches_to_px th dpi))
  \/ ((Interior.inches_to_px tw dpi < 0 \/ Interior.inches_to_px th dpi < 0)
      /\ Interior.new_blank_page tw th dpi = Raise ValueError).
Proof.
  unfold Interior.new_blank_page.
  destruct (Interior.inches_to_px tw dpi <? 0) eqn:Nw;
    [right; apply Z.ltb_lt in Nw; auto|].
  destruct (Interior.inches_to_px th dpi <? 0) eqn:Nh;
    [right; apply Z.ltb_lt in Nh; auto|].
  left. apply Z.ltb_ge in Nw, Nh. auto.
Qed.

Lemma coloring_page_file W tw th dpi mw mh f pg :
  Interior.coloring_page W tw th dpi mw mh f = Ok pg ->
  Interior.coloring_of f pg.
Proof.
  unfold Interior.coloring_page. intros E.
  destruct (Interior.open_image W f) as [[iw ih]|e]; simpl in E;
    [|discriminate].
  destruct ((iw =? 0) || (ih =? 0)); [discriminate|].
  destruct (_ || _); [discriminate|].
  destruct (Interior.new_blank_page tw th dpi) as [sz|e]; simpl in E;
    [|discriminate].
  inversion E; subst. reflexivity.
Qed.

Lemma coloring_loop_ok W tw th dpi mw mh files pages out :
  Interior.coloring_loop W tw th dpi mw mh files pages = Ok out ->
  exists cps, out = pages ++ cps /\ Forall2 Interior.coloring_of files cps.
Proof.
  revert pages. induction files as [|f rest IH]; intros pages H; simpl in H.
  - inversion H; subst. exists []. rewrite app_nil_r. split; constructor.
  - destruct (Interior.coloring_page W tw th dpi mw mh f) as [pg|e] eqn:E;
      simpl in H; [|discriminate].
    destruct (IH _ H) as (cps & -> & F).
    exists (pg :: cps). rewrite <- app_assoc. split; [reflexivity|].
    constructor; [|exact F].
    apply (coloring_page_file _ _ _ _ _ _ _ _ E).
Qed.

Lemma add_front_matter_ok W pages tw th dpi out :
  Interior.add_front_matter W pages tw th dpi = Ok out ->
  exists p1 p2, out = pages ++ [p1; p2]
    /\ Interior.is_belongs_to p1 = true /\ Interior.is_copyright p2 = true.
Proof.
  unfold Interior.add_front_matter. intros H.
  destruct (Interior.pick_first_existing_font W Interior.DEFAULT_FONTS);
    simpl in H; [|discriminate].
  destruct (Interior.new_blank_page tw th dpi) as [sz|e]; simpl in H;
    [|discriminate].
  destruct (Interior.textbbox W 100 Interior.belongs_text) as [[[b0 b1] b2] b3].
  destruct (Interior.textbbox W 60 Interior.copyright_text) as [[[c0 c1] c2] c3].
  inversion H; subst. rewrite <- app_assoc. simpl. eauto.
Qed.

(** C6: the document an interior build exports has exactly 2 + N pages
    for the N coloring images discovered: the "belongs to" page, the
    copyright page, then one coloring page per discovered image, each
    image once, in ascending order of the number written in the file
    names [fbnp_<N>.png]. *)
Theorem build_interior_pages (W : Interior.World) (trim : Q * Q) (dpi : Z)
  (margin_in : Q) (no_bleed : bool) (doc : list Interior.page) :
  Interior.build_interior W trim dpi margin_in no_bleed = Ok doc ->
  let discovered := glob (Interior.listing W) in
  exists p1 p2 files cps,
    doc = p1 :: p2 :: cps
    /\ Interior.is_belongs_to p1 = true
    /\ Interior.is_copyright p2 = true
    /\ Forall2 Interior.coloring_of files cps
    /\ Permutation files discovered
    /\ StronglySorted page_order files
    /\ List.length doc = (2 + List.length discovered)%nat.
Proof.
  intros H discovered. unfold Interior.build_interior in H.
  destruct (Interior.add_front_matter W [] (fst trim) (snd trim) dpi)
    as [fm|e] eqn:Efm; simpl in H; [|discriminate].
  destruct (add_front_matter_ok _ _ _ _ _ _ Efm) as (p1 & p2 & -> & B & C).
  unfold Interior.add_coloring_pages in H.
  destruct (Interior.sorted_files W) as [files|e] eqn:Es; simpl in H;
    [|discriminate].
  destruct (sorted_files_ok _ _ Es) as [P _].
  pose proof (sorted_files_page_order _ _ Es) as S.
  destruct files as [|f0 fs] eqn:Ef; [discriminate|]. rewrite <- Ef in *.
  match type of H with
  | context [Interior.coloring_loop ?a ?b ?c ?d ?e ?g ?h ?i] =>
      destruct (Interior.coloring_loop a b c d e g h i) as [out|e'] eqn:El;
        simpl in H; [|discriminate]
  end.
  destruct (coloring_loop_ok _ _ _ _ _ _ _ _ _ El) as (cps & -> & F).
  simpl in H. inversion H; subst doc.
  exists p1, p2, files, cps. repeat split; try assumption.
  simpl. f_equal. f_equal.
  rewrite <- (Forall2_length F). apply Permutation_length, P.
Qed.

Lemma build_interior_pages_witness :
  exists doc p1 p2 cps,
    Interior.build_interior Interior.sample_world (85 # 10, 11 # 1) 300
      (1 # 2) true = Ok doc
    /\ doc = p1 :: p2 :: cps
    /\ List.length doc = 5%nat.
Proof.
  destruct (Interior.build_interior Interior.sample_world (85 # 10, 11 # 1)
              300 (1 # 2) true) as [doc|e] eqn:E;
    [|vm_compute in E; discriminate].
  destruct (build_interior_pages Interior.sample_world (85 # 10, 11 # 1) 300
              (1 # 2) true doc E)
    as (p1 & p2 & files & cps & D & _ & _ & _ & _ & _ & L).
  exists doc, p1, p2, cps. split; [reflexivity|]. split; [exact D|].
  exact L.
Defined.

Example build_interior_sample :
  match Interior.build_interior Interior.sample_world (85 # 10, 11 # 1) 300
          (1 # 2) true with
  | Ok [Interior.BelongsTo _ _ _; Interior.Copyright _ _;
        Interior.Coloring _ f1 _ _; Interior.Coloring _ f2 _ _;
        Interior.Coloring _ f3 _ _] =>
      f1 = s_ "fbnp_1.png" /\ f2 = s_ "fbnp_2.png" /\ f3 = s_ "fbnp_10.png"
  | _ => False
  end.
Proof. vm_compute. auto. Qed.

(** A globbed name without a numeric suffix (the cover image of the
    same title, say) stops the build in the sort key. *)
Example build_interior_cover_present :
  Interior.build_interior
    {| Interior.path_exists := Interior.path_exists Interior.sample_world;
       Interior.listing := [s_ "fbnp_1.png"; s_ "fbnp_cover.png"];
       Interior.open_image := Interior.open_image Interior.sample_world;
       Interior.textbbox := Interior.textbbox Interior.sample_world |}
    (85 # 10, 11 # 1) 300 (1 # 2) true
  = Raise AttributeError.
Proof. vm_compute. reflexivity. Qed.

(** ** cover_builder.py: the trim is parsed before anything is built *)

Lemma cover_main_bad_trim {G : RandomGen} (W : Cover.World)
  title description pages pp trim_arg max_images spine_title bg seed_arg st :
  Cover.parse_trim trim_arg = Raise ValueError ->
  Cover.main W title description pages pp trim_arg max_images spine_title
    bg seed_arg st = (Raise ValueError, st).
Proof.
  intros H. unfold Cover.main, Cover.mbind, Cover.lift. rewrite H. reflexivity.
Qed.

Lemma interior_main_bad_trim (W : Interior.World) trim_arg dpi margin nb :
  Interior.parse_trim trim_arg = Raise ValueError ->
  Interior.main W trim_arg dpi margin nb = Raise ValueError.
Proof. intros H. unfold Interior.main. rewrite H. reflexivity. Qed.

(** C8, as stated, fails for the cover script: a trim string that is
    not of the form [<number>x<number>] (white space inside, a capital
    X) is parsed, not rejected. *)
Lemma parse_trim_counterexample :
  ~ is_trim_form (s_ " 8.5 X 11 ")
  /\ Cover.parse_trim (s_ " 8.5 X 11 ") = Ok (17 # 2, 11 # 1).
Proof.
  split; [apply padded_not_trim_form; reflexivity | vm_compute; reflexivity].
Qed.

(** The interior pattern ends in [$], which also matches before a final
    newline. *)
Example interior_parse_trim_newline :
  Interior.parse_trim (s_ "8.5x11" ++ [newline]) = Ok (17 # 2, 11 # 1).
Proof. vm_compute. reflexivity. Qed.

(** C8, amended: every string [<number>x<number>] parses, in both
    scripts, to the two numbers written in it.  The cover script also
    accepts white space around the numbers and the [x], and a capital X,
    and raises the invalid-argument error for every other string; the
    interior script raises it for every string that is not of the form
    and does not end in a newline.  In both scripts [main] raises that
    error before it builds anything. *)
Theorem parse_trim_round_trip_and_rejection :
  (forall n1 n2, is_numeral n1 = true -> is_numeral n2 = true ->
     Cover.parse_trim (trim_form n1 n2) = Ok (numeral_val n1, numeral_val n2)
     /\ Interior.parse_trim (trim_form n1 n2)
        = Ok (numeral_val n1, numeral_val n2))
  /\ (forall s,
        (exists w0 n1 w1 w2 n2 w3,
            forallb is_space w0 = true /\ forallb is_space w1 = true
            /\ forallb is_space w2 = true /\ forallb is_space w3 = true
            /\ is_numeral n1 = true /\ is_numeral n2 = true
            /\ lower s = w0 ++ n1 ++ w1 ++ "x"%char :: w2 ++ n2 ++ w3
            /\ Cover.parse_trim s = Ok (numeral_val n1, numeral_val n2))
        \/ Cover.parse_trim s = Raise ValueError)
  /\ (forall s, ~ is_trim_form s -> (forall r, s <> r ++ [newline]) ->
        Interior.parse_trim s = Raise ValueError)
  /\ (forall (G : RandomGen) (W : Cover.World) title description pages pp
             trim_arg max_images spine_title bg seed_arg st,
        Cover.parse_trim trim_arg = Raise ValueError ->
        Cover.main W title description pages pp trim_arg max_images
          spine_title bg seed_arg st = (Raise ValueError, st))
  /\ (forall (W : Interior.World) trim_arg dpi margin nb,
        Interior.parse_trim trim_arg = Raise ValueError ->
        Interior.main W trim_arg dpi margin nb = Raise ValueError).
Proof.
  split; [|split; [|split; [|split]]].
  - intros n1 n2 H1 H2. split.
    + apply cover_parse_trim_form; assumption.
    + apply interior_parse_trim_form; assumption.
  - apply cover_parse_trim_inv.
  - apply interior_parse_trim_rejects.
  - intros. apply cover_main_bad_trim. assumption.
  - intros. apply interior_main_bad_trim. assumption.
Qed.

Lemma parse_trim_round_trip_and_rejection_witness :
  Cover.parse_trim (trim_form (s_ "8.5") (s_ "11"))
  = Ok (numeral_val (s_ "8.5"), numeral_val (s_ "11"))
  /\ Interior.parse_trim (trim_form (s_ "8.5") (s_ "11"))
     = Ok (numeral_val (s_ "8.5"), numeral_val (s_ "11")).
Proof.
  destruct parse_trim_round_trip_and_rejection as [H _].
  apply (H (s_ "8.5") (s_ "11")); reflexivity.
Defined.

(** ** cover_builder.py: sample builds *)

(** Without a seed the choices follow the generator. *)
Example unseeded_builds_differ :
  fst (Cover.sample_run true 30 None (s_ "#AABBCC") None 7)
  <> fst (Cover.sample_run true 30 None (s_ "#AABBCC") None 8).
Proof. vm_compute. intros H. inversion H. Qed.

(** With one, the sample build places four sheets, front and back in
    turn, each tilted by at most 15 degrees. *)
Example seeded_sample_build :
  match fst (Cover.sample_run true 30 None (s_ "#AABBCC") (Some 42) 7) with
  | Ok c =>
      Cover.all_boxes c
      = [((4306, -122, 4986, 1227), (-1500 # 1000)%Q);
         ((1814, 1636, 2494, 2985), (-1230 # 1000)%Q);
         ((2682, 1793, 3362, 3142), (5640 # 1000)%Q);
         ((964, -111, 1644, 1238), (8070 # 1000)%Q)]
  | Raise _ => False
  end.
Proof. vm_compute. reflexivity. Qed.

(** ** Image objects: allocation and mutation in place *)

Lemma length_set_nth {A : Type} (l : list A) i v :
  List.length (set_nth l i v) = List.length l.
Proof.
  revert i. induction l as [|a t IH]; intros [|i]; simpl; auto.
Qed.

Lemma nth_set_nth_same {A : Type} (l : list A) i v d :
  (i < List.length l)%nat -> nth i (set_nth l i v) d = v.
Proof.
  revert i. induction l as [|a t IH]; intros [|i] H; simpl in *; try lia; auto.
  apply IH. lia.
Qed.

Lemma nth_set_nth_other {A : Type} (l : list A) i j v d :
  i <> j -> nth i (set_nth l j v) d = nth i l d.
Proof.
  revert i j. induction l as [|a t IH]; intros [|i] [|j] H; simpl; auto.
  congruence.
Qed.

Lemma nth_alloc_new {A : Type} (l : list A) a d :
  nth (List.length l) (l ++ [a]) d = a.
Proof. rewrite app_nth2, Nat.sub_diag; [reflexivity | lia]. Qed.

Lemma nth_alloc_old {A : Type} (l : list A) a i d :
  (i < List.length l)%nat -> nth i (l ++ [a]) d = nth i l d.
Proof. intros H. apply app_nth1. exact H. Qed.

Section HeapFrames.

Context {G : RandomGen}.

Lemma extends_refl keep st : extends keep st st.
Proof. unfold extends. auto. Qed.

Lemma extends_trans keep st1 st2 st3 :
  extends keep st1 st2 -> extends keep st2 st3 -> extends keep st1 st3.
Proof.
  unfold extends. intros (R1 & L1 & N1) (R2 & L2 & N2).
  repeat split; [congruence | lia | congruence].
Qed.

Lemma mutate_extends keep id f st :
  id <> keep ->
  exists st',
    Cover.mutate id f st = (Ok tt, st')
    /\ extends keep st st'
    /\ List.length (Cover.heap st') = List.length (Cover.heap st).
Proof.
  intros NE. eexists. split; [reflexivity|].
  unfold extends. cbn [Cover.rng Cover.heap]. rewrite length_set_nth.
  repeat split; [lia|]. apply nth_set_nth_other. congruence.
Qed.

Lemma image_new_extends keep md size c st :
  0 <= fst size -> 0 <= snd size ->
  (keep < List.length (Cover.heap st))%nat ->
  exists st',
    Cover.image_new md size c st = (Ok (List.length (Cover.heap st)), st')
    /\ extends keep st st'
    /\ List.length (Cover.heap st') = S (List.length (Cover.heap st))
    /\ nth (List.length (Cover.heap st)) (Cover.heap st') blank
       = New md size c.
Proof.
  intros Hw Hh K. unfold Cover.image_new.
  replace ((fst size <? 0) || (snd size <? 0)) with false
    by (symmetry; apply orb_false_iff; split; apply Z.ltb_ge; assumption).
  eexists. split; [reflexivity|].
  unfold extends. cbn [Cover.rng Cover.heap].
  rewrite length_app. simpl.
  repeat split; try lia.
  - apply nth_alloc_old. exact K.
  - apply nth_alloc_new.
Qed.

Lemma mask_rows_extends keep mask w h ys st :
  mask <> keep ->
  exists st',
    Cover.mask_rows mask w h ys st = (Ok tt, st')
    /\ extends keep st st'
    /\ List.length (Cover.heap st') = List.length (Cover.heap st).
Proof.
  intros NE. revert st. induction ys as [|y rest IH]; intros st.
  - exists st. split; [reflexivity|].
    split; [apply extends_refl | reflexivity].
  - simpl Cover.mask_rows. unfold Cover.mbind.
    destruct (mutate_extends keep mask
                (Line (Z.of_nat y) (Cover.mask_value h (Z.of_nat y))) st NE)
      as (st1 & E & X & L).
    rewrite E.
    destruct (IH st1) as (st2 & E2 & X2 & L2).
    exists st2. split; [exact E2|].
    split; [eapply extends_trans; eauto | congruence].
Qed.

End HeapFrames.

(** ** cover_builder.py: the background *)

Section BackgroundSpec.

Context {G : RandomGen}.

Lemma mbind_ok {A B : Type} (m : Cover.M A) (k : A -> Cover.M B) st a st' :
  m st = (Ok a, st') -> Cover.mbind m k st = k a st'.
Proof. intros E. unfold Cover.mbind. rewrite E. reflexivity. Qed.

Lemma mbind_raise {A B : Type} (m : Cover.M A) (k : A -> Cover.M B) st e st' :
  m st = (Raise e, st') -> Cover.mbind m k st = (Raise e, st').
Proof. intros E. unfold Cover.mbind. rewrite E. reflexivity. Qed.

Lemma load_ok id st :
  Cover.load id st = (Ok (nth id (Cover.heap st) blank), st).
Proof. reflexivity. Qed.

Lemma lift_ok {A : Type} (r : result A) a st :
  r = Ok a -> Cover.lift r st = (Ok a, st).
Proof. intros ->. reflexivity. Qed.

Lemma draw_gradient_extends keep bg top_hex bottom_hex ct cb st :
  getrgb top_hex = Ok ct -> getrgb bottom_hex = Ok cb ->
  (keep < List.length (Cover.heap st))%nat -> bg <> keep ->
  0 <= fst (size_of (nth bg (Cover.heap st) blank)) ->
  0 <= snd (size_of (nth bg (Cover.heap st) blank)) ->
  exists st',
    Cover.draw_gradient bg top_hex bottom_hex st = (Ok tt, st')
    /\ extends keep st st'.
Proof.
  intros Ht Hb K NE Sw Sh. unfold Cover.draw_gradient.
  rewrite (mbind_ok _ _ _ _ _ (load_ok bg st)).
  set (b := nth bg (Cover.heap st) blank) in *.
  rewrite (mbind_ok _ _ _ _ _ (lift_ok _ _ st Ht)).
  destruct (image_new_extends keep RGB (size_of b) ct st Sw Sh K)
    as (st1 & E1 & X1 & L1 & _).
  rewrite (mbind_ok _ _ _ _ _ E1).
  rewrite (mbind_ok _ _ _ _ _ (lift_ok _ _ st1 Hb)).
  destruct (image_new_extends keep RGB (size_of b) cb st1 Sw Sh ltac:(lia))
    as (st2 & E2 & X2 & L2 & _).
  rewrite (mbind_ok _ _ _ _ _ E2).
  destruct (image_new_extends keep L (size_of b) (0, 0, 0, 255) st2 Sw Sh
              ltac:(lia)) as (st3 & E3 & X3 & L3 & _).
  rewrite (mbind_ok _ _ _ _ _ E3).
  destruct (mask_rows_extends keep (List.length (Cover.heap st2))
              (width b) (height b) (seq 0 (Z.to_nat (height b))) st3
              ltac:(lia)) as (st4 & E4 & X4 & L4).
  rewrite (mbind_ok _ _ _ _ _ E4).
  rewrite (mbind_ok _ _ _ _ _ (load_ok _ st4)).
  destruct (mutate_extends keep bg
              (Paste (nth (List.length (Cover.heap st)) (Cover.heap st4) blank))
              st4 NE) as (st5 & E5 & X5 & L5).
  rewrite (mbind_ok _ _ _ _ _ E5).
  rewrite (mbind_ok _ _ _ _ _ (load_ok _ st5)).
  rewrite (mbind_ok _ _ _ _ _ (load_ok _ st5)).
  match goal with |- exists st', Cover.mutate bg ?f st5 = _ /\ _ =>
    destruct (mutate_extends keep bg f st5 NE) as (st6 & E6 & X6 & L6)
  end.
  exists st6. split; [exact E6|].
  repeat (eapply extends_trans; [eassumption|]). apply extends_refl.
Qed.

Lemma palette_index_range md bg :
  0 <= Cover.palette_index md bg <= 4.
Proof.
  unfold Cover.palette_index.
  destruct (py_int md _); simpl; lia.
Qed.

Lemma palette_colors md bg :
  let pal := nth (Z.to_nat (Cover.palette_index md bg))
               Cover.PASTEL_PALETTES ([], []) in
  exists ct cb, getrgb (fst pal) = Ok ct /\ getrgb (snd pal) = Ok cb.
Proof.
  pose proof (palette_index_range md bg) as R.
  assert (C : Z.to_nat (Cover.palette_index md bg) = 0%nat
              \/ Z.to_nat (Cover.palette_index md bg) = 1%nat
              \/ Z.to_nat (Cover.palette_index md bg) = 2%nat
              \/ Z.to_nat (Cover.palette_index md bg) = 3%nat
              \/ Z.to_nat (Cover.palette_index md bg) = 4%nat) by lia.
  destruct C as [E|[E|[E|[E|E]]]]; rewrite E;
    do 2 eexists; split; vm_compute; reflexivity.
Qed.

End BackgroundSpec.

Section GradientSpec.

Context {G : RandomGen}.

Lemma image_new_first md size c st :
  0 <= fst size -> 0 <= snd size ->
  Cover.image_new md size c st
  = (Ok (List.length (Cover.heap st)),
     Cover.mkState (Cover.rng st) (Cover.heap st ++ [New md size c])).
Proof.
  intros Hw Hh. unfold Cover.image_new.
  replace ((fst size <? 0) || (snd size <? 0)) with false
    by (symmetry; apply orb_false_iff; split; apply Z.ltb_ge; assumption).
  reflexivity.
Qed.

Lemma convert_ok id md st :
  Cover.convert id md st
  = (Ok (List.length (Cover.heap st)),
     Cover.mkState (Cover.rng st)
       (Cover.heap st ++ [Convert md (nth id (Cover.heap st) blank)])).
Proof. reflexivity. Qed.

(** The gradient branch leaves the canvas white: the gradient is
    drawn on the copy [base.convert("RGB")], and [base] is then bound to
    a copy of the untouched canvas. *)
Lemma background_gradient md total bg st :
  startswith (s_ "gradient:pastel") bg = true ->
  0 <= Cover.w total -> 0 <= Cover.h total ->
  exists base st',
    Cover.background md total bg st = (Ok base, st')
    /\ Cover.rng st' = Cover.rng st
    /\ nth base (Cover.heap st') blank
       = Convert RGBA (New RGBA (Cover.w total, Cover.h total) rgba_white).
Proof.
  intros P Hw Hh. unfold Cover.background.
  rewrite (mbind_ok _ _ _ _ _
             (image_new_first RGBA (Cover.w total, Cover.h total)
                rgba_white st Hw Hh)).
  rewrite P.
  set (n0 := List.length (Cover.heap st)).
  set (white_canvas := New RGBA (Cover.w total, Cover.h total) rgba_white).
  remember (Cover.mkState (Cover.rng st) (Cover.heap st ++ [white_canvas]))
    as st1 eqn:Est1.
  rewrite (mbind_ok _ _ _ _ _ (convert_ok n0 RGB st1)).
  assert (H1 : Cover.heap st1 = Cover.heap st ++ [white_canvas])
    by (rewrite Est1; reflexivity).
  assert (B1 : nth n0 (Cover.heap st1) blank = white_canvas)
    by (rewrite H1; apply nth_alloc_new).
  assert (L1 : List.length (Cover.heap st1) = S n0)
    by (rewrite H1, length_app; simpl; fold n0; lia).
  rewrite B1.
  remember (Cover.mkState (Cover.rng st1)
              (Cover.heap st1 ++ [Convert RGB white_canvas])) as st2 eqn:Est2.
  assert (H2 : Cover.heap st2
               = Cover.heap st1 ++ [Convert RGB white_canvas])
    by (rewrite Est2; reflexivity).
  assert (B2 : nth n0 (Cover.heap st2) blank = white_canvas).
  { rewrite H2, nth_alloc_old by lia. exact B1. }
  assert (T2 : nth (List.length (Cover.heap st1)) (Cover.heap st2) blank
               = Convert RGB white_canvas)
    by (rewrite H2; apply nth_alloc_new).
  assert (L2 : List.length (Cover.heap st2) = S (S n0))
    by (rewrite H2, length_app, L1; simpl; lia).
  assert (R2 : Cover.rng st2 = Cover.rng st)
    by (rewrite Est2, Est1; reflexivity).
  destruct (palette_colors md bg) as (ct & cb & Ht & Hb).
  destruct (draw_gradient_extends n0 (List.length (Cover.heap st1))
              _ _ ct cb st2 Ht Hb) as (st3 & E3 & X3).
  - lia.
  - lia.
  - rewrite T2. exact Hw.
  - rewrite T2. exact Hh.
  - rewrite (mbind_ok _ _ _ _ _ E3).
    rewrite convert_ok. do 2 eexists. split; [reflexivity|].
    destruct X3 as (R3 & _ & N3). cbn [Cover.rng Cover.heap].
    split; [congruence|].
    rewrite nth_alloc_new, N3, B2. reflexivity.
Qed.

End GradientSpec.

Lemma palette_tops_not_white :
  Forall (fun pal => getrgb (fst pal) <> Ok rgba_white
                     /\ getrgb (snd pal) <> Ok rgba_white)
    Cover.PASTEL_PALETTES.
Proof. repeat constructor; vm_compute; discriminate. Qed.

(** C2 at the gradient specification: the canvas the build goes on with
    is opaque white at every pixel, for every [gradient:pastel...]
    specification, while the palette's top and bottom colours are never
    white: no gradient reaches the canvas. *)
Theorem gradient_background_stays_white {G : RandomGen}
  (max_digits : nat) (total : Cover.Size) (bg : str) (st : Cover.state) :
  startswith (s_ "gradient:pastel") bg = true ->
  0 <= Cover.w total -> 0 <= Cover.h total ->
  exists base st',
    Cover.background max_digits total bg st = (Ok base, st')
    /\ (forall x y, 0 <= x < Cover.w total -> 0 <= y < Cover.h total ->
          pixel (nth base (Cover.heap st') blank) x y = Some rgba_white)
    /\ let pal := nth (Z.to_nat (Cover.palette_index max_digits bg))
                    Cover.PASTEL_PALETTES ([], []) in
       getrgb (fst pal) <> Ok rgba_white /\ getrgb (snd pal) <> Ok rgba_white.
Proof.
  intros P Hw Hh.
  destruct (background_gradient max_digits total bg st P Hw Hh)
    as (base & st' & E & _ & B).
  exists base, st'. split; [exact E|]. split.
  - intros x y Hx Hy. rewrite B. simpl.
    replace ((0 <=? x) && (x <? Cover.w total) && (0 <=? y)
             && (y <? Cover.h total)) with true; [reflexivity|].
    symmetry. repeat (apply andb_true_iff; split);
      try apply Z.leb_le; try apply Z.ltb_lt; lia.
  - pose proof (palette_index_range max_digits bg) as R.
    pose proof palette_tops_not_white as F.
    rewrite Forall_forall in F. apply F. apply nth_In. simpl. lia.
Qed.

Lemma gradient_background_stays_white_witness :
  exists base st',
    Cover.background (G := Lcg.generator) 4300
      (Cover.mkSize 5195 3375) (s_ "gradient:pastel:1")
      (Cover.initial (G := Lcg.generator) 7) = (Ok base, st')
    /\ pixel (nth base (Cover.heap st') blank) 0 0 = Some rgba_white.
Proof.
  destruct (gradient_background_stays_white (G := Lcg.generator) 4300
              (Cover.mkSize 5195 3375) (s_ "gradient:pastel:1")
              (Cover.initial (G := Lcg.generator) 7))
    as (base & st' & E & Px & _).
  - reflexivity.
  - simpl. lia.
  - simpl. lia.
  - exists base, st'. split; [exact E|]. apply Px; simpl; lia.
Defined.

(** ** cover_builder.py: the solid and the default background *)

Lemma matches_rep_cls_inv p k n s c n' s' c' :
  matches (Re.Rep k (Re.Cls p)) n s c n' s' c' ->
  exists pre, s = pre ++ s' /\ List.length pre = k /\ forallb p pre = true.
Proof.
  revert n s c. induction k as [|k IH]; intros n s c H; simpl in H.
  - inversion H; subst. exists []. auto.
  - apply matches_cat_inv in H. destruct H as (n1 & s1 & c1 & H1 & H2).
    apply matches_cls_inv in H1. destruct H1 as (ch & -> & P & -> & ->).
    apply IH in H2. destruct H2 as (pre & -> & L & F).
    exists (ch :: pre). simpl. rewrite P, F, L. auto.
Qed.

Lemma hex_match_inv bg gs :
  Re.match_ Cover.hex_re bg = Some gs ->
  exists hs t, List.length hs = 6%nat /\ forallb is_hex hs = true
    /\ Re.at_eol t = true
    /\ (bg = hs ++ t \/ bg = "#"%char :: hs ++ t).
Proof.
  unfold Re.match_. intros H. apply m_sound in H.
  destruct H as (n' & s' & c' & M & _).
  unfold Cover.hex_re, cat_all in M.
  apply matches_cat_inv in M. destruct M as (n0 & s0 & c0 & M0 & M).
  inversion M0; subst; clear M0.
  apply matches_cat_inv in M. destruct M as (n1 & s1 & c1 & M1 & M).
  apply matches_cat_inv in M. destruct M as (n2 & s2 & c2 & M2 & M3).
  apply matches_rep_cls_inv in M2. destruct M2 as (hs & -> & L & F).
  inversion M3; subst; clear M3.
  exists hs, s'. repeat split; try assumption.
  unfold Re.Opt in M1. inversion M1; subst; clear M1.
  - match goal with H : matches (Re.Chr _) _ _ _ _ _ _ |- _ =>
      apply matches_cls_inv in H; destruct H as (ch & -> & P & _ & _) end.
    apply is_char_eq in P. subst ch. right. reflexivity.
  - match goal with H : matches Re.Eps _ _ _ _ _ _ |- _ =>
      inversion H; subst; clear H end.
    left. reflexivity.
Qed.

Lemma not_hex_no_match bg :
  ~ is_hex_color bg -> (forall r, bg <> r ++ [newline]) ->
  Re.match_ Cover.hex_re bg = None.
Proof.
  intros NH NN. destruct (Re.match_ Cover.hex_re bg) as [gs|] eqn:E; [|auto].
  exfalso. apply hex_match_inv in E.
  destruct E as (hs & t & L & F & T & B).
  apply at_eol_inv in T. destruct T as [->| ->].
  - rewrite app_nil_r in B. apply NH. exists hs. auto.
  - destruct B as [->| ->].
    + apply (NN hs). reflexivity.
    + apply (NN ("#"%char :: hs)). reflexivity.
Qed.

Section Fallthrough.

Context {G : RandomGen}.

(** A specification that is neither a gradient nor matched by the hex
    pattern gets the default fill over the whole canvas. *)
Lemma background_default md total bg st :
  startswith (s_ "gradient:pastel") bg = false ->
  Re.match_ Cover.hex_re bg = None ->
  0 <= Cover.w total -> 0 <= Cover.h total ->
  exists st',
    Cover.background md total bg st
    = (Ok (List.length (Cover.heap st)), st')
    /\ nth (List.length (Cover.heap st)) (Cover.heap st') blank
       = Rect (0, 0, Cover.w total, Cover.h total) default_fill
           (New RGBA (Cover.w total, Cover.h total) rgba_white).
Proof.
  intros P Hx Hw Hh. unfold Cover.background.
  rewrite (mbind_ok _ _ _ _ _
             (image_new_first RGBA (Cover.w total, Cover.h total)
                rgba_white st Hw Hh)).
  rewrite P, Hx.
  rewrite (mbind_ok _ _ _ _ _ (lift_ok _ default_fill _ eq_refl)).
  eexists. unfold Cover.mbind, Cover.mutate, Cover.ret.
  split; [reflexivity|]. cbn [Cover.heap Cover.rng]. unfold blank.
  rewrite nth_set_nth_same by (rewrite length_app; simpl; lia).
  rewrite nth_alloc_new. reflexivity.
Qed.

Lemma background_falls_through md total bg st :
  startswith (s_ "gradient:pastel") bg = false ->
  ~ is_hex_color bg -> (forall r, bg <> r ++ [newline]) ->
  0 <= Cover.w total -> 0 <= Cover.h total ->
  exists base st',
    Cover.background md total bg st = (Ok base, st')
    /\ forall x y, 0 <= x < Cover.w total -> 0 <= y < Cover.h total ->
         pixel (nth base (Cover.heap st') blank) x y = Some default_fill.
Proof.
  intros P NH NN Hw Hh.
  destruct (background_default md total bg st P
              (not_hex_no_match bg NH NN) Hw Hh) as (st' & E & B).
  exists (List.length (Cover.heap st)), st'. split; [exact E|].
  intros x y Hx Hy. rewrite B. simpl.
  replace ((0 <=? x) && (x <? Cover.w total) && (0 <=? y)
           && (y <? Cover.h total)) with true
    by (symmetry; repeat (apply andb_true_iff; split);
        try apply Z.leb_le; try apply Z.ltb_lt; lia).
  replace ((0 <=? x) && (x <=? Cover.w total) && (0 <=? y)
           && (y <=? Cover.h total)) with true
    by (symmetry; repeat (apply andb_true_iff; split);
        apply Z.leb_le; lia).
  reflexivity.
Qed.

End Fallthrough.

(** C10 at a hex colour followed by a newline: the string is neither a
    gradient specification nor a 6-hex-digit colour, the pattern's [$]
    lets it through, and the fill colour built from it is one the imaging
    library rejects: the build raises instead of using the default
    fill. *)
Theorem hex_newline_fails_build :
  let bg := s_ "AABBCC" ++ [newline] in
  startswith (s_ "gradient:pastel") bg = false
  /\ ~ is_hex_color bg
  /\ (forall putchannel,
        fst (Cover.sample_run putchannel 30 None bg (Some 42) 7)
        = Raise ValueError)
  /\ fst (Cover.background (G := Lcg.generator) 4300 (Cover.mkSize 5195 3375)
            bg (Cover.initial (G := Lcg.generator) 7))
     = Raise ValueError.
Proof.
  cbv zeta. split; [reflexivity|]. split; [|split].
  - intros (hs & L & F & [E|E]).
    + rewrite <- E in L. simpl in L. discriminate.
    + inversion E.
  - intros []; vm_compute; reflexivity.
  - vm_compute. reflexivity.
Qed.

(** ** The solid background *)

Lemma hex_lower c : is_hex c = true -> is_lower_hex (lower_char c) = true.
Proof. by_cases_on_char c. Qed.

Lemma six_chars (hs : str) :
  List.length hs = 6%nat ->
  exists h1 h2 h3 h4 h5 h6, hs = [h1; h2; h3; h4; h5; h6].
Proof.
  destruct hs as [|h1 [|h2 [|h3 [|h4 [|h5 [|h6 [|h7 t]]]]]]]; simpl;
    try discriminate.
  intros _. do 6 eexists. reflexivity.
Qed.

Lemma getrgb_hex6 h1 h2 h3 h4 h5 h6 :
  forallb is_hex [h1; h2; h3; h4; h5; h6] = true ->
  let c := (hex_pair (lower_char h1) (lower_char h2),
            hex_pair (lower_char h3) (lower_char h4),
            hex_pair (lower_char h5) (lower_char h6), 255) in
  getrgb ("#"%char :: [h1; h2; h3; h4; h5; h6]) = Ok c
  /\ getrgb (("#"%char :: [h1; h2; h3; h4; h5; h6]) ++ s_ "ff") = Ok c.
Proof.
  simpl forallb. intros F.
  repeat (apply andb_true_iff in F; destruct F as [? F]).
  repeat match goal with
         | H : is_hex _ = true |- _ => apply hex_lower in H
         end.
  cbv zeta. unfold getrgb, Re.match_, lower. simpl map.
  change (lower_char "#") with "#"%char.
  change (lower_char "f") with "f"%char.
  split.
  - cbn -[lower_char is_lower_hex hex_pair].
    repeat match goal with
           | H : is_lower_hex _ = true |- _ => rewrite H; clear H
           end.
    cbn -[lower_char hex_pair]. reflexivity.
  - cbn -[lower_char is_lower_hex hex_pair].
    repeat match goal with
           | H : is_lower_hex _ = true |- _ => rewrite H; clear H
           end.
    cbn -[lower_char hex_pair]. reflexivity.
Qed.

Lemma matches_rep_cls_intro p pre n s' c :
  forallb p pre = true ->
  matches (Re.Rep (List.length pre) (Re.Cls p)) n (pre ++ s') c
    (n + List.length pre)%nat s' c.
Proof.
  revert n. induction pre as [|ch pre IH]; simpl; intros n F.
  - rewrite Nat.add_0_r. constructor.
  - apply andb_true_iff in F. destruct F as [P F].
    eapply M_Cat; [constructor; exact P|].
    replace (n + S (List.length pre))%nat with (S n + List.length pre)%nat by lia.
    apply IH. exact F.
Qed.

Lemma hex_match_complete hs :
  List.length hs = 6%nat -> forallb is_hex hs = true ->
  (exists gs, Re.match_ Cover.hex_re hs = Some gs)
  /\ (exists gs, Re.match_ Cover.hex_re ("#"%char :: hs) = Some gs).
Proof.
  intros L F. unfold Re.match_, Cover.hex_re, cat_all.
  pose proof (matches_rep_cls_intro is_hex hs) as R. rewrite L in R.
  split.
  - eapply m_complete; [|reflexivity].
    eapply M_Cat; [constructor|].
    eapply M_Cat; [apply M_AltR; constructor|].
    eapply M_Cat;
      [rewrite <- (app_nil_r hs) at 1; apply R; exact F|].
    constructor. reflexivity.
  - eapply m_complete; [|reflexivity].
    eapply M_Cat; [constructor|].
    eapply M_Cat; [apply M_AltL; constructor; reflexivity|].
    eapply M_Cat;
      [rewrite <- (app_nil_r hs) at 1; apply R; exact F|].
    constructor. reflexivity.
Qed.

Lemma hex_not_g c p s :
  is_hex c = true -> startswith ("g"%char :: p) (c :: s) = false.
Proof. by_cases_on_char c. Qed.

Lemma hex_not_hash c p s :
  is_hex c = true -> startswith ("#"%char :: p) (c :: s) = false.
Proof. by_cases_on_char c. Qed.

Section Solid.

Context {G : RandomGen}.

(** A 6-hex-digit colour, with or without [#], fills the whole canvas
    with the colour the library reads from [#RRGGBB]. *)
Lemma background_solid md total bg hs st :
  List.length hs = 6%nat -> forallb is_hex hs = true ->
  bg = hs \/ bg = "#"%char :: hs ->
  0 <= Cover.w total -> 0 <= Cover.h total ->
  exists c base st',
    getrgb ("#"%char :: hs) = Ok c
    /\ Cover.background md total bg st = (Ok base, st')
    /\ forall x y, 0 <= x < Cover.w total -> 0 <= y < Cover.h total ->
         pixel (nth base (Cover.heap st') blank) x y = Some c.
Proof.
  intros L F B Hw Hh.
  destruct (hex_match_complete hs L F) as [[g1 M1] [g2 M2]].
  destruct (six_chars hs L) as (h1 & h2 & h3 & h4 & h5 & h6 & ->).
  destruct (getrgb_hex6 h1 h2 h3 h4 h5 h6 F) as [C6 C8].
  eexists. exists (List.length (Cover.heap st)). eexists.
  split; [exact C6|].
  assert (NG : startswith (s_ "gradient:pastel") bg = false).
  { simpl in F. apply andb_true_iff in F. destruct F as [F1 _].
    destruct B as [->| ->]; [|reflexivity].
    apply hex_not_g. exact F1. }
  assert (Fill : getrgb ((if startswith (s_ "#") bg then bg
                          else s_ "#" ++ bg) ++ s_ "ff")
                 = getrgb (("#"%char :: [h1; h2; h3; h4; h5; h6]) ++ s_ "ff")).
  { destruct B as [->| ->]; [|reflexivity].
    replace (startswith (s_ "#") [h1; h2; h3; h4; h5; h6]) with false;
      [reflexivity|].
    simpl in F. apply andb_true_iff in F. destruct F as [F1 _].
    symmetry. apply hex_not_hash. exact F1. }
  assert (Mt : exists gs, Re.match_ Cover.hex_re bg = Some gs)
    by (destruct B as [->| ->]; eauto).
  destruct Mt as [gs Mt].
  unfold Cover.background.
  rewrite (mbind_ok _ _ _ _ _
             (image_new_first RGBA (Cover.w total, Cover.h total)
                rgba_white st Hw Hh)).
  rewrite NG, Mt.
  match goal with
  | |- context [Cover.lift (getrgb ?a)] =>
      replace (getrgb a)
        with (Ok (hex_pair (lower_char h1) (lower_char h2),
                  hex_pair (lower_char h3) (lower_char h4),
                  hex_pair (lower_char h5) (lower_char h6), 255))
        by (symmetry; etransitivity; [exact Fill | exact C8])
  end.
  unfold Cover.mbind, Cover.lift, Cover.mutate, Cover.ret.
  split; [reflexivity|]. cbn [Cover.heap Cover.rng]. unfold blank.
  intros x y Hx Hy.
  rewrite nth_set_nth_same by (rewrite length_app; simpl; lia).
  rewrite nth_alloc_new. simpl.
  replace ((0 <=? x) && (x <? Cover.w total) && (0 <=? y)
           && (y <? Cover.h total)) with true
    by (symmetry; repeat (apply andb_true_iff; split);
        try apply Z.leb_le; try apply Z.ltb_lt; lia).
  replace ((0 <=? x) && (x <=? Cover.w total) && (0 <=? y)
           && (y <=? Cover.h total)) with true
    by (symmetry; repeat (apply andb_true_iff; split);
        apply Z.leb_le; lia).
  reflexivity.
Qed.

End Solid.

(** ** cover_builder.py: where spine text can come from *)

Section Clean.

Context {G : RandomGen}.

Lemma clean_ret {A : Type} (Q : A -> Prop) a :
  Q a -> keeps_clean Q (Cover.ret a).
Proof.
  intros H st P. split; [exact P|]. intros b E. inversion E; subst. exact H.
Qed.

Lemma clean_throw {A : Type} (Q : A -> Prop) e :
  keeps_clean Q (Cover.throw e).
Proof. intros st P. split; [exact P|]. intros b E. discriminate. Qed.

Lemma clean_lift {A : Type} (Q : A -> Prop) (r : result A) :
  (forall a, r = Ok a -> Q a) -> keeps_clean Q (Cover.lift r).
Proof. intros H st P. split; [exact P|]. exact H. Qed.

Lemma clean_bind {A B : Type} (Q : A -> Prop) (R : B -> Prop)
  (m : Cover.M A) (k : A -> Cover.M B) :
  keeps_clean Q m -> (forall a, Q a -> keeps_clean R (k a)) ->
  keeps_clean R (Cover.mbind m k).
Proof.
  intros Hm Hk st P. unfold Cover.mbind.
  destruct (Hm st P) as [P1 Q1].
  destruct (m st) as [[a|e] st1]; simpl in *.
  - apply (Hk a (Q1 a eq_refl) st1 P1).
  - split; [exact P1|]. intros b E. discriminate.
Qed.

Lemma clean_weaken {A : Type} (Q R : A -> Prop) (m : Cover.M A) :
  (forall a, Q a -> R a) -> keeps_clean Q m -> keeps_clean R m.
Proof.
  intros I H st P. destruct (H st P) as [P1 Q1]. split; [exact P1|].
  intros a E. apply I, Q1, E.
Qed.

Lemma clean_load id : keeps_clean no_spine_text (Cover.load id).
Proof.
  intros st P. split; [exact P|]. intros a E. inversion E; subst.
  destruct (Nat.lt_ge_cases id (List.length (Cover.heap st))) as [L|L].
  - rewrite Forall_forall in P. apply P, nth_In, L.
  - rewrite nth_overflow by exact L. reflexivity.
Qed.

Lemma clean_alloc im :
  no_spine_text im -> keeps_clean any (Cover.alloc im).
Proof.
  intros H st P. split; [|intros; exact I]. simpl.
  apply Forall_app. split; [exact P|]. constructor; [exact H|constructor].
Qed.

Lemma forall_set_nth {A : Type} (P : A -> Prop) l i v :
  Forall P l -> P v -> Forall P (set_nth l i v).
Proof.
  intros F Pv. revert i. induction F as [|a t Pa Ft IH]; intros [|i]; simpl;
    constructor; auto.
Qed.

Lemma clean_mutate id f :
  (forall im, no_spine_text im -> no_spine_text (f im)) ->
  keeps_clean any (Cover.mutate id f).
Proof.
  intros H st P. split; [|intros; exact I]. simpl.
  apply forall_set_nth; [exact P|]. apply H.
  destruct (Nat.lt_ge_cases id (List.length (Cover.heap st))) as [L|L].
  - rewrite Forall_forall in P. apply P, nth_In, L.
  - rewrite nth_overflow by exact L. reflexivity.
Qed.

Lemma clean_draw_random {A : Type} (f : gen -> A * gen) :
  keeps_clean any (Cover.draw_random f).
Proof.
  intros st P. unfold Cover.draw_random. destruct (f (Cover.rng st)).
  split; [exact P | intros; exact I].
Qed.

Lemma clean_draw_random_r {A : Type} (f : gen -> result A * gen) :
  keeps_clean any (Cover.draw_random_r f).
Proof.
  intros st P. unfold Cover.draw_random_r. destruct (f (Cover.rng st)).
  split; [exact P | intros; exact I].
Qed.

Lemma clean_reseed z : keeps_clean any (Cover.reseed z).
Proof. intros st P. split; [exact P | intros; exact I]. Qed.

End Clean.

Ltac clean_image :=
  unfold no_spine_text in *; simpl; try assumption; try reflexivity.

Ltac clean_step :=
  lazymatch goal with
  | |- keeps_clean _ (Cover.mbind _ _) =>
      eapply clean_bind; [clean_step | intros ? ?; clean_step]
  | |- keeps_clean _ (Cover.ret _) => apply clean_ret; exact I
  | |- keeps_clean _ (Cover.throw _) => apply clean_throw
  | |- keeps_clean _ (Cover.load _) => apply clean_load
  | |- keeps_clean _ (Cover.alloc _) => apply clean_alloc; clean_image
  | |- keeps_clean _ (Cover.mutate _ _) =>
      apply clean_mutate; intros ? ?; clean_image
  | |- keeps_clean _ (Cover.lift _) =>
      apply (clean_lift any); intros; exact I
  | |- keeps_clean _ (Cover.draw_random _) => apply clean_draw_random
  | |- keeps_clean _ (Cover.draw_random_r _) => apply clean_draw_random_r
  | |- keeps_clean _ (Cover.reseed _) => apply clean_reseed
  | |- keeps_clean _ (Cover.convert _ _) => unfold Cover.convert; clean_step
  | |- keeps_clean _ (Cover.image_new _ _ _) =>
      unfold Cover.image_new; clean_step
  | |- keeps_clean _ (if ?b then _ else _) => destruct b; clean_step
  | |- keeps_clean _ (match ?x with _ => _ end) => destruct x; clean_step
  | |- _ => idtac
  end.

Section CleanStages.

Context {G : RandomGen}.
Variable W : Cover.World.

Lemma clean_mask_rows mask w h ys :
  keeps_clean any (Cover.mask_rows mask w h ys).
Proof.
  induction ys as [|y rest IH]; simpl; [clean_step|].
  eapply clean_bind; [clean_step | intros ? ?; exact IH].
Qed.

Lemma clean_draw_gradient bg top bottom :
  keeps_clean any (Cover.draw_gradient bg top bottom).
Proof.
  unfold Cover.draw_gradient. clean_step. apply clean_mask_rows.
Qed.

Lemma clean_background md total bg :
  keeps_clean any (Cover.background md total bg).
Proof.
  unfold Cover.background. clean_step; apply clean_draw_gradient.
Qed.

Lemma clean_place_tilted_sheet base sheet b angle :
  keeps_clean any (Cover.place_tilted_sheet W base sheet b angle).
Proof.
  unfold Cover.place_tilted_sheet. destruct b as [[[b0 b1] b2] b3].
  clean_step.
Qed.

Lemma clean_random_cells x0 bleed cw ch cells :
  keeps_clean any (Cover.random_cells x0 bleed cw ch cells).
Proof.
  induction cells as [|[r c] rest IH]; simpl; [clean_step|].
  eapply clean_bind; [clean_step|]. intros jx _.
  eapply clean_bind; [clean_step|]. intros jy _.
  eapply clean_bind; [exact IH|]. intros boxes _. clean_step.
Qed.

Lemma clean_random_boxes total bleed x0 x1 :
  keeps_clean any (Cover.random_boxes total bleed x0 x1).
Proof.
  unfold Cover.random_boxes.
  eapply clean_bind; [apply clean_random_cells|]. intros. clean_step.
Qed.

Lemma clean_place_sheets base imgs :
  forall i front back placed,
    keeps_clean any (Cover.place_sheets W base i imgs front back placed).
Proof.
  induction imgs as [|img rest IH]; intros i front back placed; simpl;
    [clean_step|].
  eapply clean_bind; [clean_step|]. intros angle _.
  eapply clean_bind; [apply (clean_lift any); intros; exact I|].
  intros [b remaining] _.
  eapply clean_bind; [apply (clean_lift any); intros; exact I|].
  intros art _.
  eapply clean_bind; [apply clean_place_tilted_sheet|]. intros _ _.
  apply IH.
Qed.

Lemma clean_add_text_with_shadow img xy text font fill shadow off blur :
  keeps_clean any
    (Cover.add_text_with_shadow img xy text font fill shadow off blur).
Proof.
  unfold Cover.add_text_with_shadow.
  destruct shadow as [[s0 s1] s2], fill as [[f0 f1] f2].
  eapply clean_bind; [apply clean_load|]. intros im _.
  eapply clean_bind.
  - apply clean_mutate. intros im' H. destruct (0 <? blur); clean_image.
  - intros _ _. clean_step.
Qed.

Lemma clean_draw_title base path title bleed x0 x1 :
  keeps_clean any (Cover.draw_title W base path title bleed x0 x1).
Proof.
  unfold Cover.draw_title.
  destruct (Cover.textbbox W _ title) as [[[t0 t1] t2] t3].
  apply clean_add_text_with_shadow.
Qed.

Lemma clean_draw_description base path description bleed x0 x1 :
  keeps_clean any (Cover.draw_description W base path description bleed x0 x1).
Proof.
  unfold Cover.draw_description.
  destruct (Cover.multiline_textbbox W _ _) as [[[t0 t1] t2] t3].
  clean_step.
Qed.

Lemma clean_reserve_barcode base total bleed x0 x1 :
  keeps_clean any (Cover.reserve_barcode base total bleed x0 x1).
Proof. unfold Cover.reserve_barcode. clean_step. Qed.

(** Without the condition of line 360 the spine step draws nothing. *)
Lemma clean_draw_spine base path spine_title pages total spine_px x0 :
  spine_condition spine_title pages spine_px = false ->
  keeps_clean any
    (Cover.draw_spine W base path spine_title pages total spine_px x0).
Proof.
  unfold spine_condition, Cover.draw_spine. intros ->. clean_step.
Qed.

End CleanStages.

Section SpineSpec.

Context {G : RandomGen}.
Variable W : Cover.World.

Lemma clean_build_cover title description pages pp trim max_images
  spine_title bg seed_arg :
  spine_condition spine_title pages
    (Cover.spine_px_of
       (Cover.compute_dimensions (fst trim) (snd trim) pages pp)) = false ->
  keeps_clean (fun c => no_spine_text (Cover.png c))
    (Cover.build_cover W title description pages pp trim max_images
       spine_title bg seed_arg).
Proof.
  intros C. unfold Cover.build_cover.
  unfold Cover.compute_dimensions, Cover.spine_px_of in *. cbn [snd] in C.
  cbv zeta. cbn iota.
  eapply clean_bind; [destruct seed_arg; clean_step|]. intros _ _.
  eapply clean_bind; [apply clean_background|]. intros base _.
  eapply clean_bind; [clean_step|]. intros files _.
  eapply clean_bind; [apply (clean_lift any); intros; exact I|]. intros imgs _.
  eapply clean_bind; [apply clean_random_boxes|]. intros front _.
  eapply clean_bind; [apply clean_random_boxes|]. intros back _.
  eapply clean_bind; [apply clean_place_sheets|]. intros placed _.
  destruct (Cover.pick_first_existing_font W Cover.DEFAULT_TITLE_FONTS)
    as [path|]; [|apply clean_throw].
  eapply clean_bind; [apply clean_draw_title|]. intros _ _.
  eapply clean_bind; [apply clean_draw_spine; exact C|]. intros _ _.
  eapply clean_bind; [apply clean_draw_description|]. intros _ _.
  eapply clean_bind; [apply clean_reserve_barcode|]. intros _ _.
  eapply clean_bind; [clean_step|]. intros flat _.
  eapply clean_bind; [apply clean_load|]. intros out Hout.
  apply clean_ret. exact Hout.
Qed.

End SpineSpec.

Lemma spine_condition_false_below_79 spine_title pages spine_px :
  pages < 79 -> spine_condition spine_title pages spine_px = false.
Proof.
  intros H. unfold spine_condition.
  replace (79 <=? pages) with false by (symmetry; apply Z.leb_gt; exact H).
  rewrite andb_false_r. reflexivity.
Qed.

Lemma spine_condition_true spine_title pages spine_px :
  spine_condition spine_title pages spine_px = true ->
  Cover.truthy spine_title = true /\ 79 <= pages /\ 0 < spine_px.
Proof.
  unfold spine_condition. intros H.
  apply andb_true_iff in H. destruct H as [H S].
  apply andb_true_iff in H. destruct H as [T P].
  apply Z.leb_le in P. apply Z.ltb_lt in S. auto.
Qed.

(** C5: in a cover build with fewer than 79 pages no spine text is
    rendered, on the canvas or on any other image, whether a spine title
    is supplied or not; and spine text on an image of a build means that a
    non-empty spine title was supplied, the page count is at least 79 and
    the spine pixel width is positive. *)
Theorem spine_text_only_when_due {G : RandomGen} (W : Cover.World)
  (title description : str) (pages : Z) (pp : Cover.paper) (trim : Q * Q)
  (max_images : Z) (spine_title : option str) (bg : str)
  (seed_arg : option Z) (st : Cover.state) :
  Forall no_spine_text (Cover.heap st) ->
  let spine_px :=
    Cover.spine_px_of
      (Cover.compute_dimensions (fst trim) (snd trim) pages pp) in
  let run := Cover.build_cover W title description pages pp trim max_images
               spine_title bg seed_arg st in
  (pages < 79 ->
     Forall no_spine_text (Cover.heap (snd run))
     /\ forall c, fst run = Ok c -> spine_text_on (Cover.png c) = false)
  /\ ((Exists (fun im => spine_text_on im = true) (Cover.heap (snd run))
       \/ exists c, fst run = Ok c /\ spine_text_on (Cover.png c) = true) ->
      Cover.truthy spine_title = true /\ 79 <= pages /\ 0 < spine_px).
Proof.
  intros P spine_px run. split.
  - intros Lt.
    apply (clean_build_cover W title description pages pp trim max_images
             spine_title bg seed_arg
             (spine_condition_false_below_79 _ _ _ Lt) st P).
  - intros H.
    destruct (spine_condition spine_title pages spine_px) eqn:C;
      [apply spine_condition_true; exact C|].
    exfalso.
    destruct (clean_build_cover W title description pages pp trim max_images
                spine_title bg seed_arg C st P) as [F Q].
    fold run in F, Q.
    destruct H as [H|(c & E & H)].
    + apply Exists_exists in H. destruct H as (im & I & T).
      rewrite Forall_forall in F. specialize (F im I).
      unfold no_spine_text in F. congruence.
    + specialize (Q c E). unfold no_spine_text in Q. congruence.
Qed.

Lemma spine_text_only_when_due_witness :
  fst (Cover.sample_run true 30 (Some (s_ "Dino")) (s_ "#AABBCC") (Some 42) 7)
  <> Raise AttributeError
  /\ forall c,
       fst (Cover.sample_run true 30 (Some (s_ "Dino")) (s_ "#AABBCC")
              (Some 42) 7) = Ok c ->
       spine_text_on (Cover.png c) = false.
Proof.
  split; [vm_compute; discriminate|].
  destruct (spine_text_only_when_due (G := Lcg.generator)
              (Cover.sample_world true) (s_ "Cute Dinosaurs")
              (s_ "Stomp into a world of friendly dinos!") 30 Cover.white
              (85 # 10, 11 # 1) 4 (Some (s_ "Dino")) (s_ "#AABBCC") (Some 42)
              (Cover.initial (G := Lcg.generator) 7)) as [H _].
  - constructor.
  - destruct H as [_ H]; [lia|]. exact H.
Defined.

(** With 100 pages and a spine title the spine text is on the image the
    build saves; with 30 pages, or without a title, it is not. *)
Example spine_text_sample :
  match fst (Cover.sample_run true 100 (Some (s_ "Dino")) (s_ "#AABBCC")
               (Some 42) 7),
        fst (Cover.sample_run true 30 (Some (s_ "Dino")) (s_ "#AABBCC")
               (Some 42) 7),
        fst (Cover.sample_run true 100 None (s_ "#AABBCC") (Some 42) 7) with
  | Ok c100, Ok c30, Ok cnone =>
      spine_text_on (Cover.png c100) = true
      /\ spine_text_on (Cover.png c30) = false
      /\ spine_text_on (Cover.png cnone) = false
  | _, _, _ => False
  end.
Proof. vm_compute. auto. Qed.

(** ** cover_builder.py: the loop over the selected images *)

Section SheetsSpec.

Context {G : RandomGen}.
Variable W : Cover.World.

Lemma mbind_ok_inv {A B : Type} (m : Cover.M A) (k : A -> Cover.M B) st b :
  fst (Cover.mbind m k st) = Ok b ->
  exists a st1, m st = (Ok a, st1) /\ fst (k a st1) = Ok b.
Proof.
  unfold Cover.mbind. destruct (m st) as [[a|e] st1]; simpl; intros H.
  - eauto.
  - discriminate.
Qed.

Lemma open_all_length files ims :
  Cover.open_all W files = Ok ims -> List.length ims = List.length files.
Proof.
  revert ims. induction files as [|p rest IH]; intros ims H; simpl in H.
  - inversion H. reflexivity.
  - destruct (Cover.open_image W p); simpl in H; [|discriminate].
    destruct (Cover.open_all W rest) as [r|]; simpl in H; [|discriminate].
    inversion H; subst. simpl. rewrite (IH r eq_refl). reflexivity.
Qed.

Lemma selection_not_empty listing max_images s sel :
  fst (Cover.load_interior_images listing max_images s) = Ok sel ->
  sel <> [].
Proof.
  intros E.
  destruct (Cover.interior_files listing) as [|f fs] eqn:Ef.
  - apply (load_interior_images_none listing max_images s) in Ef.
    rewrite Ef in E. discriminate.
  - destruct (load_interior_images_some listing max_images s)
      as (sel' & E' & L & _); [rewrite Ef; discriminate|].
    rewrite E in E'. inversion E'; subst sel'.
    rewrite Ef in L. simpl List.length in L.
    intros ->. simpl in L. lia.
Qed.

(** Where the library has no [putchannel], the loop raises at its first
    image. *)
Lemma place_sheets_raises base i img rest front back placed st :
  Cover.has_putchannel W = false ->
  forall r, fst (Cover.place_sheets W base i (img :: rest) front back placed st)
            <> Ok r.
Proof.
  intros NP r H. simpl in H.
  apply mbind_ok_inv in H. destruct H as (angle & st1 & _ & H).
  apply mbind_ok_inv in H. destruct H as ([b remaining] & st2 & _ & H).
  apply mbind_ok_inv in H. destruct H as (art & st3 & E & _).
  unfold Cover.lift, Cover.line_art in E. rewrite NP in E. discriminate.
Qed.

Lemma build_cover_raises title description pages pp trim max_images
  spine_title bg seed_arg st :
  Cover.has_putchannel W = false ->
  forall c,
    fst (Cover.build_cover W title description pages pp trim max_images
           spine_title bg seed_arg st) <> Ok c.
Proof.
  intros NP c H. unfold Cover.build_cover in H.
  unfold Cover.compute_dimensions in H. cbv zeta in H. cbn iota in H.
  apply mbind_ok_inv in H. destruct H as (u & st0 & _ & H).
  apply mbind_ok_inv in H. destruct H as (base & st1 & _ & H).
  apply mbind_ok_inv in H. destruct H as (files & st2 & Ef & H).
  apply mbind_ok_inv in H. destruct H as (imgs & st3 & Ei & H).
  apply mbind_ok_inv in H. destruct H as (front & st4 & _ & H).
  apply mbind_ok_inv in H. destruct H as (back & st5 & _ & H).
  apply mbind_ok_inv in H. destruct H as (placed & st6 & Ep & _).
  assert (NE : files <> []).
  { unfold Cover.draw_random_r in Ef.
    destruct (Cover.load_interior_images (Cover.listing W) max_images
                (Cover.rng st1)) as [r g'] eqn:El.
    inversion Ef; subst.
    apply (selection_not_empty (Cover.listing W) max_images (Cover.rng st1)).
    rewrite El. reflexivity. }
  unfold Cover.lift in Ei. inversion Ei as [[Eo Es]].
  apply open_all_length in Eo.
  destruct imgs as [|img rest];
    [destruct files; [congruence | discriminate]|].
  apply (place_sheets_raises base 0 img rest front back [] st5 NP placed).
  rewrite Ep. reflexivity.
Qed.

End SheetsSpec.

(** C1 on an imaging library without [putchannel] (no release of Pillow
    has the method): no cover build returns, whatever the inputs; the
    sample build raises the attribute error at its first selected image,
    before any sheet is composited. *)
Theorem build_cover_stops_at_putchannel {G : RandomGen} (W : Cover.World)
  (title description : str) (pages : Z) (pp : Cover.paper) (trim : Q * Q)
  (max_images : Z) (spine_title : option str) (bg : str)
  (seed_arg : option Z) (st : Cover.state) :
  Cover.has_putchannel W = false ->
  forall c,
    fst (Cover.build_cover W title description pages pp trim max_images
           spine_title bg seed_arg st) <> Ok c.
Proof. apply build_cover_raises. Qed.

Lemma build_cover_stops_at_putchannel_witness :
  Cover.has_putchannel (Cover.sample_world false) = false
  /\ fst (Cover.sample_run false 30 None (s_ "#AABBCC") (Some 42) 7)
     = Raise AttributeError.
Proof.
  split; [reflexivity|].
  destruct (fst (Cover.sample_run false 30 None (s_ "#AABBCC") (Some 42) 7))
    as [c|e] eqn:E.
  - exfalso.
    exact (build_cover_stops_at_putchannel (G := Lcg.generator)
             (Cover.sample_world false) (s_ "Cute Dinosaurs")
             (s_ "Stomp into a world of friendly dinos!") 30 Cover.white
             (85 # 10, 11 # 1) 4 None (s_ "#AABBCC") (Some 42)
             (Cover.initial (G := Lcg.generator) 7) eq_refl c E).
  - vm_compute in E. inversion E. reflexivity.
Defined.

Example sample_build_attribute_error :
  fst (Cover.sample_run false 30 None (s_ "#AABBCC") (Some 42) 7)
  = Raise AttributeError.
Proof. vm_compute. reflexivity. Qed.

(** ** What the loop does where the library lets it run *)

Section Tilt.

Context {G : RandomGen}.
Variable W : Cover.World.

Lemma uniform_tilt s : tilt_ok (fst (uniform (- (15 # 1)) (15 # 1) s)).
Proof.
  unfold uniform. pose proof (random_range s) as [L U].
  destruct (random s) as [u s']. cbn [fst] in *. unfold tilt_ok.
  split; lra.
Qed.

(** Every sheet is tilted by an angle between -15 and 15 degrees. *)
Lemma place_sheets_tilts base imgs :
  forall i front back placed st r,
    Forall (fun p => tilt_ok (snd p)) placed ->
    fst (Cover.place_sheets W base i imgs front back placed st) = Ok r ->
    Forall (fun p => tilt_ok (snd p)) r.
Proof.
  induction imgs as [|img rest IH]; intros i front back placed st r F H;
    simpl in H.
  - inversion H; subst. exact F.
  - apply mbind_ok_inv in H. destruct H as (angle & st1 & Ea & H).
    apply mbind_ok_inv in H. destruct H as ([b remaining] & st2 & _ & H).
    apply mbind_ok_inv in H. destruct H as (art & st3 & _ & H).
    apply mbind_ok_inv in H. destruct H as (u & st4 & _ & H).
    apply IH in H; [exact H|].
    apply Forall_app. split; [exact F|]. constructor; [|constructor].
    cbn [snd]. unfold Cover.draw_random in Ea.
    pose proof (uniform_tilt (Cover.rng st)) as T.
    destruct (uniform (- (15 # 1)) (15 # 1) (Cover.rng st)) as [a g'].
    inversion Ea; subst. exact T.
Qed.

Lemma build_cover_tilts title description pages pp trim max_images
  spine_title bg seed_arg st c :
  fst (Cover.build_cover W title description pages pp trim max_images
         spine_title bg seed_arg st) = Ok c ->
  Forall (fun p => tilt_ok (snd p)) (Cover.all_boxes c).
Proof.
  intros H. unfold Cover.build_cover in H.
  unfold Cover.compute_dimensions in H. cbv zeta in H. cbn iota in H.
  apply mbind_ok_inv in H. destruct H as (u & st0 & _ & H).
  apply mbind_ok_inv in H. destruct H as (base & st1 & _ & H).
  apply mbind_ok_inv in H. destruct H as (files & st2 & _ & H).
  apply mbind_ok_inv in H. destruct H as (imgs & st3 & _ & H).
  apply mbind_ok_inv in H. destruct H as (front & st4 & _ & H).
  apply mbind_ok_inv in H. destruct H as (back & st5 & _ & H).
  apply mbind_ok_inv in H. destruct H as (placed & st6 & Ep & H).
  assert (T : Forall (fun p => tilt_ok (snd p)) placed).
  { eapply place_sheets_tilts; [constructor|]. rewrite Ep. reflexivity. }
  destruct (Cover.pick_first_existing_font W Cover.DEFAULT_TITLE_FONTS);
    [|discriminate].
  apply mbind_ok_inv in H. destruct H as (u1 & st7 & _ & H).
  apply mbind_ok_inv in H. destruct H as (u2 & st8 & _ & H).
  apply mbind_ok_inv in H. destruct H as (u3 & st9 & _ & H).
  apply mbind_ok_inv in H. destruct H as (u4 & st10 & _ & H).
  apply mbind_ok_inv in H. destruct H as (flat & st11 & _ & H).
  apply mbind_ok_inv in H. destruct H as (out & st12 & _ & H).
  inversion H; subst. exact T.
Qed.

End Tilt.

(** ** Two builds side by side *)

Lemma set_nth_app_r {A : Type} (h made : list A) k v :
  set_nth (h ++ made) (List.length h + k) v = h ++ set_nth made k v.
Proof.
  induction h as [|a h IH]; simpl; [reflexivity|]. rewrite IH. reflexivity.
Qed.

Lemma nth_app_r {A : Type} (h made : list A) k d :
  nth (List.length h + k) (h ++ made) d = nth k made d.
Proof.
  induction h as [|a h IH]; simpl; [reflexivity|]. exact IH.
Qed.

Section Alike.

Context {G : RandomGen}.
Variables h1 h2 : list image.

Lemma alike_ret {A : Type} (R : A -> A -> Prop) a a' :
  R a a' -> alike h1 h2 R (Cover.ret a) (Cover.ret a').
Proof. intros H st st' S. split; [exact S | exact H]. Qed.

Lemma alike_throw {A : Type} (R : A -> A -> Prop) e :
  alike h1 h2 R (Cover.throw e) (Cover.throw e).
Proof. intros st st' S. split; [exact S | reflexivity]. Qed.

Lemma alike_lift {A : Type} (r : result A) :
  alike h1 h2 eq (Cover.lift r) (Cover.lift r).
Proof.
  intros st st' S. split; [exact S|]. destruct r; reflexivity.
Qed.

Lemma alike_bind {A B : Type} (R : A -> A -> Prop) (R' : B -> B -> Prop)
  (m m' : Cover.M A) (k k' : A -> Cover.M B) :
  alike h1 h2 R m m' ->
  (forall a a', R a a' -> alike h1 h2 R' (k a) (k' a')) ->
  alike h1 h2 R' (Cover.mbind m k) (Cover.mbind m' k').
Proof.
  intros Hm Hk st st' S. unfold Cover.mbind.
  destruct (Hm st st' S) as [S1 R1].
  destruct (m st) as [[a|e] s1], (m' st') as [[a'|e'] s1']; simpl in *;
    try contradiction.
  - apply (Hk a a' R1 s1 s1' S1).
  - split; [exact S1 | exact R1].
Qed.

Lemma alike_alloc im :
  alike h1 h2 (same_id h1 h2) (Cover.alloc im) (Cover.alloc im).
Proof.
  intros st st' (Rg & made & E1 & E2). simpl. split.
  - split; [exact Rg|]. exists (made ++ [im]).
    rewrite E1, E2, <- !app_assoc. auto.
  - exists (List.length made). rewrite E1, E2, !length_app. auto.
Qed.

Lemma alike_load i i' :
  same_id h1 h2 i i' -> alike h1 h2 eq (Cover.load i) (Cover.load i').
Proof.
  intros (k & -> & ->) st st' S. split; [exact S|].
  destruct S as (_ & made & E1 & E2). simpl.
  rewrite E1, E2, !nth_app_r. reflexivity.
Qed.

Lemma alike_mutate i i' f :
  same_id h1 h2 i i' ->
  alike h1 h2 eq (Cover.mutate i f) (Cover.mutate i' f).
Proof.
  intros (k & -> & ->) st st' (Rg & made & E1 & E2). simpl.
  split; [|reflexivity]. split; [exact Rg|].
  exists (set_nth made k (f (nth k made (New RGBA (0, 0) rgba_white)))).
  rewrite E1, E2, !nth_app_r, !set_nth_app_r. auto.
Qed.

Lemma alike_draw_random {A : Type} (f : gen -> A * gen) :
  alike h1 h2 eq (Cover.draw_random f) (Cover.draw_random f).
Proof.
  intros st st' (Rg & made & E1 & E2). unfold Cover.draw_random.
  rewrite Rg. destruct (f (Cover.rng st')) as [a g']. simpl.
  split; [|reflexivity]. split; [reflexivity|]. eauto.
Qed.

Lemma alike_draw_random_r {A : Type} (f : gen -> result A * gen) :
  alike h1 h2 eq (Cover.draw_random_r f) (Cover.draw_random_r f).
Proof.
  intros st st' (Rg & made & E1 & E2). unfold Cover.draw_random_r.
  rewrite Rg. destruct (f (Cover.rng st')) as [a g']. simpl.
  split; [|destruct a; reflexivity]. split; [reflexivity|]. eauto.
Qed.

Lemma alike_reseed z :
  alike h1 h2 eq (Cover.reseed z) (Cover.reseed z).
Proof.
  intros st st' (Rg & made & E1 & E2). simpl.
  split; [|reflexivity]. split; [reflexivity|]. eauto.
Qed.

End Alike.

Ltac alike_step :=
  lazymatch goal with
  | |- alike _ _ _ (Cover.mbind _ _) (Cover.mbind _ _) =>
      eapply alike_bind;
      [alike_step | intros ? ? ?; try subst; alike_step]
  | |- alike _ _ _ (Cover.ret _) (Cover.ret _) =>
      apply alike_ret; first [reflexivity | assumption]
  | |- alike _ _ _ (Cover.throw _) (Cover.throw _) => apply alike_throw
  | |- alike _ _ _ (Cover.lift _) (Cover.lift _) => apply alike_lift
  | |- alike _ _ _ (Cover.alloc _) (Cover.alloc _) => apply alike_alloc
  | |- alike _ _ _ (Cover.load _) (Cover.load _) =>
      apply alike_load; assumption
  | |- alike _ _ _ (Cover.mutate _ _) (Cover.mutate _ _) =>
      apply alike_mutate; assumption
  | |- alike _ _ _ (Cover.draw_random _) (Cover.draw_random _) =>
      apply alike_draw_random
  | |- alike _ _ _ (Cover.draw_random_r _) (Cover.draw_random_r _) =>
      apply alike_draw_random_r
  | |- alike _ _ _ (Cover.reseed _) (Cover.reseed _) => apply alike_reseed
  | |- alike _ _ _ (Cover.convert _ _) (Cover.convert _ _) =>
      unfold Cover.convert; alike_step
  | |- alike _ _ _ (Cover.image_new _ _ _) (Cover.image_new _ _ _) =>
      unfold Cover.image_new; alike_step
  | |- alike _ _ _ (if ?b then _ else _) (if ?b then _ else _) =>
      destruct b; alike_step
  | |- alike _ _ _ (match ?x with _ => _ end) (match ?x with _ => _ end) =>
      destruct x; alike_step
  | |- _ => idtac
  end.

Section AlikeStages.

Context {G : RandomGen}.
Variable W : Cover.World.
Variables h1 h2 : list image.

Lemma alike_mask_rows mask mask' w h ys :
  same_id h1 h2 mask mask' ->
  alike h1 h2 eq (Cover.mask_rows mask w h ys) (Cover.mask_rows mask' w h ys).
Proof.
  intros I. induction ys as [|y rest IH]; simpl; [alike_step|].
  eapply alike_bind; [alike_step | intros ? ? _; exact IH].
Qed.

Lemma alike_draw_gradient bg bg' top bottom :
  same_id h1 h2 bg bg' ->
  alike h1 h2 eq (Cover.draw_gradient bg top bottom)
    (Cover.draw_gradient bg' top bottom).
Proof.
  intros I. unfold Cover.draw_gradient. alike_step.
  apply alike_mask_rows. assumption.
Qed.

Lemma alike_background md total bg :
  alike h1 h2 (same_id h1 h2) (Cover.background md total bg)
    (Cover.background md total bg).
Proof.
  unfold Cover.background. alike_step.
  apply alike_draw_gradient. assumption.
Qed.

Lemma alike_place_tilted_sheet base base' sheet b angle :
  same_id h1 h2 base base' ->
  alike h1 h2 eq (Cover.place_tilted_sheet W base sheet b angle)
    (Cover.place_tilted_sheet W base' sheet b angle).
Proof.
  intros I. unfold Cover.place_tilted_sheet.
  destruct b as [[[b0 b1] b2] b3]. alike_step.
Qed.

Lemma alike_random_cells x0 bleed cw ch cells :
  alike h1 h2 eq (Cover.random_cells x0 bleed cw ch cells)
    (Cover.random_cells x0 bleed cw ch cells).
Proof.
  induction cells as [|[r c] rest IH]; simpl; [alike_step|].
  eapply alike_bind; [alike_step|]. intros jx ? ->.
  eapply alike_bind; [alike_step|]. intros jy ? ->.
  eapply alike_bind; [exact IH|]. intros boxes ? ->. alike_step.
Qed.

Lemma alike_random_boxes total bleed x0 x1 :
  alike h1 h2 eq (Cover.random_boxes total bleed x0 x1)
    (Cover.random_boxes total bleed x0 x1).
Proof.
  unfold Cover.random_boxes.
  eapply alike_bind; [apply alike_random_cells|]. intros ? ? ->. alike_step.
Qed.

Lemma alike_place_sheets base base' imgs :
  same_id h1 h2 base base' ->
  forall i front back placed,
    alike h1 h2 eq (Cover.place_sheets W base i imgs front back placed)
      (Cover.place_sheets W base' i imgs front back placed).
Proof.
  intros I. induction imgs as [|img rest IH]; intros i front back placed;
    simpl; [alike_step|].
  eapply alike_bind; [alike_step|]. intros angle ? ->.
  eapply alike_bind; [alike_step|]. intros [b remaining] ? <-.
  eapply alike_bind; [alike_step|]. intros art ? ->.
  eapply alike_bind; [apply alike_place_tilted_sheet; exact I|]. intros _ _ _.
  apply IH.
Qed.

Lemma alike_add_text_with_shadow img img' xy text font fill shadow off blur :
  same_id h1 h2 img img' ->
  alike h1 h2 eq
    (Cover.add_text_with_shadow img xy text font fill shadow off blur)
    (Cover.add_text_with_shadow img' xy text font fill shadow off blur).
Proof.
  intros I. unfold Cover.add_text_with_shadow.
  destruct shadow as [[s0 s1] s2], fill as [[f0 f1] f2]. alike_step.
Qed.

Lemma alike_draw_title base base' path title bleed x0 x1 :
  same_id h1 h2 base base' ->
  alike h1 h2 eq (Cover.draw_title W base path title bleed x0 x1)
    (Cover.draw_title W base' path title bleed x0 x1).
Proof.
  intros I. unfold Cover.draw_title.
  destruct (Cover.textbbox W _ title) as [[[t0 t1] t2] t3].
  apply alike_add_text_with_shadow. exact I.
Qed.

Lemma alike_draw_spine base base' path spine_title pages total spine_px x0 :
  same_id h1 h2 base base' ->
  alike h1 h2 eq
    (Cover.draw_spine W base path spine_title pages total spine_px x0)
    (Cover.draw_spine W base' path spine_title pages total spine_px x0).
Proof. intros I. unfold Cover.draw_spine. alike_step. Qed.

Lemma alike_draw_description base base' path description bleed x0 x1 :
  same_id h1 h2 base base' ->
  alike h1 h2 eq
    (Cover.draw_description W base path description bleed x0 x1)
    (Cover.draw_description W base' path description bleed x0 x1).
Proof.
  intros I. unfold Cover.draw_description.
  destruct (Cover.multiline_textbbox W _ _) as [[[t0 t1] t2] t3].
  alike_step.
Qed.

Lemma alike_reserve_barcode base base' total bleed x0 x1 :
  same_id h1 h2 base base' ->
  alike h1 h2 eq (Cover.reserve_barcode base total bleed x0 x1)
    (Cover.reserve_barcode base' total bleed x0 x1).
Proof. intros I. unfold Cover.reserve_barcode. alike_step. Qed.

Lemma alike_build_cover title description pages pp trim max_images
  spine_title bg seed_arg :
  alike h1 h2 eq
    (Cover.build_cover W title description pages pp trim max_images
       spine_title bg seed_arg)
    (Cover.build_cover W title description pages pp trim max_images
       spine_title bg seed_arg).
Proof.
  unfold Cover.build_cover, Cover.compute_dimensions. cbv zeta. cbn iota.
  eapply alike_bind; [destruct seed_arg; alike_step|]. intros _ _ _.
  eapply alike_bind; [apply alike_background|]. intros base base' I.
  eapply alike_bind; [alike_step|]. intros files ? ->.
  eapply alike_bind; [alike_step|]. intros imgs ? ->.
  eapply alike_bind; [apply alike_random_boxes|]. intros front ? ->.
  eapply alike_bind; [apply alike_random_boxes|]. intros back ? ->.
  eapply alike_bind; [apply alike_place_sheets; exact I|]. intros placed ? ->.
  destruct (Cover.pick_first_existing_font W Cover.DEFAULT_TITLE_FONTS)
    as [path|]; [|apply alike_throw].
  eapply alike_bind; [apply alike_draw_title; exact I|]. intros _ _ _.
  eapply alike_bind; [apply alike_draw_spine; exact I|]. intros _ _ _.
  eapply alike_bind; [apply alike_draw_description; exact I|]. intros _ _ _.
  eapply alike_bind; [apply alike_reserve_barcode; exact I|]. intros _ _ _.
  eapply alike_bind; [alike_step|]. intros flat flat' If.
  eapply alike_bind; [apply alike_load; exact If|]. intros out ? ->.
  apply alike_ret. reflexivity.
Qed.

End AlikeStages.

Lemma same_result_eq {A : Type} (r r' : result A) :
  same_result eq r r' -> r = r'.
Proof.
  destruct r, r'; simpl; intros H; try contradiction; congruence.
Qed.

(** A build depends on the generator and on nothing else of the state
    it starts in: the image objects of earlier builds do not matter. *)
Lemma build_cover_same_generator {G : RandomGen} (W : Cover.World)
  title description pages pp trim max_images spine_title bg seed_arg st1 st2 :
  Cover.rng st1 = Cover.rng st2 ->
  fst (Cover.build_cover W title description pages pp trim max_images
         spine_title bg seed_arg st1)
  = fst (Cover.build_cover W title description pages pp trim max_images
           spine_title bg seed_arg st2)
  /\ Cover.rng (snd (Cover.build_cover W title description pages pp trim
                       max_images spine_title bg seed_arg st1))
     = Cover.rng (snd (Cover.build_cover W title description pages pp trim
                         max_images spine_title bg seed_arg st2)).
Proof.
  intros Rg.
  destruct (alike_build_cover W (Cover.heap st1) (Cover.heap st2)
              title description pages pp trim max_images spine_title bg
              seed_arg st1 st2) as [S R].
  - split; [exact Rg|]. exists []. rewrite !app_nil_r. auto.
  - split; [apply same_result_eq; exact R | apply S].
Qed.

Lemma build_cover_reseeds {G : RandomGen} (W : Cover.World)
  title description pages pp trim max_images spine_title bg z st :
  Cover.build_cover W title description pages pp trim max_images spine_title
    bg (Some z) st
  = Cover.build_cover W title description pages pp trim max_images
      spine_title bg (Some z) (Cover.mkState (seed z) (Cover.heap st)).
Proof. reflexivity. Qed.


(** ** cover_builder.py: the choices of a seeded build *)

Section LayoutAlike.

Context {G : RandomGen}.
Variable W : Cover.World.
Variables h1 h2 : list image.

Lemma alike_layout pages pp trim max_images bg seed_arg :
  alike h1 h2 (same_layout h1 h2)
    (Cover.layout W pages pp trim max_images bg seed_arg)
    (Cover.layout W pages pp trim max_images bg seed_arg).
Proof.
  unfold Cover.layout, Cover.compute_dimensions. cbv zeta. cbn iota.
  eapply alike_bind; [destruct seed_arg; alike_step|]. intros _ _ _.
  eapply alike_bind; [apply alike_background|]. intros base base' I.
  eapply alike_bind; [alike_step|]. intros files ? ->.
  eapply alike_bind; [alike_step|]. intros imgs ? ->.
  eapply alike_bind; [apply alike_random_boxes|]. intros front ? ->.
  eapply alike_bind; [apply alike_random_boxes|]. intros back ? ->.
  apply alike_ret. unfold same_layout. auto.
Qed.

End LayoutAlike.

Lemma mbind_assoc {G : RandomGen} {A B C : Type} (m : Cover.M A)
  (f : A -> Cover.M B) (g : B -> Cover.M C) st :
  Cover.mbind (Cover.mbind m f) g st
  = Cover.mbind m (fun a => Cover.mbind (f a) g) st.
Proof. unfold Cover.mbind. destruct (m st) as [[a|e] s]; reflexivity. Qed.

Lemma mbind_ext {G : RandomGen} {A B : Type} (m : Cover.M A)
  (f g : A -> Cover.M B) st :
  (forall a s, f a s = g a s) -> Cover.mbind m f st = Cover.mbind m g st.
Proof.
  intros E. unfold Cover.mbind. destruct (m st) as [[a|e] s];
    [apply E | reflexivity].
Qed.

(** A build is its layout followed by the sheets and the texts. *)
Lemma build_cover_layout {G : RandomGen} (W : Cover.World)
  title description pages pp trim max_images spine_title bg seed_arg st :
  Cover.build_cover W title description pages pp trim max_images spine_title
    bg seed_arg st
  = Cover.mbind (Cover.layout W pages pp trim max_images bg seed_arg)
      (Cover.finish W title description pages pp trim spine_title) st.
Proof.
  unfold Cover.build_cover, Cover.layout, Cover.compute_dimensions.
  cbv zeta. cbn iota.
  do 6 (rewrite mbind_assoc; apply mbind_ext; intros ? ?).
  reflexivity.
Qed.

(** C7: with a seed, two cover builds with identical inputs make the
    same pseudo-random choices, whatever state the process-wide generator
    is in and whatever image objects exist when each starts.  A build is
    its layout (the canvas, the files selected, the boxes of the two
    panels with their jitter) followed by the sheets and the texts; the
    two layouts select the same files and the same boxes, or raise the
    same exception, and leave the generator in the same state, so the
    angles drawn afterwards are the same; the two builds return the same
    result or raise the same exception and leave the generator in the
    same state; and the second of two successive builds repeats the
    first. *)
Theorem seeded_build_deterministic {G : RandomGen} (W : Cover.World)
  (title description : str) (pages : Z) (pp : Cover.paper) (trim : Q * Q)
  (max_images : Z) (spine_title : option str) (bg : str) (seed_value : Z)
  (st1 st2 : Cover.state) :
  let build := Cover.build_cover W title description pages pp trim
                 max_images spine_title bg (Some seed_value) in
  let lay := Cover.layout W pages pp trim max_images bg (Some seed_value) in
  (forall st,
     build st
     = Cover.mbind lay
         (Cover.finish W title description pages pp trim spine_title) st)
  /\ same_result (fun l l' => choices_of l = choices_of l')
       (fst (lay st1)) (fst (lay st2))
  /\ Cover.rng (snd (lay st1)) = Cover.rng (snd (lay st2))
  /\ fst (uniform (- (15 # 1)) (15 # 1) (Cover.rng (snd (lay st1))))
     = fst (uniform (- (15 # 1)) (15 # 1) (Cover.rng (snd (lay st2))))
  /\ fst (build st1) = fst (build st2)
  /\ Cover.rng (snd (build st1)) = Cover.rng (snd (build st2))
  /\ fst (build (snd (build st1))) = fst (build st1).
Proof.
  intros build lay.
  assert (Any : forall a b,
             fst (build a) = fst (build b)
             /\ Cover.rng (snd (build a)) = Cover.rng (snd (build b))).
  { intros a b. unfold build.
    rewrite (build_cover_reseeds W title description pages pp trim max_images
               spine_title bg seed_value a).
    rewrite (build_cover_reseeds W title description pages pp trim max_images
               spine_title bg seed_value b).
    apply build_cover_same_generator. reflexivity. }
  assert (Lay : same_result (same_layout (Cover.heap st1) (Cover.heap st2))
                  (fst (lay (Cover.mkState (seed seed_value) (Cover.heap st1))))
                  (fst (lay (Cover.mkState (seed seed_value) (Cover.heap st2))))
                /\ Cover.rng (snd (lay (Cover.mkState (seed seed_value)
                                          (Cover.heap st1))))
                   = Cover.rng (snd (lay (Cover.mkState (seed seed_value)
                                            (Cover.heap st2))))).
  { destruct (alike_layout W (Cover.heap st1) (Cover.heap st2) pages pp trim
                max_images bg (Some seed_value)
                (Cover.mkState (seed seed_value) (Cover.heap st1))
                (Cover.mkState (seed seed_value) (Cover.heap st2)))
      as [S R].
    - split; [reflexivity|]. exists []. rewrite !app_nil_r. auto.
    - split; [exact R | apply S]. }
  assert (Rs : forall st,
             lay st = lay (Cover.mkState (seed seed_value) (Cover.heap st)))
    by reflexivity.
  rewrite <- !Rs in Lay. destruct Lay as [Lr Lg].
  destruct (Any st1 st2) as [R S].
  split; [intros st; apply build_cover_layout|].
  split.
  { destruct (fst (lay st1)) as [l|e], (fst (lay st2)) as [l'|e'];
      simpl in *; try contradiction; [|exact Lr].
    destruct l as [[[[b f] i] fr] bk], l' as [[[[b' f'] i'] fr'] bk'].
    unfold same_layout in Lr. destruct Lr as (_ & -> & _ & -> & ->).
    reflexivity. }
  split; [exact Lg|]. split; [rewrite Lg; reflexivity|].
  split; [exact R|]. split; [exact S|]. apply Any.
Qed.

Lemma same_result_ok {A : Type} (R : A -> A -> Prop) r r' a a' :
  same_result R r r' -> r = Ok a -> r' = Ok a' -> R a a'.
Proof. intros H -> ->. exact H. Qed.

(** On the library as released (no [putchannel]) the build raises, and
    the choices are still made: from two different states of the
    generator the seeded layout selects the same four files and the same
    boxes. *)
Lemma seeded_build_deterministic_witness :
  exists l1 l2,
    fst (Cover.layout (G := Lcg.generator) (Cover.sample_world false) 30
           Cover.white (85 # 10, 11 # 1) 4 (s_ "#AABBCC") (Some 42)
           (Cover.initial (G := Lcg.generator) 7)) = Ok l1
    /\ fst (Cover.layout (G := Lcg.generator) (Cover.sample_world false) 30
              Cover.white (85 # 10, 11 # 1) 4 (s_ "#AABBCC") (Some 42)
              (Cover.mkState (G := Lcg.generator) 99 [blank])) = Ok l2
    /\ choices_of l1 = choices_of l2
    /\ List.length (fst (fst (choices_of l1))) = 4%nat.
Proof.
  assert (E1 : exists l1,
             fst (Cover.layout (G := Lcg.generator) (Cover.sample_world false) 30
           Cover.white (85 # 10, 11 # 1) 4 (s_ "#AABBCC") (Some 42)
           (Cover.initial (G := Lcg.generator) 7)) = Ok l1
             /\ List.length (fst (fst (choices_of l1))) = 4%nat)
    by (eexists; split; vm_compute; reflexivity).
  assert (E2 : exists l2, fst (Cover.layout (G := Lcg.generator) (Cover.sample_world false) 30
              Cover.white (85 # 10, 11 # 1) 4 (s_ "#AABBCC") (Some 42)
              (Cover.mkState (G := Lcg.generator) 99 [blank])) = Ok l2)
    by (eexists; vm_compute; reflexivity).
  destruct E1 as (l1 & E1 & L1). destruct E2 as (l2 & E2).
  exists l1, l2. split; [exact E1|]. split; [exact E2|].
  split; [|exact L1].
  pose proof (seeded_build_deterministic (G := Lcg.generator)
                (Cover.sample_world false) (s_ "Cute Dinosaurs")
                (s_ "Friendly dinos!") 30 Cover.white (85 # 10, 11 # 1) 4
                None (s_ "#AABBCC") 42
                (Cover.initial (G := Lcg.generator) 7)
                (Cover.mkState (G := Lcg.generator) 99 [blank])) as H.
  cbv zeta in H.
  exact (same_result_ok _ _ _ _ _ (proj1 (proj2 H)) E1 E2).
Defined.

(** The seed matters: another seed selects other files. *)
Example seeds_differ :
  match fst (Cover.layout (G := Lcg.generator) (Cover.sample_world false) 30
               Cover.white (85 # 10, 11 # 1) 4 (s_ "#AABBCC") (Some 42)
               (Cover.initial (G := Lcg.generator) 7)),
        fst (Cover.layout (G := Lcg.generator) (Cover.sample_world false) 30
               Cover.white (85 # 10, 11 # 1) 4 (s_ "#AABBCC") (Some 43)
               (Cover.initial (G := Lcg.generator) 7)) with
  | Ok l1, Ok l2 => choices_of l1 <> choices_of l2
  | _, _ => False
  end.
Proof. vm_compute. intros H. inversion H. Qed.

(** * Further properties of the two scripts *)

(** ** Truncation and the smaller of two floats *)

Lemma int_floor x : (0 <= x)%Q -> Py.int x = Qfloor x.
Proof.
  destruct x as [n d]. unfold Py.int, Qfloor, Qle. simpl. intros H.
  apply Z.quot_div_nonneg; lia.
Qed.

Lemma int_le x t : (0 <= x)%Q -> (x <= inject_Z t)%Q -> Py.int x <= t.
Proof.
  intros P L. rewrite (int_floor x P). rewrite <- (Qfloor_Z t).
  apply Qfloor_resp_le. exact L.
Qed.

Lemma int_nonneg x : (0 <= x)%Q -> 0 <= Py.int x.
Proof.
  intros P. rewrite (int_floor x P). change 0 with (Qfloor 0).
  apply Qfloor_resp_le. exact P.
Qed.

Lemma int_nonpos x : (x <= 0)%Q -> Py.int x <= 0.
Proof.
  destruct x as [n d]. unfold Py.int, Qle. simpl. intros H.
  assert (N : n <= 0) by lia.
  rewrite <- (Z.opp_involutive n), Z.quot_opp_l by lia.
  pose proof (Z.quot_pos (- n) (Z.pos d) ltac:(lia) ltac:(lia)). lia.
Qed.

Lemma qmin_le_l a b : (Py.qmin a b <= a)%Q.
Proof.
  unfold Py.qmin. destruct (Qle_bool a b) eqn:E; [apply Qle_refl|].
  destruct (Qlt_le_dec b a) as [L|L]; [apply Qlt_le_weak, L|].
  apply Qle_bool_iff in L. congruence.
Qed.

Lemma qmin_le_r a b : (Py.qmin a b <= b)%Q.
Proof.
  unfold Py.qmin. destruct (Qle_bool a b) eqn:E; [|apply Qle_refl].
  apply Qle_bool_iff. exact E.
Qed.

Lemma qmin_cases a b : Py.qmin a b = a \/ Py.qmin a b = b.
Proof. unfold Py.qmin. destruct (Qle_bool a b); auto. Qed.

Lemma scaled_le (s t : Z) (scale : Q) :
  0 < s -> (scale <= inject_Z t / inject_Z s)%Q ->
  (inject_Z s * scale <= inject_Z t)%Q.
Proof.
  intros P L.
  assert (Ps : (0 < inject_Z s)%Q) by (unfold Qlt; simpl; lia).
  apply (Qmult_le_l _ _ (inject_Z s) Ps) in L.
  rewrite Qmult_div_r in L; [exact L|].
  intros E. rewrite E in Ps. discriminate.
Qed.

(** ** cover_builder.py: [_fit_within] *)

Lemma fit_within_spec (sw sh tw th : Z) :
  0 < sw -> 0 < sh -> 1 <= tw -> 1 <= th ->
  exists rw rh,
    Cover._fit_within (sw, sh) (tw, th) = Ok (rw, rh)
    /\ 1 <= rw <= tw /\ 1 <= rh <= th.
Proof.
  intros Psw Psh Ptw Pth. unfold Cover._fit_within.
  replace ((sw =? 0) || (sh =? 0)) with false
    by (symmetry; apply orb_false_iff; split; apply Z.eqb_neq; lia).
  set (scale := Py.qmin (inject_Z tw / inject_Z sw) (inject_Z th / inject_Z sh)).
  assert (Pw : (0 < inject_Z sw)%Q) by (unfold Qlt; simpl; lia).
  assert (Ph : (0 < inject_Z sh)%Q) by (unfold Qlt; simpl; lia).
  assert (S0 : (0 <= scale)%Q).
  { destruct (qmin_cases (inject_Z tw / inject_Z sw)
                (inject_Z th / inject_Z sh)) as [E|E];
      unfold scale; rewrite E; apply Qle_shift_div_l;
      try assumption; rewrite Qmult_0_l; unfold Qle; simpl; lia. }
  assert (Xw : (inject_Z sw * scale <= inject_Z tw)%Q)
    by (apply scaled_le; [exact Psw | apply qmin_le_l]).
  assert (Xh : (inject_Z sh * scale <= inject_Z th)%Q)
    by (apply scaled_le; [exact Psh | apply qmin_le_r]).
  assert (Nw : (0 <= inject_Z sw * scale)%Q)
    by (apply Qmult_le_0_compat; [apply Qlt_le_weak, Pw | exact S0]).
  assert (Nh : (0 <= inject_Z sh * scale)%Q)
    by (apply Qmult_le_0_compat; [apply Qlt_le_weak, Ph | exact S0]).
  pose proof (int_le _ _ Nw Xw). pose proof (int_le _ _ Nh Xh).
  do 2 eexists. split; [reflexivity|]. lia.
Qed.

(** X1: for a source of positive size and a target of at least one
    pixel each way, [_fit_within] returns a size of at least one pixel
    each way that does not exceed the target; a source with an empty side
    is a division by zero. *)
Theorem fit_within_bounds (sw sh tw th : Z) :
  (0 < sw -> 0 < sh -> 1 <= tw -> 1 <= th ->
   exists rw rh,
     Cover._fit_within (sw, sh) (tw, th) = Ok (rw, rh)
     /\ 1 <= rw <= tw /\ 1 <= rh <= th)
  /\ (sw = 0 \/ sh = 0 ->
      Cover._fit_within (sw, sh) (tw, th) = Raise ZeroDivisionError).
Proof.
  split; [apply fit_within_spec|].
  - intros Z0. unfold Cover._fit_within.
    replace ((sw =? 0) || (sh =? 0)) with true; [reflexivity|].
    symmetry. apply orb_true_iff.
    destruct Z0 as [->| ->]; [left | right]; reflexivity.
Qed.

Lemma fit_within_bounds_witness :
  exists rw rh,
    Cover._fit_within (1024, 768) (400, 400) = Ok (rw, rh)
    /\ 1 <= rw <= 400 /\ 1 <= rh <= 400.
Proof.
  destruct (fit_within_bounds 1024 768 400 400) as [H _].
  apply H; lia.
Defined.

(** ** cover_builder.py: [place_tilted_sheet] *)

Section PlaceSheet.

Context {G : RandomGen}.
Variable W : Cover.World.

Lemma inner_positive w h :
  41 <= w -> 41 <= h ->
  (w - 2 * (12 + Z.max 8 (Z.min w h / 20)) <=? 0)
  || (h - 2 * (12 + Z.max 8 (Z.min w h / 20)) <=? 0) = false.
Proof.
  intros Hw Hh.
  assert (D : Z.min w h / 20 * 20 <= Z.min w h)
    by (rewrite Z.mul_comm; apply Z.mul_div_le; lia).
  apply orb_false_iff. split; apply Z.leb_gt; lia.
Qed.

Lemma inner_empty w h :
  0 <= w -> 0 <= h -> w <= 40 \/ h <= 40 ->
  (w - 2 * (12 + Z.max 8 (Z.min w h / 20)) <=? 0)
  || (h - 2 * (12 + Z.max 8 (Z.min w h / 20)) <=? 0) = true.
Proof.
  intros Hw Hh S. apply orb_true_iff.
  destruct S; [left | right]; apply Z.leb_le; lia.
Qed.

Lemma place_small_box base sheet b0 b1 b2 b3 angle st :
  0 <= b2 - b0 -> 0 <= b3 - b1 -> b2 - b0 <= 40 \/ b3 - b1 <= 40 ->
  Cover.place_tilted_sheet W base sheet (b0, b1, b2, b3) angle st
  = (Ok tt, st).
Proof.
  intros Hw Hh S. unfold Cover.place_tilted_sheet.
  replace ((b2 - b0 <? 0) || (b3 - b1 <? 0)) with false
    by (symmetry; apply orb_false_iff; split; apply Z.ltb_ge; lia).
  rewrite (inner_empty _ _ Hw Hh S). reflexivity.
Qed.

Lemma place_large_box base sheet b0 b1 b2 b3 angle st :
  41 <= b2 - b0 -> 41 <= b3 - b1 ->
  0 < fst (size_of sheet) -> 0 < snd (size_of sheet) ->
  (base < List.length (Cover.heap st))%nat ->
  exists shadow paper px py st',
    Cover.place_tilted_sheet W base sheet (b0, b1, b2, b3) angle st
    = (Ok tt, st')
    /\ Cover.rng st' = Cover.rng st
    /\ nth base (Cover.heap st') blank
       = AlphaComposite paper (px, py)
           (AlphaComposite shadow (px, py) (nth base (Cover.heap st) blank))
    /\ size_of shadow = size_of paper
    /\ b0 + b2 <= 2 * px + width paper <= b0 + b2 + 1
    /\ b1 + b3 <= 2 * py + height paper <= b1 + b3 + 1.
Proof.
  intros Hw Hh Sw Sh Lb. unfold Cover.place_tilted_sheet.
  replace ((b2 - b0 <? 0) || (b3 - b1 <? 0)) with false
    by (symmetry; apply orb_false_iff; split; apply Z.ltb_ge; lia).
  rewrite (inner_positive _ _ Hw Hh).
  pose proof (inner_positive _ _ Hw Hh) as IP.
  apply orb_false_iff in IP. destruct IP as [I1 I2].
  apply Z.leb_gt in I1, I2.
  destruct (fit_within_spec (fst (size_of sheet)) (snd (size_of sheet))
              (b2 - b0 - 2 * (12 + Z.max 8 (Z.min (b2 - b0) (b3 - b1) / 20)))
              (b3 - b1 - 2 * (12 + Z.max 8 (Z.min (b2 - b0) (b3 - b1) / 20)))
              Sw Sh ltac:(lia) ltac:(lia)) as (rw & rh & Ef & _).
  cbn [size_of]. destruct (size_of sheet) as [sw sh] eqn:Es. cbn [fst snd] in Ef.
  rewrite (mbind_ok _ _ _ _ _ (lift_ok _ _ st Ef)).
  set (rs := Cover.rotated_size W angle (b2 - b0, b3 - b1)).
  unfold Cover.mbind, Cover.mutate. cbn [Cover.heap Cover.rng].
  do 5 eexists. split; [reflexivity|]. cbn [Cover.heap Cover.rng].
  split; [reflexivity|]. split.
  - rewrite nth_set_nth_same by (rewrite length_set_nth; exact Lb).
    rewrite nth_set_nth_same by exact Lb. reflexivity.
  - cbn [size_of width height fst snd]. unfold width, height. cbn [size_of].
    split; [reflexivity|].
    fold rs.
    pose proof (Z.div_mod (fst rs - (b2 - b0)) 2 ltac:(lia)).
    pose proof (Z.mod_pos_bound (fst rs - (b2 - b0)) 2 ltac:(lia)).
    pose proof (Z.div_mod (snd rs - (b3 - b1)) 2 ltac:(lia)).
    pose proof (Z.mod_pos_bound (snd rs - (b3 - b1)) 2 ltac:(lia)).
    lia.
Qed.

End PlaceSheet.

(** X2: [place_tilted_sheet] draws nothing, and raises nothing, on a
    box that is at most 40 pixels wide or high (the border and the padding
    leave no room for the art).  On a box of at least 41 pixels each way
    it composites exactly two layers onto the canvas, the shadow and then
    the rotated paper, both at the same position, the paper centred on the
    box to the pixel. *)
Theorem place_tilted_sheet_box_size {G : RandomGen} (W : Cover.World)
  (base : nat) (sheet : image) (b0 b1 b2 b3 : Z) (angle : Q)
  (st : Cover.state) :
  (0 <= b2 - b0 -> 0 <= b3 - b1 -> b2 - b0 <= 40 \/ b3 - b1 <= 40 ->
   Cover.place_tilted_sheet W base sheet (b0, b1, b2, b3) angle st
   = (Ok tt, st))
  /\ (41 <= b2 - b0 -> 41 <= b3 - b1 ->
      0 < fst (size_of sheet) -> 0 < snd (size_of sheet) ->
      (base < List.length (Cover.heap st))%nat ->
      exists shadow paper px py st',
        Cover.place_tilted_sheet W base sheet (b0, b1, b2, b3) angle st
        = (Ok tt, st')
        /\ Cover.rng st' = Cover.rng st
        /\ nth base (Cover.heap st') blank
           = AlphaComposite paper (px, py)
               (AlphaComposite shadow (px, py)
                  (nth base (Cover.heap st) blank))
        /\ size_of shadow = size_of paper
        /\ b0 + b2 <= 2 * px + width paper <= b0 + b2 + 1
        /\ b1 + b3 <= 2 * py + height paper <= b1 + b3 + 1).
Proof.
  split; [apply place_small_box | apply place_large_box].
Qed.

Lemma place_tilted_sheet_box_size_witness :
  Cover.place_tilted_sheet (G := Lcg.generator) (Cover.sample_world true) 0
    (Opened (s_ "fbnp_1.png") (1024, 1024)) (100, 100, 140, 900) (5 # 1)
    (Cover.mkState (G := Lcg.generator) 7 [blank])
  = (Ok tt, Cover.mkState (G := Lcg.generator) 7 [blank]).
Proof.
  destruct (place_tilted_sheet_box_size (G := Lcg.generator)
              (Cover.sample_world true) 0
              (Opened (s_ "fbnp_1.png") (1024, 1024)) 100 100 140 900 (5 # 1)
              (Cover.mkState (G := Lcg.generator) 7 [blank])) as [H _].
  apply H; lia.
Defined.

(** ** cover_builder.py: [random_boxes] *)

Section Boxes.

Context {G : RandomGen}.

Lemma randint_range a b s :
  a <= b ->
  exists v s', randint a b s = (Ok v, s') /\ a <= v <= b.
Proof.
  intros L. unfold randint.
  replace (0 <? b + 1 - a) with true by (symmetry; apply Z.ltb_lt; lia).
  pose proof (randbelow_lt s (Z.to_nat (b + 1 - a)) ltac:(lia)) as B.
  destruct (randbelow s (Z.to_nat (b + 1 - a))) as [k s']. cbn [fst] in B.
  do 2 eexists. split; [reflexivity|]. lia.
Qed.

Lemma randint_empty a b s :
  b < a -> randint a b s = (Raise ValueError, s).
Proof.
  intros L. unfold randint.
  replace (0 <? b + 1 - a) with false by (symmetry; apply Z.ltb_ge; lia).
  reflexivity.
Qed.

Lemma draw_random_r_ok {A : Type} (f : gen -> result A * gen) st a g' :
  f (Cover.rng st) = (Ok a, g') ->
  Cover.draw_random_r f st = (Ok a, Cover.mkState g' (Cover.heap st)).
Proof. intros E. unfold Cover.draw_random_r. rewrite E. reflexivity. Qed.

Lemma jitter_range c : 0 <= c -> (- c) / 10 <= c / 10.
Proof.
  intros P.
  assert ((- c) / 10 <= 0) by (apply Z.div_le_upper_bound; lia).
  assert (0 <= c / 10) by (apply Z.div_pos; lia).
  lia.
Qed.

Lemma random_cells_spec x0 bleed cw ch cells st :
  0 <= cw -> 0 <= ch ->
  exists boxes st',
    Cover.random_cells x0 bleed cw ch cells st = (Ok boxes, st')
    /\ Cover.heap st' = Cover.heap st
    /\ Forall2 (jittered x0 bleed cw ch) cells boxes.
Proof.
  intros Pw Ph. revert st.
  induction cells as [|[r c] rest IH]; intros st; simpl.
  - exists [], st. repeat split. constructor.
  - destruct (randint_range _ _ (Cover.rng st) (jitter_range cw Pw))
      as (jx & g1 & Ex & Rx).
    rewrite (mbind_ok _ _ _ _ _ (draw_random_r_ok _ st jx g1 Ex)).
    set (st1 := Cover.mkState g1 (Cover.heap st)).
    destruct (randint_range _ _ (Cover.rng st1) (jitter_range ch Ph))
      as (jy & g2 & Ey & Ry).
    rewrite (mbind_ok _ _ _ _ _ (draw_random_r_ok _ st1 jy g2 Ey)).
    destruct (IH (Cover.mkState g2 (Cover.heap st1)))
      as (boxes & st' & E & H & F).
    rewrite (mbind_ok _ _ _ _ _ E).
    do 2 eexists. split; [reflexivity|]. split; [exact H|].
    constructor; [|exact F].
    unfold jittered. cbn [fst snd]. repeat split; lia.
Qed.

Lemma random_boxes_spec total bleed x0 x1 st :
  x0 <= x1 -> 0 <= Cover.h total ->
  exists boxes cells st',
    Cover.random_boxes total bleed x0 x1 st = (Ok boxes, st')
    /\ Cover.heap st' = Cover.heap st
    /\ Permutation cells boxes
    /\ Forall2 (jittered x0 bleed ((x1 - x0) / 3) (Cover.h total / 2))
         grid_cells cells.
Proof.
  intros Lx Lh. unfold Cover.random_boxes.
  destruct (random_cells_spec x0 bleed ((x1 - x0) / 3) (Cover.h total / 2)
              grid_cells st) as (cells & st1 & E & H & F).
  - apply Z.div_pos; lia.
  - apply Z.div_pos; lia.
  - unfold grid_cells in E. rewrite (mbind_ok _ _ _ _ _ E).
    unfold Cover.draw_random.
    pose proof (shuffle_perm cells (Cover.rng st1)) as P.
    destruct (shuffle cells (Cover.rng st1)) as [boxes g']. cbn [fst] in P.
    exists boxes, cells. eexists. split; [reflexivity|].
    cbn [Cover.heap]. auto.
Qed.

Lemma random_boxes_negative total bleed x0 x1 st :
  x1 < x0 ->
  Cover.random_boxes total bleed x0 x1 st = (Raise ValueError, st).
Proof.
  intros L. unfold Cover.random_boxes. simpl Cover.random_cells.
  assert (C : (x1 - x0) / 3 < 0) by (apply Z.div_lt_upper_bound; lia).
  assert (A : 0 <= (- ((x1 - x0) / 3)) / 10) by (apply Z.div_pos; lia).
  assert (B : (x1 - x0) / 3 / 10 < 0) by (apply Z.div_lt_upper_bound; lia).
  unfold Cover.mbind at 1. unfold Cover.mbind at 1.
  unfold Cover.draw_random_r at 1.
  rewrite randint_empty by lia. destruct st. reflexivity.
Qed.

End Boxes.

(** X3: on a panel that is not of negative width, under a canvas that
    is not of negative height, [random_boxes] raises nothing, creates no
    image and returns six boxes, one for each cell of the 2 x 3 grid, in
    shuffled order: each is the cell's corner moved by at most a tenth of
    the cell each way and measures eight tenths of the cell.  On a panel of
    negative width it raises the invalid-argument error of the first
    random draw. *)
Theorem random_boxes_grid {G : RandomGen} (total : Cover.Size)
  (bleed_px panel_x0 panel_x1 : Z) (st : Cover.state) :
  (panel_x0 <= panel_x1 -> 0 <= Cover.h total ->
   exists boxes cells st',
     Cover.random_boxes total bleed_px panel_x0 panel_x1 st = (Ok boxes, st')
     /\ Cover.heap st' = Cover.heap st
     /\ List.length boxes = 6%nat
     /\ Permutation cells boxes
     /\ Forall2 (jittered panel_x0 bleed_px ((panel_x1 - panel_x0) / 3)
                   (Cover.h total / 2)) grid_cells cells)
  /\ (panel_x1 < panel_x0 ->
      Cover.random_boxes total bleed_px panel_x0 panel_x1 st
      = (Raise ValueError, st)).
Proof.
  split; [|apply random_boxes_negative].
  intros Lx Lh.
  destruct (random_boxes_spec total bleed_px panel_x0 panel_x1 st Lx Lh)
    as (boxes & cells & st' & E & H & P & F).
  exists boxes, cells, st'. repeat split; try assumption.
  rewrite <- (Permutation_length P), <- (Forall2_length F). reflexivity.
Qed.

Lemma random_boxes_grid_witness :
  exists boxes st',
    Cover.random_boxes (G := Lcg.generator) (Cover.mkSize 5195 3375) 38
      2608 5158 (Cover.initial (G := Lcg.generator) 7) = (Ok boxes, st')
    /\ List.length boxes = 6%nat.
Proof.
  destruct (random_boxes_grid (G := Lcg.generator) (Cover.mkSize 5195 3375)
              38 2608 5158 (Cover.initial (G := Lcg.generator) 7)) as [H _].
  destruct H as (boxes & cells & st' & E & _ & L & _).
  - lia.
  - simpl. lia.
  - exists boxes, st'. split; [exact E | exact L].
Defined.

(** ** cover_builder.py: stepping through a build *)

Lemma lift_ok_inv {G : RandomGen} {A : Type} (r : result A) st a st' :
  Cover.lift r st = (Ok a, st') -> r = Ok a.
Proof. unfold Cover.lift. intros H. inversion H. reflexivity. Qed.

(** ** cover_builder.py: how many sheets a build places *)

Section Counts.

Context {G : RandomGen}.
Variable W : Cover.World.

Lemma place_sheets_length base imgs :
  forall i front back placed st r,
    fst (Cover.place_sheets W base i imgs front back placed st) = Ok r ->
    List.length r = (List.length placed + List.length imgs)%nat.
Proof.
  induction imgs as [|img rest IH]; intros i front back placed st r H;
    simpl in H.
  - inversion H; subst. simpl. lia.
  - apply mbind_ok_inv in H. destruct H as (angle & st1 & _ & H).
    apply mbind_ok_inv in H. destruct H as ([b remaining] & st2 & _ & H).
    apply mbind_ok_inv in H. destruct H as (art & st3 & _ & H).
    apply mbind_ok_inv in H. destruct H as (u & st4 & _ & H).
    apply IH in H. rewrite H, length_app. simpl. lia.
Qed.

Lemma build_cover_ok_inv title description pages pp trim max_images
  spine_title bg seed_arg st c :
  fst (Cover.build_cover W title description pages pp trim max_images
         spine_title bg seed_arg st) = Ok c ->
  (exists g, fst (Cover.load_interior_images (Cover.listing W) max_images g)
             = Ok (Cover.interior c))
  /\ List.length (Cover.all_boxes c) = List.length (Cover.interior c)
  /\ exists path,
       Cover.pick_first_existing_font W Cover.DEFAULT_TITLE_FONTS = Some path.
Proof.
  intros H. unfold Cover.build_cover in H.
  unfold Cover.compute_dimensions in H. cbv zeta in H. cbn iota in H.
  apply mbind_ok_inv in H. destruct H as (u & st0 & _ & H).
  apply mbind_ok_inv in H. destruct H as (base & st1 & _ & H).
  apply mbind_ok_inv in H. destruct H as (files & st2 & Ef & H).
  apply mbind_ok_inv in H. destruct H as (imgs & st3 & Ei & H).
  apply mbind_ok_inv in H. destruct H as (front & st4 & _ & H).
  apply mbind_ok_inv in H. destruct H as (back & st5 & _ & H).
  apply mbind_ok_inv in H. destruct H as (placed & st6 & Ep & H).
  destruct (Cover.pick_first_existing_font W Cover.DEFAULT_TITLE_FONTS)
    as [path|] eqn:Efont; [|discriminate].
  apply mbind_ok_inv in H. destruct H as (u1 & st7 & _ & H).
  apply mbind_ok_inv in H. destruct H as (u2 & st8 & _ & H).
  apply mbind_ok_inv in H. destruct H as (u3 & st9 & _ & H).
  apply mbind_ok_inv in H. destruct H as (u4 & st10 & _ & H).
  apply mbind_ok_inv in H. destruct H as (flat & st11 & _ & H).
  apply mbind_ok_inv in H. destruct H as (out & st12 & _ & H).
  inversion H; subst c. cbn [Cover.interior Cover.all_boxes].
  split; [|split; [|eauto]].
  - exists (Cover.rng st1). unfold Cover.draw_random_r in Ef.
    destruct (Cover.load_interior_images (Cover.listing W) max_images
                (Cover.rng st1)) as [r g'].
    inversion Ef; subst. reflexivity.
  - apply lift_ok_inv in Ei. apply open_all_length in Ei.
    assert (L : List.length placed = (0 + List.length imgs)%nat).
    { apply (place_sheets_length base imgs 0 front back [] st5).
      rewrite Ep. reflexivity. }
    lia.
Qed.

End Counts.

(** X5: whatever [--max-images] is passed, [main] builds with a
    maximum between 2 and 5.  With that maximum the selection of line 288
    raises the not-found error when the directory has no interior file,
    and otherwise takes [min(maximum, n)] of the [n] interior files:
    between one and five, at least two when there are two, all among the
    first six in ascending order of the numbers in their names, and
    distinct when the directory lists no entry twice. *)
Theorem main_sheet_count {G : RandomGen} (W : Cover.World)
  (title description : str) (pages : Z) (pp : Cover.paper) (trim_arg : str)
  (max_images : Z) (spine_title : option str) (bg : str)
  (seed_arg : option Z) (g : gen) :
  let m := if 5 <? (if max_images <? 2 then 2 else max_images) then 5
           else (if max_images <? 2 then 2 else max_images) in
  let files := Cover.interior_files (Cover.listing W) in
  let n := Z.of_nat (List.length files) in
  (forall st,
     Cover.main W title description pages pp trim_arg max_images
       spine_title bg seed_arg st
     = Cover.mbind (Cover.lift (Cover.parse_trim trim_arg))
         (fun trim =>
            Cover.build_cover W title description pages pp trim m
              spine_title bg seed_arg) st)
  /\ 2 <= m <= 5
  /\ StronglySorted page_order files
  /\ (files = [] ->
      fst (Cover.load_interior_images (Cover.listing W) m g)
      = Raise FileNotFoundError)
  /\ (files <> [] ->
      exists sel,
        fst (Cover.load_interior_images (Cover.listing W) m g) = Ok sel
        /\ Z.of_nat (List.length sel) = Z.min m n
        /\ (1 <= List.length sel <= 5)%nat
        /\ (2 <= List.length files -> 2 <= List.length sel)%nat
        /\ incl sel (firstn 6 files)
        /\ (NoDup (Cover.listing W) -> NoDup sel)).
Proof.
  intros m files n.
  assert (Rm : 2 <= m <= 5).
  { unfold m. destruct (max_images <? 2) eqn:E1.
    - simpl. lia.
    - apply Z.ltb_ge in E1. destruct (5 <? max_images) eqn:E2; [lia|].
      apply Z.ltb_ge in E2. lia. }
  split; [reflexivity|]. split; [exact Rm|].
  split; [apply interior_files_page_order|]. split.
  - intros E. apply load_interior_images_none. exact E.
  - intros NE.
    destruct (load_interior_images_some (Cover.listing W) m g NE)
      as (sel & Es & Len & Sub & ND).
    fold files in Len, Sub. fold n in Len.
    assert (Pn : 1 <= n).
    { unfold n. destruct files; [congruence | simpl; lia]. }
    exists sel. split; [exact Es|]. split; [lia|].
    split; [lia|]. split; [unfold n in *; lia|]. split; assumption.
Qed.

Lemma main_sheet_count_witness :
  exists sel,
    fst (Cover.load_interior_images (G := Lcg.generator)
           (Cover.listing (Cover.sample_world false)) 5 (seed 42)) = Ok sel
    /\ List.length sel = 5%nat.
Proof.
  destruct (main_sheet_count (G := Lcg.generator) (Cover.sample_world false)
              (s_ "Cute Dinosaurs") (s_ "Friendly dinos!") 30 Cover.white
              (s_ "8.5x11") 9 None (s_ "#AABBCC") (Some 42) (seed 42))
    as (_ & _ & _ & _ & H).
  destruct H as (sel & E & L & _).
  - vm_compute. discriminate.
  - exists sel. split; [exact E|].
    assert (N : Z.of_nat
                  (List.length
                     (Cover.interior_files
                        (Cover.listing (Cover.sample_world false)))) = 10)
      by (vm_compute; reflexivity).
    rewrite N in L. simpl in L. lia.
Defined.

(** ** interior_builder.py: the image of a coloring page and the margins *)

Lemma coloring_page_inv W tw th dpi mw mh f pg :
  Interior.coloring_page W tw th dpi mw mh f = Ok pg ->
  exists iw ih,
    Interior.open_image W f = Ok (iw, ih) /\ iw <> 0 /\ ih <> 0
    /\ let scale := Py.qmin (inject_Z mw / inject_Z iw)
                            (inject_Z mh / inject_Z ih) in
       let new_w := Py.int (inject_Z iw * scale) in
       let new_h := Py.int (inject_Z ih * scale) in
       1 <= new_w /\ 1 <= new_h
       /\ pg = Interior.Coloring
                 (Interior.inches_to_px tw dpi, Interior.inches_to_px th dpi)
                 f (new_w, new_h)
                 ((Interior.inches_to_px tw dpi - new_w) / 2,
                  (Interior.inches_to_px th dpi - new_h) / 2).
Proof.
  unfold Interior.coloring_page. intros H.
  destruct (Interior.open_image W f) as [[iw ih]|e]; simpl in H;
    [|discriminate].
  destruct ((iw =? 0) || (ih =? 0)) eqn:Z0; [discriminate|].
  apply orb_false_iff in Z0. destruct Z0 as [Zw Zh].
  apply Z.eqb_neq in Zw, Zh.
  match type of H with
  | (if ?c then _ else _) = _ => destruct c eqn:Neg; [discriminate|]
  end.
  apply orb_false_iff in Neg. destruct Neg as [Nw Nh].
  apply Z.leb_gt in Nw, Nh.
  destruct (Interior.new_blank_page tw th dpi) as [sz|e] eqn:Ep;
    simpl in H; [|discriminate].
  apply new_blank_page_ok in Ep. destruct Ep as (-> & _ & _).
  exists iw, ih. split; [reflexivity|]. split; [exact Zw|].
  split; [exact Zh|]. cbv zeta. split; [lia|]. split; [lia|].
  inversion H. reflexivity.
Qed.

Lemma scaled_int_le (s t : Z) (scale : Q) :
  0 < s -> (scale <= inject_Z t / inject_Z s)%Q ->
  1 <= Py.int (inject_Z s * scale) -> Py.int (inject_Z s * scale) <= t.
Proof.
  intros P L One.
  destruct (Qlt_le_dec (inject_Z s * scale) 0) as [N|N].
  - pose proof (int_nonpos _ (Qlt_le_weak _ _ N)). lia.
  - apply int_le; [exact N | apply scaled_le; assumption].
Qed.

Lemma coloring_page_inside W tw th dpi margin_px f pg :
  sizes_nonneg W ->
  Interior.coloring_page W tw th dpi
    (Interior.inches_to_px tw dpi - 2 * margin_px)
    (Interior.inches_to_px th dpi - 2 * margin_px) f = Ok pg ->
  inside_margins (Interior.inches_to_px tw dpi) (Interior.inches_to_px th dpi)
    margin_px pg.
Proof.
  intros NN H. apply coloring_page_inv in H.
  destruct H as (iw & ih & Eo & Zw & Zh & H). cbv zeta in H.
  destruct H as (Ow & Oh & ->).
  destruct (NN _ _ Eo) as [Pw Ph]. cbn [fst snd] in Pw, Ph.
  set (pw := Interior.inches_to_px tw dpi) in *.
  set (ph := Interior.inches_to_px th dpi) in *.
  set (scale := Py.qmin _ _) in *.
  pose proof (scaled_int_le iw (pw - 2 * margin_px) scale ltac:(lia)
                (qmin_le_l _ _) Ow) as Bw.
  pose proof (scaled_int_le ih (ph - 2 * margin_px) scale ltac:(lia)
                (qmin_le_r _ _) Oh) as Bh.
  set (nw := Py.int (inject_Z iw * scale)) in *.
  set (nh := Py.int (inject_Z ih * scale)) in *.
  unfold inside_margins.
  pose proof (Z.div_mod (pw - nw) 2 ltac:(lia)) as Dw.
  pose proof (Z.mod_pos_bound (pw - nw) 2 ltac:(lia)) as Mw.
  pose proof (Z.div_mod (ph - nh) 2 ltac:(lia)) as Dh.
  pose proof (Z.mod_pos_bound (ph - nh) 2 ltac:(lia)) as Mh.
  repeat split; lia.
Qed.

Lemma coloring_loop_forall (P : Interior.page -> Prop) W tw th dpi mw mh :
  (forall f pg, Interior.coloring_page W tw th dpi mw mh f = Ok pg -> P pg) ->
  forall files pages out,
    Forall P pages ->
    Interior.coloring_loop W tw th dpi mw mh files pages = Ok out ->
    Forall P out.
Proof.
  intros Hp. induction files as [|f rest IH]; intros pages out F H;
    simpl in H.
  - inversion H; subst. exact F.
  - destruct (Interior.coloring_page W tw th dpi mw mh f) as [pg|e] eqn:E;
      simpl in H; [|discriminate].
    apply (IH _ _ (proj2 (Forall_app _ _ _) (conj F
                     (Forall_cons _ (Hp _ _ E) (Forall_nil _)))) H).
Qed.

(** X6: in a document the interior build exports, the image of every
    coloring page is at least one pixel each way, lies inside the margin
    on all four sides of a page of the trim size, and is centred up to
    the odd pixel. *)
Theorem coloring_pages_inside_margins (W : Interior.World) (trim : Q * Q)
  (dpi : Z) (margin_in : Q) (no_bleed : bool) (doc : list Interior.page) :
  sizes_nonneg W ->
  Interior.build_interior W trim dpi margin_in no_bleed = Ok doc ->
  Forall (inside_margins (Interior.inches_to_px (fst trim) dpi)
            (Interior.inches_to_px (snd trim) dpi)
            (Interior.inches_to_px margin_in dpi)) doc.
Proof.
  intros NN H. unfold Interior.build_interior in H.
  destruct (Interior.add_front_matter W [] (fst trim) (snd trim) dpi)
    as [fm|e] eqn:Efm; simpl in H; [|discriminate].
  destruct (add_front_matter_ok _ _ _ _ _ _ Efm) as (p1 & p2 & -> & B & C).
  unfold Interior.add_coloring_pages in H.
  destruct (Interior.sorted_files W) as [files|e] eqn:Es; simpl in H;
    [|discriminate].
  destruct files as [|f0 fs] eqn:Ef; [discriminate|]. rewrite <- Ef in *.
  match type of H with
  | context [Interior.coloring_loop ?a ?b ?c ?d ?e ?g ?h ?i] =>
      destruct (Interior.coloring_loop a b c d e g h i) as [out|e'] eqn:El;
        simpl in H; [|discriminate]
  end.
  assert (F : Forall (inside_margins (Interior.inches_to_px (fst trim) dpi)
                        (Interior.inches_to_px (snd trim) dpi)
                        (Interior.inches_to_px margin_in dpi)) out).
  { eapply coloring_loop_forall; [| |exact El].
    - intros f pg E. apply (coloring_page_inside _ _ _ _ _ _ _ NN E).
    - simpl. destruct p1; try discriminate. destruct p2; try discriminate.
      repeat constructor. }
  destruct out as [|first rest]; [discriminate|].
  inversion H; subst doc. exact F.
Qed.

Lemma coloring_pages_inside_margins_witness :
  exists doc,
    Interior.build_interior Interior.sample_world (17 # 2, 11 # 1) 300 (1 # 2)
      false = Ok doc
    /\ Forall (inside_margins 2550 3300 150) doc.
Proof.
  destruct (Interior.build_interior Interior.sample_world (17 # 2, 11 # 1) 300
              (1 # 2) false) as [doc|e] eqn:E;
    [|vm_compute in E; discriminate].
  exists doc. split; [reflexivity|].
  apply (coloring_pages_inside_margins Interior.sample_world (17 # 2, 11 # 1) 300
           (1 # 2) false doc); [|exact E].
  intros f sz Eo. inversion Eo; subst. simpl. lia.
Defined.

Lemma sorted_files_nonempty W files :
  Interior.sorted_files W = Ok files ->
  glob (Interior.listing W) <> [] -> files <> [].
Proof.
  intros H NE E. subst files. apply sorted_files_ok in H.
  destruct H as [P _]. apply Permutation_nil in P. contradiction.
Qed.

Lemma coloring_page_no_room W tw th dpi mw mh f iw ih :
  Interior.open_image W f = Ok (iw, ih) -> 0 < iw -> 0 < ih ->
  mw <= 0 \/ mh <= 0 ->
  Interior.coloring_page W tw th dpi mw mh f = Raise ValueError.
Proof.
  intros Eo Pw Ph No. unfold Interior.coloring_page. rewrite Eo. simpl.
  replace ((iw =? 0) || (ih =? 0)) with false
    by (symmetry; apply orb_false_iff; split; apply Z.eqb_neq; lia).
  set (scale := Py.qmin _ _).
  assert (Qw : (0 < inject_Z iw)%Q) by (unfold Qlt; simpl; lia).
  assert (Qh : (0 < inject_Z ih)%Q) by (unfold Qlt; simpl; lia).
  assert (S0 : (scale <= 0)%Q).
  { destruct No as [No|No].
    - apply (Qle_trans _ _ _ (qmin_le_l _ _)).
      apply Qle_shift_div_r; [exact Qw|]. rewrite Qmult_0_l.
      unfold Qle; simpl; lia.
    - apply (Qle_trans _ _ _ (qmin_le_r _ _)).
      apply Qle_shift_div_r; [exact Qh|]. rewrite Qmult_0_l.
      unfold Qle; simpl; lia. }
  assert (Xw : (inject_Z iw * scale <= 0)%Q).
  { rewrite <- (Qmult_0_r (inject_Z iw)).
    apply Qmult_le_l; assumption. }
  pose proof (int_nonpos _ Xw) as Nw.
  replace (Py.int (inject_Z iw * scale) <=? 0) with true
    by (symmetry; apply Z.leb_le; exact Nw).
  reflexivity.
Qed.

(** X7: when the margins leave no printable width or no printable
    height, a build that finds its font and its images (every discovered
    name numbered, every image opening to a positive size) stops with a
    [ValueError] at the first image instead of writing a document. *)
Theorem build_interior_no_printable_area (W : Interior.World) (trim : Q * Q)
  (dpi : Z) (margin_in : Q) (no_bleed : bool) (font : str) :
  Interior.pick_first_existing_font W Interior.DEFAULT_FONTS = Ok font ->
  glob (Interior.listing W) <> [] ->
  (forall p, In p (glob (Interior.listing W)) ->
     exists k, Interior.sort_key p = Ok k) ->
  (forall p, In p (glob (Interior.listing W)) ->
     exists iw ih,
       Interior.open_image W p = Ok (iw, ih) /\ 0 < iw /\ 0 < ih) ->
  Interior.inches_to_px (fst trim) dpi
    <= 2 * Interior.inches_to_px margin_in dpi
  \/ Interior.inches_to_px (snd trim) dpi
    <= 2 * Interior.inches_to_px margin_in dpi ->
  Interior.build_interior W trim dpi margin_in no_bleed = Raise ValueError.
Proof.
  intros Hf NE Hk Ho No. unfold Interior.build_interior.
  unfold Interior.add_front_matter. rewrite Hf. simpl.
  destruct (new_blank_page_cases (fst trim) (snd trim) dpi)
    as [(_ & _ & Ep)|[_ Ep]]; rewrite Ep; simpl; [|reflexivity].
  destruct (Interior.textbbox W 100 Interior.belongs_text) as [[[b0 b1] b2] b3].
  destruct (Interior.textbbox W 60 Interior.copyright_text) as [[[c0 c1] c2] c3].
  simpl. unfold Interior.add_coloring_pages.
  destruct (keyed_total _ Hk) as [ks Eks].
  destruct (Interior.sorted_files W) as [files|e] eqn:Es.
  2:{ unfold Interior.sorted_files in Es. rewrite Eks in Es. discriminate. }
  pose proof (sorted_files_nonempty _ _ Es NE) as NEf.
  destruct (sorted_files_ok _ _ Es) as [P _].
  destruct files as [|f0 fs]; [congruence|]. simpl.
  destruct (Ho f0) as (iw & ih & Eo & Pw & Ph).
  { apply (Permutation_in _ P). left. reflexivity. }
  rewrite (coloring_page_no_room W _ _ _ _ _ f0 iw ih Eo Pw Ph);
    [reflexivity|].
  change (Interior.inches_to_px (fst trim) dpi
            - 2 * Interior.inches_to_px margin_in dpi <= 0
          \/ Interior.inches_to_px (snd trim) dpi
            - 2 * Interior.inches_to_px margin_in dpi <= 0).
  lia.
Qed.

Lemma build_interior_no_printable_area_witness :
  Interior.build_interior Interior.sample_world (17 # 2, 11 # 1) 300 (9 # 2)
    false = Raise ValueError.
Proof.
  apply (build_interior_no_printable_area Interior.sample_world (17 # 2, 11 # 1)
           300 (9 # 2) false
           (s_ "/usr/share/fonts/truetype/dejavu/DejaVuSans-Bold.ttf")).
  - reflexivity.
  - discriminate.
  - intros p Hp. vm_compute in Hp.
    destruct Hp as [<-|[<-|[<-|[]]]]; eexists; vm_compute; reflexivity.
  - intros p Hp. exists 1024, 1024. split; [reflexivity|]. lia.
  - left. vm_compute. discriminate.
Defined.

(** ** interior_builder.py: what stops a build, and in which order *)















(** ** cover_builder.py: when the spine text is drawn *)

Section SpineDrawn.

Context {G : RandomGen}.
Variable W : Cover.World.

(** With the condition of line 360 the spine step leaves spine text on
    the canvas. *)
Lemma draw_spine_marks base path spine_title pages total spine_px x0 st :
  spine_condition spine_title pages spine_px = true ->
  (base < List.length (Cover.heap st))%nat ->
  fst (Cover.draw_spine W base path spine_title pages total spine_px x0 st)
  = Ok tt
  /\ spine_marked base
       (snd (Cover.draw_spine W base path spine_title pages total spine_px
               x0 st)).
Proof.
  unfold spine_condition, Cover.draw_spine. intros -> L.
  split; [reflexivity|]. unfold spine_marked. simpl.
  rewrite length_set_nth. split; [exact L|].
  rewrite nth_set_nth_same by exact L. reflexivity.
Qed.

Lemma draw_spine_skips base path spine_title pages total spine_px x0 st :
  spine_condition spine_title pages spine_px = false ->
  Cover.draw_spine W base path spine_title pages total spine_px x0 st
  = (Ok tt, st).
Proof. unfold spine_condition, Cover.draw_spine. intros ->. reflexivity. Qed.

End SpineDrawn.

(** With the floats of the interpreter, 79 pages of any paper make a
    spine of at least one pixel. *)
Lemma spine_px_at_79_binary64 fl tw th pp pages :
  rounds_like_binary64 fl -> 79 <= pages <= 1000000 ->
  0 < Cover.spine_px_of (Cover.compute_dimensions_fl fl tw th pages pp).
Proof.
  intros Hfl [P79 Pmax].
  unfold Cover.compute_dimensions_fl, Cover.spine_px_of,
    Cover.inches_to_px_fl. cbn [fst snd].
  change (inject_Z Cover.DPI) with (300 # 1).
  pose proof (thickness_small pp) as [_ Th1].
  assert (Th0 : (2 # 1000 <= Cover.PAPER_THICKNESS pp)%Q)
    by (destruct pp; unfold Qle; simpl; lia).
  destruct (fl_close fl (Cover.PAPER_THICKNESS pp) Hfl) as (_ & T1 & T2);
    [split; lra|].
  set (T := fl (Cover.PAPER_THICKNESS pp)) in *.
  assert (Pq : (79 <= inject_Z pages <= 1000000)%Q).
  { split; [change 79%Q with (inject_Z 79)
           | change 1000000%Q with (inject_Z 1000000)];
      rewrite <- Zle_Qle; lia. }
  assert (Sp0 : (1 # 10 <= T * inject_Z pages <= 11000)%Q).
  { destruct Pq as [Q1 Q2]. split.
    - apply (Qle_trans _ (T * 79)); [lra|].
      rewrite (Qmult_comm T 79), (Qmult_comm T (inject_Z pages)).
      apply Qmult_le_compat_r; lra.
    - apply (Qle_trans _ (T * 1000000)); [|lra].
      rewrite (Qmult_comm T (inject_Z pages)), (Qmult_comm T 1000000).
      apply Qmult_le_compat_r; lra. }
  destruct (fl_close fl (T * inject_Z pages)%Q Hfl) as (_ & S1 & S2);
    [split; lra|].
  set (Sp := fl (T * inject_Z pages)%Q) in *.
  destruct (fl_close fl (Sp * (300 # 1))%Q Hfl) as (_ & B1 & _);
    [split; lra|].
  assert (L : (inject_Z 1 <= fl (Sp * (300 # 1)))%Q)
    by (change (inject_Z 1) with 1%Q; lra).
  apply round_mono in L. rewrite round_inject in L. lia.
Qed.

(** X10: the third test of line 360 is implied by the second: with the
    floats of the interpreter, from 79 pages on (up to a million) the
    spine is at least one pixel wide on every paper.  So the spine step
    (lines 359-375), reached on a canvas that exists with a non-empty
    spine title and at least 79 pages, composites the rotated spine text
    onto the canvas, and reached with no title, an empty one or fewer
    pages it changes nothing. *)
Theorem spine_text_drawn_when_due {G : RandomGen} (W : Cover.World)
  (fl : Q -> Q) (base : nat) (path : str) (spine_title : option str)
  (pages : Z) (pp : Cover.paper) (tw th : Q) (total : Cover.Size) (x0 : Z)
  (st : Cover.state) :
  let spine_px :=
    Cover.spine_px_of (Cover.compute_dimensions_fl fl tw th pages pp) in
  let step := Cover.draw_spine W base path spine_title pages total spine_px
                x0 st in
  rounds_like_binary64 fl ->
  (79 <= pages <= 1000000 -> 0 < spine_px)
  /\ (Cover.truthy spine_title = true -> 79 <= pages <= 1000000 ->
      0 <= Cover.h total -> (base < List.length (Cover.heap st))%nat ->
      fst step = Ok tt /\ spine_marked base (snd step))
  /\ (Cover.truthy spine_title = false \/ pages < 79 -> step = (Ok tt, st)).
Proof.
  intros spine_px step Hfl.
  split; [apply spine_px_at_79_binary64; exact Hfl|]. split.
  - intros T P _ L. apply draw_spine_marks; [|exact L].
    unfold spine_condition. rewrite T.
    replace (79 <=? pages) with true
      by (symmetry; apply Z.leb_le; exact (proj1 P)).
    apply Z.ltb_lt. apply spine_px_at_79_binary64; assumption.
  - intros No. apply draw_spine_skips. unfold spine_condition.
    destruct No as [-> | Lt]; [reflexivity|].
    replace (79 <=? pages) with false by (symmetry; apply Z.leb_gt; exact Lt).
    rewrite andb_false_r. reflexivity.
Qed.

Lemma spine_text_drawn_when_due_witness :
  0 < Cover.spine_px_of
        (Cover.compute_dimensions_fl (fun x => x) (85 # 10) (11 # 1) 120
           Cover.white)
  /\ spine_marked (G := Lcg.generator) 0
       (snd (Cover.draw_spine (G := Lcg.generator) (Cover.sample_world false)
               0 (s_ "/usr/share/fonts/truetype/dejavu/DejaVuSans-Bold.ttf")
               (Some (s_ "Dinos")) 120 (Cover.mkSize 5276 3375)
               (Cover.spine_px_of
                  (Cover.compute_dimensions_fl (fun x => x) (85 # 10)
                     (11 # 1) 120 Cover.white))
               2588
               (Cover.mkState (seed 7) [New RGBA (5276, 3375) rgba_white]))).
Proof.
  destruct (spine_text_drawn_when_due (G := Lcg.generator)
              (Cover.sample_world false) (fun x => x) 0
              (s_ "/usr/share/fonts/truetype/dejavu/DejaVuSans-Bold.ttf")
              (Some (s_ "Dinos")) 120 Cover.white (85 # 10) (11 # 1)
              (Cover.mkSize 5276 3375) 2588
              (Cover.mkState (seed 7) [New RGBA (5276, 3375) rgba_white])
              exact_rounds_like_binary64)
    as (A & B & _).
  split; [apply A; lia|].
  apply B; [reflexivity | lia | simpl; lia | simpl; lia].
Defined.

(** ** cover_builder.py: [wrap_text] *)

Lemma split_ws_flush cur :
  Cover.split_ws cur [] = match cur with [] => [] | _ => [rev cur] end.
Proof. reflexivity. Qed.

(** White space ends the word being read, whatever comes before it. *)
Lemma split_ws_sep c a b :
  is_space c = true ->
  forall cur,
    Cover.split_ws cur (a ++ c :: b)
    = Cover.split_ws cur a ++ Cover.split_ws [] b.
Proof.
  intros Sc. induction a as [|x a IH]; intros cur; simpl.
  - rewrite Sc. destruct cur; reflexivity.
  - destruct (is_space x).
    + destruct cur; rewrite IH; reflexivity.
    + apply IH.
Qed.

Lemma split_ws_join c ls :
  is_space c = true ->
  Cover.split_ws [] (Cover.join [c] ls)
  = List.concat (map (Cover.split_ws []) ls).
Proof.
  intros Sc. induction ls as [|p [|q r] IH].
  - reflexivity.
  - simpl. rewrite app_nil_r. reflexivity.
  - change (Cover.join [c] (p :: q :: r))
      with (p ++ c :: Cover.join [c] (q :: r)).
    rewrite (split_ws_sep c p _ Sc), IH. reflexivity.
Qed.

Lemma split_ws_nospace w :
  forallb (fun c => negb (is_space c)) w = true ->
  forall cur,
    Cover.split_ws cur w
    = match rev w ++ cur with [] => [] | _ => [rev (rev w ++ cur)] end.
Proof.
  induction w as [|x w IH]; intros F cur; simpl in *.
  - destruct cur; reflexivity.
  - apply andb_true_iff in F. destruct F as [Fx F].
    destruct (is_space x); [discriminate|].
    rewrite (IH F). rewrite <- app_assoc. reflexivity.
Qed.

Lemma split_ws_word w : is_word w -> Cover.split_ws [] w = [w].
Proof.
  intros [NE F]. rewrite (split_ws_nospace w F), app_nil_r.
  destruct (rev w) eqn:E.
  - apply (f_equal (@rev ascii)) in E. rewrite rev_involutive in E.
    contradiction.
  - rewrite <- E, rev_involutive. reflexivity.
Qed.

Lemma split_ws_are_words s :
  forall cur,
    forallb (fun c => negb (is_space c)) cur = true ->
    Forall is_word (Cover.split_ws cur s).
Proof.
  assert (R : forall cur : str,
             cur <> [] ->
             forallb (fun c => negb (is_space c)) cur = true ->
             is_word (rev cur)).
  { intros cur NE F. split.
    - intros E. apply (f_equal (@rev ascii)) in E.
      rewrite rev_involutive in E. contradiction.
    - apply forallb_forall. intros x Hx. apply in_rev in Hx.
      rewrite forallb_forall in F. apply F, Hx. }
  induction s as [|c s IH]; intros cur F; simpl.
  - destruct cur as [|x cur]; constructor; [|constructor].
    apply R; [discriminate | exact F].
  - destruct (is_space c) eqn:Sc.
    + destruct cur as [|x cur]; [apply IH; reflexivity|].
      constructor; [apply R; [discriminate | exact F]|].
      apply IH. reflexivity.
    + apply IH. simpl. rewrite Sc. exact F.
Qed.

Lemma split_ws_words ws :
  Forall is_word ws -> List.concat (map (Cover.split_ws []) ws) = ws.
Proof.
  induction 1 as [|w ws Hw F IH]; simpl; [reflexivity|].
  rewrite (split_ws_word w Hw), IH. reflexivity.
Qed.

Lemma space_is_space : is_space " "%char = true.
Proof. reflexivity. Qed.

Lemma newline_is_space : is_space newline = true.
Proof. reflexivity. Qed.

Lemma split_ws_line line :
  Forall is_word line ->
  Cover.split_ws [] (Cover.join Cover.space line) = line.
Proof.
  intros F. unfold Cover.space.
  rewrite (split_ws_join _ line space_is_space). apply split_ws_words, F.
Qed.

Section Wrap.

Variable W : Cover.World.
Variable font : str * Z.
Variable max_width : Z.

Lemma line_state_ok line :
  Forall is_word line -> line <> [] -> line_state W font max_width line ->
  line_ok W font max_width (Cover.join Cover.space line).
Proof.
  intros F NE S. unfold line_ok. rewrite (split_ws_line line F).
  split; [exact NE|].
  destruct S as [E|[[w E]|Fit]]; [contradiction| |left; exact Fit].
  right. subst line. reflexivity.
Qed.

Lemma wrap_loop_spec words :
  forall lines line,
    Forall is_word words -> Forall is_word line ->
    line_state W font max_width line ->
    Forall (line_ok W font max_width) lines ->
    let out := Cover.wrap_loop W font max_width words lines line in
    List.concat (map (Cover.split_ws []) out)
    = List.concat (map (Cover.split_ws []) lines) ++ line ++ words
    /\ Forall (line_ok W font max_width) out.
Proof.
  induction words as [|wd rest IH]; intros lines line Fw Fl S Fo; simpl.
  - destruct line as [|l0 ls] eqn:El.
    + rewrite app_nil_r. split; [reflexivity | exact Fo].
    + rewrite <- El in *. rewrite map_app, List.concat_app. simpl.
      rewrite (split_ws_line line Fl), !app_nil_r.
      split; [reflexivity|].
      apply Forall_app. split; [exact Fo|]. constructor; [|constructor].
      apply line_state_ok; [exact Fl | rewrite El; discriminate | exact S].
  - inversion Fw as [|? ? Hwd Frest]; subst.
    destruct (Cover.textbbox W font (Cover.join Cover.space (line ++ [wd])))
      as [[[b0 b1] b2] b3] eqn:Eb.
    destruct (b2 - b0 <=? max_width) eqn:Fit.
    + destruct (IH lines (line ++ [wd]) Frest) as [C O].
      * apply Forall_app. split; [exact Fl | constructor; [exact Hwd|constructor]].
      * right. right. rewrite Eb. simpl. apply Z.leb_le. exact Fit.
      * exact Fo.
      * split; [|exact O]. rewrite C, <- app_assoc. reflexivity.
    + destruct line as [|l0 ls] eqn:El.
      * destruct (IH lines [wd] Frest) as [C O].
        -- constructor; [exact Hwd|constructor].
        -- right. left. eauto.
        -- exact Fo.
        -- split; [exact C | exact O].
      * rewrite <- El in *.
        destruct (IH (lines ++ [Cover.join Cover.space line]) [wd] Frest)
          as [C O].
        -- constructor; [exact Hwd|constructor].
        -- right. left. eauto.
        -- apply Forall_app. split; [exact Fo|].
           constructor; [|constructor].
           apply line_state_ok;
             [exact Fl | rewrite El; discriminate | exact S].
        -- split; [|exact O]. rewrite C, map_app, List.concat_app. simpl.
           rewrite (split_ws_line line Fl), !app_nil_r, <- app_assoc.
           reflexivity.
Qed.

End Wrap.

(** X11: wrapping a text loses no word, adds none and keeps their order:
    the words of the wrapped text are the words of the text.  Every line
    holds at least one word, and every line of two or more words is at
    most [max_width] wide by the library's measure; only a single word
    wider than that makes a line that does not fit. *)
Theorem wrap_text_keeps_words (W : Cover.World) (text : str)
  (font : str * Z) (max_width : Z) :
  Cover.split_ws [] (Cover.wrap_text W text font max_width)
  = Cover.split_ws [] text
  /\ Forall (line_ok W font max_width)
       (Cover.wrap_loop W font max_width (Cover.split_ws [] text) [] []).
Proof.
  destruct (wrap_loop_spec W font max_width (Cover.split_ws [] text) [] [])
    as [C O].
  - apply split_ws_are_words. reflexivity.
  - constructor.
  - left. reflexivity.
  - constructor.
  - split; [|exact O]. unfold Cover.wrap_text.
    rewrite (split_ws_join _ _ newline_is_space), C. reflexivity.
Qed.

(** ** cover_builder.py: the size of the title *)

Section FitTitle.

Variable W : Cover.World.
Variables path title : str.
Variable max_w : Z.

Lemma fit_title_step fuel t :
  Cover.fit_title W (S fuel) path title max_w t
  = if 24 <? t then
      if bbox_width (Cover.textbbox W (path, t) title) <=? max_w then t
      else Cover.fit_title W fuel path title max_w (t - 4)
    else t.
Proof.
  simpl. unfold bbox_width.
  destruct (Cover.textbbox W (path, t) title) as [[[b0 b1] b2] b3].
  reflexivity.
Qed.

(** The loop from size [t] with enough fuel: the first size that fits
    among [t], [t - 4], ... above 24, and otherwise 22. *)
Lemma fit_title_spec fuel :
  forall t,
    22 <= t -> t mod 4 = 2 -> (t - 22) / 4 < Z.of_nat fuel ->
    let s := Cover.fit_title W fuel path title max_w t in
    22 <= s <= t /\ s mod 4 = 2
    /\ (24 < s -> title_fits W path title max_w s)
    /\ (forall k, s < k <= t -> k mod 4 = 2 ->
          ~ title_fits W path title max_w k)
    /\ Cover.fit_title W (S fuel) path title max_w t = s.
Proof.
  induction fuel as [|fuel IH]; intros t L M F.
  - exfalso. simpl in F.
    pose proof (Z.div_pos (t - 22) 4 ltac:(lia) ltac:(lia)). lia.
  - cbv zeta. rewrite (fit_title_step (S fuel)), (fit_title_step fuel).
    destruct (24 <? t) eqn:Big.
    + apply Z.ltb_lt in Big.
      destruct (bbox_width (Cover.textbbox W (path, t) title) <=? max_w)
        eqn:Fit.
      * apply Z.leb_le in Fit.
        split; [lia|]. split; [exact M|]. split; [intros _; exact Fit|].
        split; [intros k Hk; lia | reflexivity].
      * apply Z.leb_gt in Fit.
        assert (M4 : (t - 4) mod 4 = 2).
        { rewrite <- M.
          replace (t - 4) with (t + (-1) * 4) by lia.
          apply Z.mod_add. lia. }
        assert (L4 : 22 <= t - 4).
        { pose proof (Z.div_mod t 4 ltac:(lia)) as D. rewrite M in D.
          assert (6 <= t / 4) by lia. lia. }
        assert (F4 : (t - 4 - 22) / 4 < Z.of_nat fuel).
        { replace (t - 4 - 22) with (t - 22 + (-1) * 4) by lia.
          rewrite Z.div_add by lia. lia. }
        destruct (IH (t - 4) L4 M4 F4) as (R & Ms & Fs & Ns & E).
        rewrite E.
        set (s := Cover.fit_title W fuel path title max_w (t - 4)) in *.
        split; [lia|]. split; [exact Ms|]. split; [exact Fs|].
        split; [|reflexivity].
        intros k Hk Mk.
        destruct (Z.eq_dec k t) as [->|NE].
        -- unfold title_fits. lia.
        -- apply Ns; [|exact Mk].
           pose proof (Z.div_mod k 4 ltac:(lia)) as Dk. rewrite Mk in Dk.
           pose proof (Z.div_mod t 4 ltac:(lia)) as Dt. rewrite M in Dt.
           lia.
    + apply Z.ltb_ge in Big.
      split; [lia|]. split; [exact M|]. split; [intros B; lia|].
      split; [intros k Hk; lia | reflexivity].
Qed.

Lemma fit_title_more_fuel fuel extra t :
  22 <= t -> t mod 4 = 2 -> (t - 22) / 4 < Z.of_nat fuel ->
  Cover.fit_title W (extra + fuel) path title max_w t
  = Cover.fit_title W fuel path title max_w t.
Proof.
  intros L M F. induction extra as [|extra IH]; [reflexivity|].
  rewrite <- IH. change (S extra + fuel)%nat with (S (extra + fuel)).
  apply (fit_title_spec (extra + fuel) t L M). lia.
Qed.

End FitTitle.

(** X12: the title size is the first of 150, 146, ..., 26 at which the
    title is no wider than the allowed width, and 22 when it is wider at
    all of them; at 22 the width is not measured, so the title may not
    fit.  The loop always ends: 33 rounds are enough, and more change
    nothing. *)
Theorem fit_title_first_fit (W : Cover.World) (path title : str)
  (max_w : Z) :
  let s := Cover.fit_title W 33 path title max_w 150 in
  22 <= s <= 150 /\ s mod 4 = 2
  /\ (24 < s -> title_fits W path title max_w s)
  /\ (forall k, s < k <= 150 -> k mod 4 = 2 ->
        ~ title_fits W path title max_w k)
  /\ (forall fuel, (33 <= fuel)%nat ->
        Cover.fit_title W fuel path title max_w 150 = s).
Proof.
  cbv zeta.
  destruct (fit_title_spec W path title max_w 33 150)
    as (R & M & F & N & _); [lia | reflexivity | reflexivity|].
  repeat split; try lia; try assumption.
  intros fuel L.
  replace fuel with ((fuel - 33) + 33)%nat by lia.
  apply fit_title_more_fuel; [lia | reflexivity | reflexivity].
Qed.

(** ** [parse_trim]: the two scripts side by side *)

Lemma digit_val_nonneg c : is_digit c = true -> 0 <= digit_val c.
Proof.
  unfold is_digit, digit_val. intros H.
  apply andb_true_iff in H. destruct H as [L _].
  apply N.leb_le in L. lia.
Qed.

Lemma digits_val_from_nonneg s :
  forallb is_digit s = true ->
  forall acc, 0 <= acc ->
    0 <= fold_left (fun a c => 10 * a + digit_val c) s acc.
Proof.
  induction s as [|c s IH]; intros F acc P; cbn [fold_left]; [exact P|].
  cbn [forallb] in F. apply andb_true_iff in F. destruct F as [Fc F].
  apply (IH F). pose proof (digit_val_nonneg c Fc). lia.
Qed.

Lemma digits_val_nonneg s : forallb is_digit s = true -> 0 <= digits_val s.
Proof. intros F. apply (digits_val_from_nonneg s F 0). lia. Qed.

Lemma numeral_val_nonneg s : is_numeral s = true -> (0 <= numeral_val s)%Q.
Proof.
  unfold is_numeral, numeral_val. intros H.
  destruct (span_spec is_digit s) as (_ & Fi & _).
  destruct (span is_digit s) as [i r]. cbn [fst snd] in *.
  apply andb_true_iff in H. destruct H as [_ H].
  assert (Ff : forallb is_digit (tl r) = true).
  { destruct r as [|c f]; [reflexivity|]. simpl.
    apply andb_true_iff in H. apply H. }
  rewrite Qred_correct. unfold Qle. simpl.
  pose proof (digits_val_nonneg i Fi).
  pose proof (digits_val_nonneg (tl r) Ff).
  assert (0 <= 10 ^ Z.of_nat (List.length (tl r)))
    by (apply Z.pow_nonneg; lia).
  nia.
Qed.

Lemma lower_at_eol t : Re.at_eol t = true -> lower t = t.
Proof.
  intros H. apply at_eol_inv in H. destruct H as [->| ->]; reflexivity.
Qed.

Lemma at_eol_spaces t : Re.at_eol t = true -> forallb is_space t = true.
Proof.
  intros H. apply at_eol_inv in H. destruct H as [->| ->]; reflexivity.
Qed.

(** X13: every trim string the interior script accepts, the cover
    script accepts too, with the same two numbers; and the numbers either
    script returns are never negative (zero is accepted: [0x0] parses). *)
Theorem parse_trim_scripts_agree (s : str) (v : Q * Q) :
  (Interior.parse_trim s = Ok v -> Cover.parse_trim s = Ok v)
  /\ (Cover.parse_trim s = Ok v -> (0 <= fst v)%Q /\ (0 <= snd v)%Q)
  /\ Cover.parse_trim (s_ "0x0") = Ok (0, 0)%Q.
Proof.
  split; [|split].
  - intros H.
    destruct (interior_parse_trim_inv s)
      as [(n1 & n2 & t & H1 & H2 & E & -> & P)|R]; [|congruence].
    rewrite H in P. rewrite P.
    apply (cover_parse_trim_accepts _ [] n1 [] [] n2 t); auto.
    + apply at_eol_spaces, E.
    + unfold lower. rewrite map_app. simpl. rewrite map_app.
      fold (lower n1). fold (lower n2). fold (lower t).
      rewrite (lower_numeral _ H1), (lower_numeral _ H2), (lower_at_eol _ E).
      reflexivity.
  - intros H.
    destruct (cover_parse_trim_inv s)
      as [(w0 & n1 & w1 & w2 & n2 & w3 & _ & _ & _ & _ & H1 & H2 & _ & P)|R];
      [|congruence].
    rewrite H in P. inversion P; subst v. cbn [fst snd].
    split; apply numeral_val_nonneg; assumption.
  - vm_compute. reflexivity.
Qed.

Lemma parse_trim_scripts_agree_witness :
  Interior.parse_trim (s_ "8.5x11") = Ok (17 # 2, 11 # 1)
  /\ Cover.parse_trim (s_ "8.5x11") = Ok (17 # 2, 11 # 1)
  /\ (0 <= 17 # 2)%Q.
Proof.
  assert (I : Interior.parse_trim (s_ "8.5x11") = Ok (17 # 2, 11 # 1))
    by (vm_compute; reflexivity).
  destruct (parse_trim_scripts_agree (s_ "8.5x11") (17 # 2, 11 # 1))
    as (A & B & _).
  split; [exact I|]. split; [exact (A I)|].
  exact (proj1 (B (A I))).
Defined.

(** ** cover_builder.py: the barcode area *)

(** X14: the barcode area is a white rectangle drawn on the canvas
    between the corners [(x, y)] and [(x + 600, y + 360)], both corners
    included, so that 601 columns and 361 rows of pixels are painted:
    a pixel of the canvas becomes white exactly when
    [x <= px <= x + 600] and [y <= py <= y + 360], and keeps its colour
    otherwise.  The lower corner is 75 pixels above the bottom bleed line
    (the limit of line 408 never changes it) and the left edge at least
    75 pixels right of the left edge of the back panel.  On a back panel
    at least 750 pixels wide the right corner is 75 pixels left of the
    spine; on a narrower one the rectangle is pushed right and reaches
    past that line. *)
Theorem barcode_area {G : RandomGen} (base : nat) (total : Cover.Size)
  (bleed_px left_x0 left_x1 : Z) (st : Cover.state) :
  exists x,
    let y := Cover.h total - bleed_px - 435 in
    Cover.reserve_barcode base total bleed_px left_x0 left_x1 st
    = (Ok tt,
       Cover.mkState (Cover.rng st)
         (set_nth (Cover.heap st) base
            (Rect (x, y, x + 600, y + 360)
               rgba_white (nth base (Cover.heap st) blank))))
    /\ (forall im px py old,
          pixel im px py = Some old ->
          pixel (Rect (x, y, x + 600, y + 360) rgba_white im) px py
          = Some (if (x <=? px) && (px <=? x + 600)
                     && (y <=? py) && (py <=? y + 360)
                  then rgba_white else old))
    /\ (forall im px py,
          pixel im px py = None ->
          pixel (Rect (x, y, x + 600, y + 360) rgba_white im) px py = None)
    /\ left_x0 + 75 <= x
    /\ (750 <= left_x1 - left_x0 -> x + 600 = left_x1 - 75)
    /\ (left_x1 - left_x0 < 750 ->
        x = left_x0 + 75 /\ left_x1 - 75 < x + 600).
Proof.
  exists (Z.max (left_x0 + 75) (left_x1 - 600 - 75)). cbv zeta.
  split; [|split; [|split; [|lia]]].
  - unfold Cover.reserve_barcode, Cover.mutate.
    change (Cover.inches_to_px Cover.BARCODE_W_IN) with 600.
    change (Cover.inches_to_px Cover.BARCODE_H_IN) with 360.
    change (Cover.inches_to_px (25 # 100)) with 75.
    change (Cover.inches_to_px Cover.BARCODE_BOTTOM_OFFSET_IN) with 75.
    change (Cover.inches_to_px (1 # 10)) with 30.
    replace (Z.min (Cover.h total - bleed_px - 360 - 30)
               (Cover.h total - bleed_px - 360 - 75))
      with (Cover.h total - bleed_px - 435) by lia.
    reflexivity.
  - intros im px py old E. cbn [pixel]. rewrite E. reflexivity.
  - intros im px py E. cbn [pixel]. rewrite E. reflexivity.
Qed.

Lemma barcode_area_witness :
  exists x,
    Cover.reserve_barcode (G := Lcg.generator) 0
      (Cover.mkSize 5195 3375) 38 38 2588
      (Cover.mkState (seed 7) [New RGBA (5195, 3375) rgba_white])
    = (Ok tt,
       Cover.mkState (seed 7)
         [Rect (x, 2902, x + 600, 2902 + 360) rgba_white
            (New RGBA (5195, 3375) rgba_white)])
    /\ x + 600 = 2513.
Proof.
  destruct (barcode_area (G := Lcg.generator) 0 (Cover.mkSize 5195 3375)
              38 38 2588
              (Cover.mkState (seed 7) [New RGBA (5195, 3375) rgba_white]))
    as (x & E & _ & _ & _ & In & _).
  exists x. split; [exact E | apply In; lia].
Defined.

(** ** Both scripts: the font that is picked *)

Lemma cover_pick_font_spec (W : Cover.World) cs :
  match Cover.pick_first_existing_font W cs with
  | Some p =>
      exists pre post,
        cs = pre ++ p :: post /\ Cover.path_exists W p = true
        /\ Forall (fun q => Cover.path_exists W q = false) pre
  | None => Forall (fun q => Cover.path_exists W q = false) cs
  end.
Proof.
  induction cs as [|c cs IH]; simpl; [constructor|].
  destruct (Cover.path_exists W c) eqn:E.
  - exists [], cs. auto.
  - destruct (Cover.pick_first_existing_font W cs) as [p|].
    + destruct IH as (pre & post & -> & P & F).
      exists (c :: pre), post. auto.
    + constructor; assumption.
Qed.

Lemma interior_pick_font_spec (W : Interior.World) cs :
  match Interior.pick_first_existing_font W cs with
  | Ok p =>
      exists pre post,
        cs = pre ++ p :: post /\ Interior.path_exists W p = true
        /\ Forall (fun q => Interior.path_exists W q = false) pre
  | Raise e =>
      e = FileNotFoundError
      /\ Forall (fun q => Interior.path_exists W q = false) cs
  end.
Proof.
  induction cs as [|c cs IH]; simpl; [split; constructor|].
  destruct (Interior.path_exists W c) eqn:E.
  - exists [], cs. auto.
  - destruct (Interior.pick_first_existing_font W cs) as [p|e].
    + destruct IH as (pre & post & -> & P & F).
      exists (c :: pre), post. auto.
    + destruct IH as [-> F]. split; [reflexivity|]. constructor; assumption.
Qed.

(** X15: in both scripts the font picked is the first candidate, in
    list order, whose path exists: every candidate before it is missing.
    With no candidate present the cover script gets [None] and the
    interior script raises [FileNotFoundError]; the interior script
    raises nothing else.  A cover build without any of the title fonts
    never returns a cover. *)
Theorem first_existing_font {G : RandomGen} (WC : Cover.World)
  (WI : Interior.World) (cs : list str) :
  (forall p,
     Cover.pick_first_existing_font WC cs = Some p <->
     exists pre post,
       cs = pre ++ p :: post /\ Cover.path_exists WC p = true
       /\ Forall (fun q => Cover.path_exists WC q = false) pre)
  /\ (Cover.pick_first_existing_font WC cs = None <->
      Forall (fun q => Cover.path_exists WC q = false) cs)
  /\ (forall p,
        Interior.pick_first_existing_font WI cs = Ok p <->
        exists pre post,
          cs = pre ++ p :: post /\ Interior.path_exists WI p = true
          /\ Forall (fun q => Interior.path_exists WI q = false) pre)
  /\ (forall e,
        Interior.pick_first_existing_font WI cs = Raise e <->
        e = FileNotFoundError
        /\ Forall (fun q => Interior.path_exists WI q = false) cs)
  /\ (Forall (fun q => Cover.path_exists WC q = false)
        Cover.DEFAULT_TITLE_FONTS ->
      forall title description pages pp trim max_images spine_title bg
             seed_arg st c,
        fst (Cover.build_cover WC title description pages pp trim max_images
               spine_title bg seed_arg st) <> Ok c).
Proof.
  assert (U : forall (ex : str -> bool) pre post pre' post' (p p' : str),
             pre ++ p :: post = pre' ++ p' :: post' ->
             ex p = true -> ex p' = true ->
             Forall (fun q => ex q = false) pre ->
             Forall (fun q => ex q = false) pre' -> p = p').
  { intros ex pre. induction pre as [|a pre IH];
      intros post pre' post' p p' E P P' F F'.
    - destruct pre' as [|b pre']; simpl in E; inversion E; subst;
        [reflexivity|].
      inversion F'; subst. congruence.
    - destruct pre' as [|b pre']; simpl in E; inversion E; subst.
      + inversion F; subst. congruence.
      + inversion F; inversion F'; subst. eapply IH; eauto. }
  assert (N : forall (ex : str -> bool) pre post (p : str),
             ex p = true ->
             ~ Forall (fun q => ex q = false) (pre ++ p :: post)).
  { intros ex pre post p P F. apply Forall_app in F. destruct F as [_ F].
    inversion F; subst. congruence. }
  pose proof (cover_pick_font_spec WC cs) as C.
  pose proof (interior_pick_font_spec WI cs) as I.
  split; [|split; [|split; [|split]]].
  - intros p. split.
    + intros E. rewrite E in C. exact C.
    + intros (pre & post & E & P & F).
      destruct (Cover.pick_first_existing_font WC cs) as [p'|].
      * destruct C as (pre' & post' & E' & P' & F'). f_equal. symmetry.
        apply (U (Cover.path_exists WC) pre post pre' post' p p');
          try assumption. congruence.
      * exfalso. rewrite E in C. apply (N _ _ _ _ P C).
  - split.
    + intros E. rewrite E in C. exact C.
    + intros F. destruct (Cover.pick_first_existing_font WC cs) as [p|];
        [|reflexivity].
      destruct C as (pre & post & E & P & _). exfalso.
      rewrite E in F. apply (N _ _ _ _ P F).
  - intros p. split.
    + intros E. rewrite E in I. exact I.
    + intros (pre & post & E & P & F).
      destruct (Interior.pick_first_existing_font WI cs) as [p'|e].
      * destruct I as (pre' & post' & E' & P' & F'). f_equal. symmetry.
        apply (U (Interior.path_exists WI) pre post pre' post' p p');
          try assumption. congruence.
      * exfalso. destruct I as [_ I]. rewrite E in I.
        apply (N _ _ _ _ P I).
  - intros e. split.
    + intros E. rewrite E in I. destruct I as [-> F]. auto.
    + intros [-> F].
      destruct (Interior.pick_first_existing_font WI cs) as [p|e].
      * destruct I as (pre & post & E & P & _). exfalso.
        rewrite E in F. apply (N _ _ _ _ P F).
      * destruct I as [-> _]. reflexivity.
  - intros F title description pages pp trim max_images spine_title bg
      seed_arg st c H.
    apply build_cover_ok_inv in H. destruct H as (_ & _ & path & E).
    pose proof (cover_pick_font_spec WC Cover.DEFAULT_TITLE_FONTS) as S.
    rewrite E in S. destruct S as (pre & post & Ec & P & _).
    rewrite Ec in F. apply (N _ _ _ _ P F).
Qed.

Lemma first_existing_font_witness :
  Cover.pick_first_existing_font (Cover.sample_world true)
    Cover.DEFAULT_TITLE_FONTS
  = Some (s_ "/usr/share/fonts/truetype/dejavu/DejaVuSans-Bold.ttf")
  /\ Interior.pick_first_existing_font Interior.sample_world
       Interior.DEFAULT_FONTS
     = Ok (s_ "/usr/share/fonts/truetype/dejavu/DejaVuSans-Bold.ttf").
Proof.
  destruct (first_existing_font (G := Lcg.generator) (Cover.sample_world true)
              Interior.sample_world Cover.DEFAULT_TITLE_FONTS)
    as (C & _).
  destruct (first_existing_font (G := Lcg.generator) (Cover.sample_world true)
              Interior.sample_world Interior.DEFAULT_FONTS)
    as (_ & _ & I & _).
  split.
  - apply C.
    exists [s_ "fonts/Baloo2-SemiBold.ttf"; s_ "fonts/Fredoka-SemiBold.ttf";
            s_ "fonts/ComicNeue-Bold.ttf"], [].
    split; [reflexivity|]. split; [reflexivity|].
    repeat constructor.
  - apply I. exists [s_ "fonts/ComicNeue-Bold.ttf"], [].
    split; [reflexivity|]. split; [reflexivity|].
    repeat constructor.
Defined.

(** ** cover_builder.py: the mask of [draw_gradient] *)

Lemma mask_ratio_range h y :
  0 <= y < h ->
  (0 <= 255 * (inject_Z y / inject_Z (Z.max 1 (h - 1))) <= 255)%Q.
Proof.
  intros R.
  assert (D : (0 < inject_Z (Z.max 1 (h - 1)))%Q)
    by (unfold Qlt; simpl; lia).
  assert (Y0 : (0 <= inject_Z y)%Q) by (unfold Qle; simpl; lia).
  assert (Y1 : (inject_Z y <= inject_Z (Z.max 1 (h - 1)))%Q)
    by (unfold Qle; simpl; lia).
  assert (F0 : (0 <= inject_Z y / inject_Z (Z.max 1 (h - 1)))%Q).
  { apply Qle_shift_div_l; [exact D|]. rewrite Qmult_0_l. exact Y0. }
  assert (F1 : (inject_Z y / inject_Z (Z.max 1 (h - 1)) <= 1)%Q).
  { apply Qle_shift_div_r; [exact D|]. rewrite Qmult_1_l. exact Y1. }
  split; lra.
Qed.

Lemma mask_ratio_mono h y y' :
  y <= y' ->
  (255 * (inject_Z y / inject_Z (Z.max 1 (h - 1)))
   <= 255 * (inject_Z y' / inject_Z (Z.max 1 (h - 1))))%Q.
Proof.
  intros L.
  assert (D : (0 < inject_Z (Z.max 1 (h - 1)))%Q)
    by (unfold Qlt; simpl; lia).
  assert (Y : (inject_Z y <= inject_Z y')%Q) by (unfold Qle; simpl; lia).
  assert (F : (inject_Z y / inject_Z (Z.max 1 (h - 1))
               <= inject_Z y' / inject_Z (Z.max 1 (h - 1)))%Q).
  { unfold Qdiv. apply Qmult_le_compat_r; [exact Y|].
    apply Qlt_le_weak, Qinv_lt_0_compat, D. }
  lra.
Qed.

(** X16: the mask of the gradient is a ramp: over the rows of an image
    of height [h] its value stays between 0 and 255, never decreases
    from one row to the next, is 0 on the first row and, when the image
    has at least two rows, 255 on the last. *)
Theorem mask_value_ramp (h y : Z) :
  0 <= y < h ->
  0 <= Cover.mask_value h y <= 255
  /\ (forall y', y <= y' < h ->
        Cover.mask_value h y <= Cover.mask_value h y')
  /\ Cover.mask_value h 0 = 0
  /\ (2 <= h -> Cover.mask_value h (h - 1) = 255).
Proof.
  intros R. unfold Cover.mask_value.
  split; [|split; [|split]].
  - destruct (mask_ratio_range h y R) as [P U]. split.
    + apply int_nonneg, P.
    + apply (int_le _ 255 P). exact U.
  - intros y' R'.
    destruct (mask_ratio_range h y R) as [P _].
    destruct (mask_ratio_range h y' ltac:(lia)) as [P' _].
    rewrite (int_floor _ P), (int_floor _ P').
    apply Qfloor_resp_le, mask_ratio_mono. lia.
  - replace (Py.int (255 * (inject_Z 0 / inject_Z (Z.max 1 (h - 1)))))
      with (Py.int 0); [reflexivity|].
    unfold Py.int. simpl. reflexivity.
  - intros H2. replace (Z.max 1 (h - 1)) with (h - 1) by lia.
    assert (E : (255 * (inject_Z (h - 1) / inject_Z (h - 1)) == 255)%Q).
    { field. unfold Qeq. simpl. lia. }
    assert (P : (0 <= 255 * (inject_Z (h - 1) / inject_Z (h - 1)))%Q)
      by (rewrite E; discriminate).
    rewrite (int_floor _ P), E. reflexivity.
Qed.

Lemma mask_value_ramp_witness :
  0 <= Cover.mask_value 3375 1000 <= 255
  /\ Cover.mask_value 3375 3374 = 255.
Proof.
  destruct (mask_value_ramp 3375 1000 ltac:(lia))
    as (A & _ & _ & B).
  split; [exact A | apply B; lia].
Defined.

(** ** cover_builder.py: the palette a gradient specification names *)

Lemma digit_not_int_space c : is_digit c = true -> is_int_space c = false.
Proof. by_cases_on_char c. Qed.

Lemma strip_left_head s :
  match s with [] => True | c :: _ => is_int_space c = false end ->
  int_strip_left s = s.
Proof. destruct s as [|c r]; simpl; [reflexivity|]. intros ->. reflexivity. Qed.

Lemma strip_digits ds : forallb is_digit ds = true -> int_strip ds = ds.
Proof.
  intros F. unfold int_strip.
  assert (H : forall s, forallb is_digit s = true ->
                match s with [] => True | c :: _ => is_int_space c = false end).
  { intros [|c r] Fs; [exact I|]. simpl in Fs.
    apply andb_true_iff in Fs. apply digit_not_int_space, Fs. }
  rewrite (strip_left_head ds (H ds F)).
  rewrite strip_left_head; [apply rev_involutive|].
  apply H. apply forallb_forall. intros x Hx. apply in_rev in Hx.
  rewrite forallb_forall in F. apply F, Hx.
Qed.

Lemma grouped_digits_all ds b :
  forallb is_digit ds = true ->
  grouped_digits b ds = (b || nonempty ds).
Proof.
  revert b. induction ds as [|c ds IH]; intros b F; simpl.
  - rewrite orb_false_r. reflexivity.
  - simpl in F. apply andb_true_iff in F. destruct F as [Fc F].
    rewrite Fc, (IH true F). simpl. rewrite orb_true_r. reflexivity.
Qed.

Lemma filter_digits ds : forallb is_digit ds = true -> filter is_digit ds = ds.
Proof.
  induction ds as [|c ds IH]; intros F; simpl; [reflexivity|].
  simpl in F. apply andb_true_iff in F. destruct F as [Fc F].
  rewrite Fc, (IH F). reflexivity.
Qed.

Lemma digit_not_sign c :
  is_digit c = true -> is_char "+" c = false /\ is_char "-" c = false.
Proof.
  intros D. split.
  - destruct (is_char "+" c) eqn:E; [|reflexivity].
    apply is_char_eq in E. subst c. discriminate.
  - destruct (is_char "-" c) eqn:E; [|reflexivity].
    apply is_char_eq in E. subst c. discriminate.
Qed.

(** [int] on a run of digits. *)
Lemma py_int_digits md ds :
  forallb is_digit ds = true -> ds <> [] ->
  py_int md ds
  = if ((md =? 0)%nat || (List.length ds <=? md)%nat)
    then Ok (digits_val ds) else Raise ValueError.
Proof.
  intros F NE. unfold py_int. rewrite (strip_digits ds F).
  destruct ds as [|c r]; [congruence|].
  assert (Fc : is_digit c = true)
    by (simpl in F; apply andb_true_iff in F; apply F).
  destruct (digit_not_sign c Fc) as [-> ->].
  rewrite (grouped_digits_all (c :: r) false F), (filter_digits (c :: r) F).
  cbn [orb nonempty andb].
  destruct ((md =? 0)%nat || (List.length (c :: r) <=? md)%nat);
    [|reflexivity].
  f_equal. lia.
Qed.

(** X17: in [gradient:pastel:N] with [N] a run of decimal digits the
    palette is number [N], and the last one (number 4) when [N] is
    larger; a run longer than the interpreter converts, like a missing
    or non-numeric [N], selects palette 0. *)
Theorem palette_index_of_digits (max_digits : nat) (ds : str) :
  forallb is_digit ds = true -> ds <> [] ->
  Cover.palette_index max_digits (s_ "gradient:pastel:" ++ ds)
  = (if ((max_digits =? 0)%nat || (List.length ds <=? max_digits)%nat)
     then Z.min 4 (digits_val ds) else 0)
  /\ Cover.palette_index max_digits (s_ "gradient:pastel") = 0
  /\ Cover.palette_index max_digits (s_ "gradient:pastel:" ++ "-"%char :: ds)
     = 0.
Proof.
  intros F NE.
  pose proof (digits_val_nonneg ds F) as P.
  split; [|split].
  - unfold Cover.palette_index.
    change (partition_after (s_ ":pastel:") (s_ "gradient:pastel:" ++ ds))
      with ds.
    rewrite (py_int_digits max_digits ds F NE).
    destruct ((max_digits =? 0)%nat || (List.length ds <=? max_digits)%nat);
      [|reflexivity].
    change (Z.of_nat (List.length Cover.PASTEL_PALETTES) - 1) with 4. lia.
  - reflexivity.
  - unfold Cover.palette_index.
    change (partition_after (s_ ":pastel:")
              (s_ "gradient:pastel:" ++ "-"%char :: ds))
      with ("-"%char :: ds).
    unfold py_int.
    assert (S : int_strip ("-"%char :: ds) = "-"%char :: ds).
    { unfold int_strip. rewrite (strip_left_head ("-"%char :: ds) eq_refl).
      rewrite strip_left_head; [apply rev_involutive|].
      destruct (rev ("-"%char :: ds)) as [|c r] eqn:E; [exact I|].
      assert (In c ("-"%char :: ds))
        by (apply in_rev; rewrite E; left; reflexivity).
      destruct H as [<-|H]; [reflexivity|].
      rewrite forallb_forall in F. apply digit_not_int_space, F, H. }
    rewrite S. cbv beta iota.
    change (is_char "+" "-") with false. change (is_char "-" "-") with true.
    cbv beta iota.
    destruct (grouped_digits false ds
              && ((max_digits =? 0)%nat
                  || (List.length (filter is_digit ds) <=? max_digits)%nat));
      [|reflexivity].
    rewrite (filter_digits ds F).
    change (Z.of_nat (List.length Cover.PASTEL_PALETTES) - 1) with 4. lia.
Qed.

Lemma palette_index_of_digits_witness :
  Cover.palette_index 4300 (s_ "gradient:pastel:" ++ s_ "3") = 3
  /\ Cover.palette_index 4300 (s_ "gradient:pastel:" ++ s_ "17") = 4.
Proof.
  split.
  - apply (proj1 (palette_index_of_digits 4300 (s_ "3") eq_refl
                    ltac:(discriminate))).
  - apply (proj1 (palette_index_of_digits 4300 (s_ "17") eq_refl
                    ltac:(discriminate))).
Defined.
